(** * Dependency-tree extractor: resolver and graph builder

    A shallow embedding of the [DependencyExtractor] class of
    [dependency-tree.js]: the module-path resolver
    ([resolveImportPath] and its strategies, [tryResolveWithExtensions],
    [shouldExclude]) and the recursive graph builder
    ([extractDependencies], [analyze]).

    The JavaScript object keeps its mutable collections ([visited],
    [circularDeps], [allFiles], [unresolved]) on the instance; here they
    are the fields of an explicit [state] that every operation threads.
    The filesystem and the host module loader are read through a [world]
    record.  Debug tracing ([console.log]) does not change the result and
    is left out. *)

From stdpp Require Import gmap strings list fin_maps.
From Stdlib Require Import Ascii String.

(** ** String helpers with the names of the JavaScript methods *)

Fixpoint startsWith (s p : string) {struct p} : bool :=
  match p, s with
  | EmptyString, _ => true
  | String a p', String b s' => Ascii.eqb a b && startsWith s' p'
  | String _ _, EmptyString => false
  end.

(** [s.substring(n)]: the characters of [s] from index [n] on. *)
Fixpoint substring_from (n : nat) (s : string) : string :=
  match n, s with
  | O, _ => s
  | S n', String _ r => substring_from n' r
  | S _, EmptyString => EmptyString
  end.

Fixpoint has_slash (s : string) : bool :=
  match s with
  | EmptyString => false
  | String c r => Ascii.eqb c "/" || has_slash r
  end.

Fixpoint last_char (s : string) : option ascii :=
  match s with
  | EmptyString => None
  | String c EmptyString => Some c
  | String _ r => last_char r
  end.

Definition lower_ascii (c : ascii) : ascii :=
  let n := nat_of_ascii c in
  if (65 <=? n)%nat && (n <=? 90)%nat then ascii_of_nat (n + 32) else c.

Fixpoint toLowerCase (s : string) : string :=
  match s with
  | EmptyString => EmptyString
  | String c r => String (lower_ascii c) (toLowerCase r)
  end.

(** ** Node's POSIX [path] module

    [path] is part of the host runtime, not of the extractor; these
    definitions follow the algorithms of Node's [path.posix]
    ([normalizeString], [resolve], [join], [dirname], [relative],
    [extname]) on segment lists. *)

Module Path.

(** Split on the separator; [split "/a//b" = [""; "a"; ""; "b"]]. *)
Fixpoint split (s : string) : list string :=
  match s with
  | EmptyString => [EmptyString]
  | String c r =>
      if Ascii.eqb c "/" then EmptyString :: split r
      else match split r with
           | [] => [String c EmptyString]
           | h :: t => String c h :: t
           end
  end.

Definition unsplit (segs : list string) : string := String.concat "/" segs.

(** One segment of [normalizeString]; [acc] is the output so far, last
    segment first. *)
Definition norm_step (allowAboveRoot : bool) (acc : list string) (seg : string)
  : list string :=
  if String.eqb seg "" || String.eqb seg "." then acc
  else if String.eqb seg ".." then
    match acc with
    | h :: t =>
        if String.eqb h ".." then (if allowAboveRoot then ".."%string :: acc else acc)
        else t
    | [] => if allowAboveRoot then [".."%string] else []
    end
  else seg :: acc.

Definition norm_segs (allowAboveRoot : bool) (segs : list string) : list string :=
  rev (fold_left (norm_step allowAboveRoot) segs []).

Definition normalizeString (s : string) (allowAboveRoot : bool) : string :=
  unsplit (norm_segs allowAboveRoot (split s)).

Definition isAbsolute (s : string) : bool := startsWith s "/".

(** The right-to-left loop of [resolve]: prepend arguments until one is
    absolute; empty arguments are skipped. *)
Fixpoint resolve_loop (args_rev : list string) (acc : string) : string * bool :=
  match args_rev with
  | [] => (acc, false)
  | p :: rest =>
      if String.eqb p "" then resolve_loop rest acc
      else
        let acc' := (p +:+ "/" +:+ acc)%string in
        if isAbsolute p then (acc', true) else resolve_loop rest acc'
  end.

(** [path.resolve(...args)] in a process whose working directory is [cwd]. *)
Definition resolve (cwd : string) (args : list string) : string :=
  let '(rp, abs) := resolve_loop (rev (cwd :: args)) "" in
  let n := normalizeString rp (negb abs) in
  if abs then ("/" +:+ n)%string
  else if String.eqb n "" then "."%string else n.

Definition normalize (p : string) : string :=
  if String.eqb p "" then "."%string
  else
    let abs := isAbsolute p in
    let trailing := bool_decide (last_char p = Some "/"%char) in
    let n := normalizeString p (negb abs) in
    if String.eqb n "" then
      (if abs then "/" else if trailing then "./" else ".")%string
    else
      let n' := if trailing then (n +:+ "/")%string else n in
      if abs then ("/" +:+ n')%string else n'.

(** [path.join(...args)]. *)
Definition join (args : list string) : string :=
  match filter (λ a, a ≠ ""%string) args with
  | [] => "."%string
  | l => normalize (unsplit l)
  end.

(** [path.dirname]: drop trailing separators, the last segment and one
    separator; index 0 is never dropped. *)
Fixpoint drop_while_rev (f : ascii → bool) (l : list ascii) : list ascii :=
  match l with
  | c :: r => if f c then drop_while_rev f r else l
  | [] => []
  end.

Definition dirname (p : string) : string :=
  match list_ascii_of_string p with
  | [] => "."%string
  | c0 :: rest =>
      let hasRoot := Ascii.eqb c0 "/" in
      let r1 := drop_while_rev (λ c, Ascii.eqb c "/") (rev rest) in
      let r2 := drop_while_rev (λ c, negb (Ascii.eqb c "/")) r1 in
      match r2 with
      | [] => if hasRoot then "/"%string else "."%string
      | _ :: before =>
          match before with
          | [] => if hasRoot then "//"%string
                  else string_of_list_ascii [c0]
          | _ => string_of_list_ascii (c0 :: rev before)
          end
      end
  end.

Fixpoint strip_common (a b : list string) : list string * list string :=
  match a, b with
  | x :: a', y :: b' => if String.eqb x y then strip_common a' b' else (a, b)
  | _, _ => (a, b)
  end.

Definition abs_segs (cwd p : string) : list string :=
  norm_segs false (split (resolve cwd [p])).

(** [path.relative(from, to)]. *)
Definition relative (cwd from to : string) : string :=
  let '(up, down) := strip_common (abs_segs cwd from) (abs_segs cwd to) in
  unsplit (map (λ _, ".."%string) up ++ down).

(** Position-free reading of [extname]: the suffix of the last segment
    from its last dot on, empty when there is no dot, when the only dot
    is the first character, or when the segment is [".."]. *)
Fixpoint ext_scan (s : string) : option string :=
  match s with
  | EmptyString => None
  | String c r =>
      match ext_scan r with
      | Some e => Some e
      | None => if Ascii.eqb c "." then Some s else None
      end
  end.

Definition last_seg (p : string) : string :=
  default ""%string (last (filter (λ s, s ≠ ""%string) (split p))).

Definition extname (p : string) : string :=
  match last_seg p with
  | EmptyString => ""%string
  | String c r as seg =>
      if String.eqb seg ".." then ""%string
      else default ""%string (ext_scan r)
  end.

(** *** Vocabulary for the path lemmas *)

(** A segment [normalizeString] keeps as it is. *)
Definition clean (seg : string) : bool :=
  negb (String.eqb seg "" || String.eqb seg "." || String.eqb seg "..").

(** A path is resolved when [resolve] leaves it alone: it is absolute
    and in normal form. *)
Definition resolved (cwd p : string) : Prop :=
  isAbsolute p = true ∧ resolve cwd [p] = p.

(** Absolute and in normal form: what [resolve] and [join] return for
    an absolute first argument. *)
Definition normal (p : string) : Prop :=
  isAbsolute p = true ∧ ("/" +:+ unsplit (norm_segs false (split p)))%string = p.

(** A suffix or segment that can be appended without changing the
    shape of a normal path. *)
Definition plain (s : string) : bool :=
  negb (has_slash s) && clean s.

End Path.

(** ** Configuration, host and instance state *)

(** An exclude pattern is a [RegExp] used only through [test]; the
    default patterns are substring and suffix matches, any other
    expression is carried as its test function.  The expressions have no
    [g] or [y] flag, so [test] is stateless. *)
Inductive pattern : Type :=
  | Contains (fragment : string)
  | EndsWith (suffix : string)
  | Custom (test : string → bool).

Fixpoint includes (s sub : string) : bool :=
  startsWith s sub ||
  match s with
  | EmptyString => false
  | String _ r => includes r sub
  end.

Fixpoint endsWith (s suf : string) : bool :=
  String.eqb s suf ||
  match s with
  | EmptyString => false
  | String _ r => endsWith r suf
  end.

Definition pattern_test (p : pattern) (filePath : string) : bool :=
  match p with
  | Contains f => includes filePath f
  | EndsWith f => endsWith filePath f
  | Custom t => t filePath
  end.

(** The fields the constructor fixes once and for all. *)
Record config : Type := Config {
  maxDepth : option Z;            (* [None] is [Infinity] *)
  includeExternal : bool;
  maxContentLength : N;
  extensions : list string;
  excludePatterns : list pattern;
  svelteAliases : list (string * string);   (* [Object.entries] order *)
}.

Inductive fs_entry : Type :=
  | File (size : N) (content : option string)   (* [None]: reading throws *)
  | Dir (size : N).

(** What the extractor asks of its host: the filesystem, the working
    directory, the module loader, and the two regular-expression scanners:
    [scriptRegions] is the text the [scriptRegex] loop of
    [extractScriptFromSvelte] accumulates, and [extractImportsFromLine] is
    the seven-pattern scan of one line, filtered by [isValidImportPath]. *)
Record world : Type := World {
  cwd : string;
  fs : gmap string fs_entry;
  require_resolve : string → option string → option string;
  scriptRegions : string → string;
  extractImportsFromLine : string → list string;
}.

Definition default_extensions : list string :=
  [".ts"; ".tsx"; ".js"; ".jsx"; ".json"; ".mjs"; ".cjs"; ".d.ts"; ".svelte"]%string.

Definition default_excludePatterns : list pattern :=
  [ Contains "node_modules"; EndsWith ".d.ts"; EndsWith ".spec.ts";
    EndsWith ".test.ts"; EndsWith ".spec.js"; EndsWith ".test.js";
    Contains "dist/"; Contains "build/"; Contains "coverage/";
    Contains ".git/"; Contains ".vscode/"; Contains ".idea/" ].

Definition default_svelteAliases : list (string * string) :=
  [ ("$lib", "src/lib"); ("$app", "@sveltejs/kit"); ("$env", "@sveltejs/kit");
    ("$service-worker", "@sveltejs/kit") ]%string.

(** The [options] object of the constructor; an absent key is [None]. *)
Record options : Type := Options {
  o_maxDepth : option Z;
  o_rootDir : option string;
  o_includeExternal : option bool;
  o_maxContentLength : option N;
  o_extensions : option (list string);
  o_excludePatterns : option (list pattern);
  o_svelteAliases : option (list (string * string));
}.

Definition no_options : options :=
  Options None None None None None None None.

(** [a || b] on the values the constructor reads: [0], the empty string,
    [false] and an absent key select the default. *)
Definition config_of (o : options) : config :=
  {| maxDepth := match o_maxDepth o with
                 | Some 0%Z | None => None
                 | Some m => Some m
                 end;
     includeExternal := default false (o_includeExternal o);
     maxContentLength := match o_maxContentLength o with
                         | Some 0%N | None => 100000%N
                         | Some n => n
                         end;
     extensions := default default_extensions (o_extensions o);
     excludePatterns := default default_excludePatterns (o_excludePatterns o);
     svelteAliases := default default_svelteAliases (o_svelteAliases o) |}.

Inductive skip_reason : Type :=
  | BinaryFile
  | FileTooLarge (size limit : N)
  | ReadError.

(** A tree node.  The JavaScript objects of the four shapes
    [extractDependencies] builds have different key sets; a key that is
    absent is [None] (or [false] for the two flags). *)
#[warnings="-register-all"]
Inductive node : Type := Node {
  n_path : string;
  n_absolutePath : option string;
  n_originalImport : option string;
  n_exists : option bool;
  n_error : option string;
  n_circular : bool;
  n_external : bool;
  n_depth : nat;
  n_dependencies : list node;
  n_size : option N;
  n_importCount : option nat;
  n_skipReason : option skip_reason;
  n_content : option string;
  n_isText : option bool;
}.

(** [new Set()] with [add]: insertion order, no duplicates. *)
Definition set_add (x : string) (s : list string) : list string :=
  if bool_decide (x ∈ s) then s else s ++ [x].

(** The fields an instance mutates. *)
Record state : Type := State {
  rootDir : string;
  visited : gmap string nat;         (* path to [{ depth }] *)
  circularDeps : list string;
  allFiles : gmap string node;
  unresolved : list string;
}.

Definition new_state (w : world) (o : options) : state :=
  {| rootDir := match o_rootDir o with
                | Some EmptyString | None => cwd w
                | Some r => r
                end;
     visited := ∅; circularDeps := []; allFiles := ∅; unresolved := [] |}.

(** A path or [null] in a condition: [null] and the empty string are falsy. *)
Definition truthy (r : option string) : bool :=
  match r with
  | Some s => negb (String.eqb s "")
  | None => false
  end.

(** ** The resolver *)

Section Resolver.
Variable w : world.
Variable c : config.

Definition existsSync (p : string) : bool :=
  match fs w !! p with
  | Some _ => true
  | None => false
  end.

(** [fs.statSync(p).isFile()] for a path that exists. *)
Definition isFile (p : string) : bool :=
  match fs w !! p with
  | Some (File _ _) => true
  | _ => false
  end.

Definition shouldExclude (filePath : string) : bool :=
  existsb (λ p, pattern_test p filePath) (excludePatterns c).

(** The two [for (const ext of this.extensions)] loops of
    [tryResolveWithExtensions]: the first candidate that exists and is
    not excluded. *)
Fixpoint first_accepted (candidates : list string) : option string :=
  match candidates with
  | [] => None
  | p :: rest =>
      if existsSync p && negb (shouldExclude p) then Some p
      else first_accepted rest
  end.

Definition withExt_candidates (basePath : string) : list string :=
  map (λ ext, (basePath +:+ ext)%string) (extensions c).

Definition index_candidates (basePath : string) : list string :=
  map (λ ext, Path.join [basePath; ("index" +:+ ext)%string]) (extensions c).

Definition tryResolveWithExtensions (basePath : string) : option string :=
  let exact :=
    if existsSync basePath && negb (shouldExclude basePath)
    then (if isFile basePath then Some basePath else None)
    else None in
  match exact with
  | Some p => Some p
  | None =>
      match first_accepted (withExt_candidates basePath) with
      | Some withExt => Some withExt
      | None => first_accepted (index_candidates basePath)
      end
  end.

Definition isSvelteAlias (importPath : string) : bool :=
  existsb (λ '(alias, _), startsWith importPath alias) (svelteAliases c).

(** The loop of [resolveSvelteAlias] over [Object.entries]; the first
    alias the specifier starts with returns. *)
Fixpoint resolveSvelteAlias_from (aliases : list (string * string))
    (root importPath : string) : option string :=
  match aliases with
  | [] => None
  | (alias, target) :: rest =>
      if startsWith importPath alias then
        if startsWith target "@sveltejs/kit" then
          if includeExternal c then require_resolve w target None
          else None
        else
          let remainingPath := substring_from (String.length alias) importPath in
          let resolvedPath :=
            Path.resolve (cwd w) [root; (target +:+ remainingPath)%string] in
          tryResolveWithExtensions resolvedPath
      else resolveSvelteAlias_from rest root importPath
  end.

Definition resolveSvelteAlias (root importPath : string) : option string :=
  resolveSvelteAlias_from (svelteAliases c) root importPath.

Definition projectPrefixes : list string :=
  [ "src/"; "app/"; "lib/"; "libs/"; "packages/"; "modules/"; "components/";
    "services/"; "utils/"; "helpers/"; "shared/"; "core/"; "common/";
    "config/"; "assets/"; "styles/"; "types/"; "interfaces/"; "models/";
    "entities/"; "dtos/"; "guards/"; "middleware/"; "decorators/"; "pipes/";
    "filters/"; "interceptors/"; "controllers/"; "providers/";
    "repositories/"; "schemas/" ]%string.

Definition isProjectAbsoluteImport (importPath : string) : bool :=
  existsb (λ prefix, startsWith importPath prefix) projectPrefixes.

Definition possibleRoots (root : string) : list string :=
  [ root;
    Path.join [root; "app"%string];
    Path.join [root; "src"%string];
    Path.join [root; ".."%string];
    Path.join [root; "../app"%string];
    Path.dirname root ].

Fixpoint resolveProjectAbsoluteImport_from (roots : list string)
    (importPath : string) : option string :=
  match roots with
  | [] => None
  | root :: rest =>
      if negb (existsSync root) then resolveProjectAbsoluteImport_from rest importPath
      else
        let fullPath := Path.resolve (cwd w) [root; importPath] in
        let resolved := tryResolveWithExtensions fullPath in
        if truthy resolved then resolved
        else resolveProjectAbsoluteImport_from rest importPath
  end.

Definition resolveProjectAbsoluteImport (root importPath : string) : option string :=
  resolveProjectAbsoluteImport_from (possibleRoots root) importPath.

Definition resolveRelativeImport (importPath fromFile : string) : option string :=
  let fromDir := Path.dirname fromFile in
  let resolvedPath := Path.resolve (cwd w) [fromDir; importPath] in
  tryResolveWithExtensions resolvedPath.

(** The last strategy: the host's module lookup from the directory of
    the importing file, when external inclusion is on. *)
Definition resolveExternal (importPath fromFile : string) : option string :=
  if negb (includeExternal c) then None
  else require_resolve w importPath (Some (Path.dirname fromFile)).

(** [root] is [this.rootDir] at the time of the call. *)
Definition resolveImportPath (root importPath fromFile : string) : option string :=
  if isSvelteAlias importPath then resolveSvelteAlias root importPath
  else if isProjectAbsoluteImport importPath
  then resolveProjectAbsoluteImport root importPath
  else if startsWith importPath "." || startsWith importPath "/"
  then resolveRelativeImport importPath fromFile
  else resolveExternal importPath fromFile.

End Resolver.

(** ** Reading a file and scanning its imports *)

(** [String.prototype.trim] strips the WhiteSpace and LineTerminator
    code points from both ends: tab, LF, VT, FF, CR, space, U+00A0,
    U+1680, U+2000 to U+200A, U+2028, U+2029, U+202F, U+205F, U+3000 and
    U+FEFF.  A text is held as its UTF-8 bytes, so each of them is the
    byte sequence that encodes it. *)
Definition utf8 (bytes : list nat) : string :=
  string_of_list_ascii (map ascii_of_nat bytes).

Definition whiteSpace : list string :=
  [ utf8 [9]; utf8 [10]; utf8 [11]; utf8 [12]; utf8 [13]; utf8 [32];
    utf8 [194; 160]; utf8 [225; 154; 128] ]
  ++ map (λ b, utf8 [226; 128; b]) (seq 128 11)
  ++ [ utf8 [226; 128; 168]; utf8 [226; 128; 169]; utf8 [226; 128; 175];
       utf8 [226; 129; 159]; utf8 [227; 128; 128]; utf8 [239; 187; 191] ].

(** One character of [spaces] taken from the head, if there is one. *)
Definition strip_one (spaces : list string) (s : string) : option string :=
  match List.find (startsWith s) spaces with
  | Some space => Some (substring_from (String.length space) s)
  | None => None
  end.

(** Every round takes at least one byte, so the length of the string
    bounds the rounds (see [strip_all_done]). *)
Fixpoint strip_all (spaces : list string) (rounds : nat) (s : string) : string :=
  match rounds with
  | O => s
  | S rounds' =>
      match strip_one spaces s with
      | Some r => strip_all spaces rounds' r
      | None => s
      end
  end.

Definition trim_start (s : string) : string :=
  strip_all whiteSpace (String.length s) s.

Definition trim_end (s : string) : string :=
  String.rev (strip_all (map String.rev whiteSpace) (String.length s) (String.rev s)).

Definition trim (s : string) : string := trim_end (trim_start s).

(** [content.split("\n")]. *)
Fixpoint split_lines (s : string) : list string :=
  match s with
  | EmptyString => [EmptyString]
  | String a r =>
      if Ascii.eqb a "010" then EmptyString :: split_lines r
      else match split_lines r with
           | [] => [String a EmptyString]
           | h :: t => String a h :: t
           end
  end.

Definition binaryExtensions : list string :=
  [ ".png"; ".jpg"; ".jpeg"; ".gif"; ".bmp"; ".ico"; ".svg"; ".pdf"; ".zip";
    ".tar"; ".gz"; ".rar"; ".7z"; ".exe"; ".dll"; ".so"; ".dylib"; ".woff";
    ".woff2"; ".ttf"; ".eot"; ".mp3"; ".mp4"; ".avi"; ".mov"; ".webm";
    ".node"; ".bin"; ".lock" ]%string.

Definition isBinaryFile (filePath : string) : bool :=
  let ext := toLowerCase (Path.extname filePath) in
  bool_decide (ext ∈ binaryExtensions).

Record file_info : Type := FileInfo {
  fi_size : N;
  fi_content : string;
  fi_isText : bool;
  fi_skipReason : option skip_reason;
}.

Section Builder.
Variable w : world.
Variable c : config.

Definition getFileInfo (filePath : string) : file_info :=
  match fs w !! filePath with
  | None => FileInfo 0 "" false None        (* [statSync] throws *)
  | Some e =>
      let size := match e with File s _ => s | Dir s => s end in
      if isBinaryFile filePath then FileInfo size "" false (Some BinaryFile)
      else if (maxContentLength c * 4 <? size)%N
      then FileInfo size "" false
             (Some (FileTooLarge size (maxContentLength c * 4)))
      else
        match e with
        | File _ (Some text) => FileInfo size text true None
        | _ => FileInfo size "" false (Some ReadError)
        end
  end.

Definition is_comment_line (line : string) : bool :=
  String.eqb line "" || startsWith line "//" || startsWith line "/*"
  || startsWith line "*".

Definition extractScriptFromSvelte (content : string) : string :=
  let scriptContent := scriptRegions w content in
  if String.eqb scriptContent "" then content else scriptContent.

Definition parseImports (content fileName : string) : list string :=
  if String.eqb content "" then []
  else
    let content :=
      if endsWith fileName ".svelte" then extractScriptFromSvelte content
      else content in
    let lines := map trim (split_lines content) in
    let kept := filter (λ line, is_comment_line line = false) lines in
    fold_left (λ imports line,
                 fold_left (λ s imp, set_add imp s)
                           (extractImportsFromLine w line) imports)
              kept [].

(** *** The four node shapes of [extractDependencies] *)

Definition with_originalImport (imp : string) (n : node) : node :=
  {| n_path := n_path n; n_absolutePath := n_absolutePath n;
     n_originalImport := Some imp;
     n_exists := n_exists n; n_error := n_error n;
     n_circular := n_circular n; n_external := n_external n;
     n_depth := n_depth n; n_dependencies := n_dependencies n;
     n_size := n_size n; n_importCount := n_importCount n;
     n_skipReason := n_skipReason n; n_content := n_content n;
     n_isText := n_isText n |}.

Definition circular_node (p abs : string) (d : nat) : node :=
  {| n_path := p; n_absolutePath := Some abs; n_originalImport := None;
     n_exists := None; n_error := None; n_circular := true;
     n_external := false; n_depth := d; n_dependencies := [];
     n_size := None; n_importCount := None; n_skipReason := None;
     n_content := None; n_isText := None |}.

Definition missing_node (p abs : string) (d : nat) : node :=
  {| n_path := p; n_absolutePath := Some abs; n_originalImport := None;
     n_exists := Some false; n_error := Some "File not found"%string;
     n_circular := false; n_external := false; n_depth := d;
     n_dependencies := [];
     n_size := None; n_importCount := None; n_skipReason := None;
     n_content := None; n_isText := None |}.

Definition external_node (imp : string) (d : nat) : node :=
  {| n_path := imp; n_absolutePath := None; n_originalImport := Some imp;
     n_exists := None; n_error := None; n_circular := false;
     n_external := true; n_depth := d; n_dependencies := [];
     n_size := None; n_importCount := None; n_skipReason := None;
     n_content := None; n_isText := None |}.

Definition file_node (p abs : string) (d : nat) (deps : list node)
    (info : file_info) (count : nat) : node :=
  {| n_path := p; n_absolutePath := Some abs; n_originalImport := None;
     n_exists := Some true; n_error := None; n_circular := false;
     n_external := false; n_depth := d; n_dependencies := deps;
     n_size := Some (fi_size info); n_importCount := Some count;
     n_skipReason := fi_skipReason info;
     n_content := Some (fi_content info);
     n_isText := Some (fi_isText info) |}.

(** *** State updates *)

Definition mark_visited (p : string) (d : nat) (st : state) : state :=
  {| rootDir := rootDir st; visited := <[p := d]> (visited st);
     circularDeps := circularDeps st; allFiles := allFiles st;
     unresolved := unresolved st |}.

Definition add_circularDep (ref : string) (st : state) : state :=
  {| rootDir := rootDir st; visited := visited st;
     circularDeps := set_add ref (circularDeps st);
     allFiles := allFiles st; unresolved := unresolved st |}.

Definition add_unresolved (imp : string) (st : state) : state :=
  {| rootDir := rootDir st; visited := visited st;
     circularDeps := circularDeps st; allFiles := allFiles st;
     unresolved := set_add imp (unresolved st) |}.

Definition register_file (p : string) (n : node) (st : state) : state :=
  {| rootDir := rootDir st; visited := visited st;
     circularDeps := circularDeps st; allFiles := <[p := n]> (allFiles st);
     unresolved := unresolved st |}.

Definition set_rootDir (r : string) (st : state) : state :=
  {| rootDir := r; visited := visited st;
     circularDeps := circularDeps st; allFiles := allFiles st;
     unresolved := unresolved st |}.

(** [currentDepth > this.maxDepth]. *)
Definition exceeds (currentDepth : nat) : bool :=
  match maxDepth c with
  | Some m => (m <? Z.of_nat currentDepth)%Z
  | None => false
  end.

(** [existing && existing.depth <= currentDepth]. *)
Definition visited_at_or_above (st : state) (p : string) (currentDepth : nat) : bool :=
  match visited st !! p with
  | Some d => (d <=? currentDepth)%nat
  | None => false
  end.

(** *** The traversal

    A call returns the new state and the node or [null]; the outer
    [None] only means that [fuel], which bounds the nesting of calls,
    ran out.  [rec] is the recursive call at depth + 1. *)

Section Loop.
Variable rec : state → string → nat → option (state * option node).
Variables (relativePath resolvedPath : string) (currentDepth : nat).

(** The body of [for (const importPath of imports)]: the new state
    and the node pushed on [dependencies], if any. *)
Definition processImport (st : state) (importPath : string)
  : option (state * option node) :=
  let resolvedImport := resolveImportPath w c (rootDir st) importPath resolvedPath in
  match resolvedImport with
  | Some target =>
      if truthy resolvedImport then
        if bool_decide (is_Some (visited st !! target)) then
          let rel := Path.relative (cwd w) (rootDir st) target in
          let circularRef := (relativePath +:+ " -> " +:+ rel)%string in
          Some (add_circularDep circularRef st,
                Some (with_originalImport importPath
                        (circular_node rel target (S currentDepth))))
        else
          match rec st target (S currentDepth) with
          | None => None
          | Some (st', Some childTree) =>
              Some (st', Some (with_originalImport importPath childTree))
          | Some (st', None) => Some (st', None)
          end
      else if includeExternal c
      then Some (st, Some (external_node importPath (S currentDepth)))
      else Some (add_unresolved importPath st, None)
  | None =>
      if includeExternal c
      then Some (st, Some (external_node importPath (S currentDepth)))
      else Some (add_unresolved importPath st, None)
  end.

Fixpoint processImports (st : state) (imports : list string)
    (dependencies : list node) : option (state * list node) :=
  match imports with
  | [] => Some (st, dependencies)
  | importPath :: rest =>
      match processImport st importPath with
      | None => None
      | Some (st', Some n) => processImports st' rest (dependencies ++ [n])
      | Some (st', None) => processImports st' rest dependencies
      end
  end.
End Loop.

Fixpoint extractDependencies (fuel : nat) (st : state) (filePath : string)
    (currentDepth : nat) : option (state * option node) :=
  match fuel with
  | O => None
  | S fuel' =>
      let resolvedPath := Path.resolve (cwd w) [filePath] in
      let relativePath := Path.relative (cwd w) (rootDir st) resolvedPath in
      if exceeds currentDepth then Some (st, None)
      else if visited_at_or_above st resolvedPath currentDepth
      then Some (st, Some (circular_node relativePath resolvedPath currentDepth))
      else if negb (existsSync w resolvedPath)
      then Some (st, Some (missing_node relativePath resolvedPath currentDepth))
      else
        let st1 := mark_visited resolvedPath currentDepth st in
        let fileInfo := getFileInfo resolvedPath in
        let imports := parseImports (fi_content fileInfo) relativePath in
        match processImports (extractDependencies fuel') relativePath
                resolvedPath currentDepth st1 imports [] with
        | None => None
        | Some (st2, dependencies) =>
            let result := file_node relativePath resolvedPath currentDepth
                            dependencies fileInfo (List.length imports) in
            Some (register_file resolvedPath result st2, Some result)
        end
  end.

(** *** [analyze] *)

Definition indicators : list string :=
  [ "package.json"; "svelte.config.js"; "vite.config.js"; "tsconfig.json";
    "angular.json"; "next.config.js"; "webpack.config.js"; ".git";
    "yarn.lock"; "package-lock.json" ]%string.

(** The [while (currentDir !== path.dirname(currentDir))] loop; every
    round shortens [currentDir], whose length bounds the rounds. *)
Fixpoint walk_up (rounds : nat) (currentDir : string) : option string :=
  match rounds with
  | O => None
  | S rounds' =>
      if String.eqb currentDir (Path.dirname currentDir) then None
      else if existsb (λ indicator, existsSync w (Path.join [currentDir; indicator]))
                      indicators
      then Some currentDir
      else walk_up rounds' (Path.dirname currentDir)
  end.

Fixpoint findIndex (f : string → bool) (l : list string) : option nat :=
  match l with
  | [] => None
  | x :: r => if f x then Some O else S <$> findIndex f r
  end.

Definition autoDetectProjectRoot (st : state) (filePath : string) : state :=
  let resolvedFilePath := Path.resolve (cwd w) [filePath] in
  let fileDir := Path.dirname resolvedFilePath in
  match walk_up (S (String.length fileDir)) fileDir with
  | Some dir => set_rootDir dir st
  | None =>
      let pathParts := Path.split resolvedFilePath in
      match findIndex (String.eqb "src") pathParts with
      | Some (S i) => set_rootDir (Path.unsplit (take (S i) pathParts)) st
      | _ =>
          match findIndex (String.eqb "app") pathParts with
          | Some (S i) => set_rootDir (Path.unsplit (take (S (S i)) pathParts)) st
          | _ =>
              match findIndex (String.eqb "routes") pathParts with
              | Some (S (S i)) => set_rootDir (Path.unsplit (take (S i) pathParts)) st
              | _ => st
              end
          end
      end
  end.

(** [analyze] returns the tree or throws. *)
Inductive outcome : Type :=
  | Returned (tree : node)
  | Thrown (message : string).

(** [if (!this.rootDir || this.rootDir === process.cwd())]. *)
Definition ensure_root (st : state) (filePath : string) : state :=
  if String.eqb (rootDir st) "" || String.eqb (rootDir st) (cwd w)
  then autoDetectProjectRoot st filePath
  else st.

Definition analyze_with (fuel : nat) (st : state) (filePath : string)
  : option (state * outcome) :=
  match extractDependencies fuel (ensure_root st filePath) filePath 0 with
  | None => None
  | Some (st', Some tree) => Some (st', Returned tree)
  | Some (st', None) => Some (st', Thrown "Could not analyze the file")
  end.

(** Nested calls expand pairwise different existing paths, so one more
    than the number of filesystem entries is enough fuel
    (see [extractDependencies_total]). *)
Definition analyze (st : state) (filePath : string) : option (state * outcome) :=
  analyze_with (S (size (fs w))) st filePath.

End Builder.

(** ** Vocabulary of the specification

    Definitions that follow the wording of the specification, to be
    compared with the code above. *)

(** The four resolution strategies, in the order the specification
    lists them. *)
Inductive strategy : Type :=
  | AliasMatch
  | ProjectAbsolute
  | RelativeOrRooted
  | External.

Definition strategy_order : list strategy :=
  [AliasMatch; ProjectAbsolute; RelativeOrRooted; External].

(** The applicability test of a strategy; the last one takes whatever
    is left. *)
Definition applicable (c : config) (s : strategy) (importPath : string) : bool :=
  match s with
  | AliasMatch => isSvelteAlias c importPath
  | ProjectAbsolute => isProjectAbsoluteImport importPath
  | RelativeOrRooted => startsWith importPath "." || startsWith importPath "/"
  | External => true
  end.

Definition run_strategy (w : world) (c : config) (root : string) (s : strategy)
    (importPath fromFile : string) : option string :=
  match s with
  | AliasMatch => resolveSvelteAlias w c root importPath
  | ProjectAbsolute => resolveProjectAbsoluteImport w c root importPath
  | RelativeOrRooted => resolveRelativeImport w c importPath fromFile
  | External => resolveExternal w c importPath fromFile
  end.

(** "The first strategy that applies wins". *)
Definition resolve_by_order (w : world) (c : config) (root importPath fromFile : string)
  : option string :=
  match List.find (λ s, applicable c s importPath) strategy_order with
  | Some s => run_strategy w c root s importPath fromFile
  | None => None
  end.

(** The candidates of extension/index resolution in the order they are
    tried; the flag marks the exact path, which must be a regular file. *)
Definition resolution_order (c : config) (basePath : string) : list (string * bool) :=
  (basePath, true)
  :: map (λ p, (p, false)) (withExt_candidates c basePath ++ index_candidates c basePath).

Definition candidates (c : config) (basePath : string) : list string :=
  map fst (resolution_order c basePath).

Definition accepted (w : world) (c : config) (cand : string * bool) : bool :=
  existsSync w cand.1 && negb (shouldExclude c cand.1)
  && (negb cand.2 || isFile w cand.1).

(** The filesystem without the paths the exclusion filter matches. *)
Definition hide_excluded (w : world) (c : config) : world :=
  {| cwd := cwd w;
     fs := filter (λ kv, shouldExclude c kv.1 = false) (fs w);
     require_resolve := require_resolve w;
     scriptRegions := scriptRegions w;
     extractImportsFromLine := extractImportsFromLine w |}.

Definition with_require_resolve (w : world)
    (loader : string → option string → option string) : world :=
  {| cwd := cwd w; fs := fs w; require_resolve := loader;
     scriptRegions := scriptRegions w;
     extractImportsFromLine := extractImportsFromLine w |}.

Definition with_includeExternal (c : config) (flag : bool) : config :=
  {| maxDepth := maxDepth c; includeExternal := flag;
     maxContentLength := maxContentLength c; extensions := extensions c;
     excludePatterns := excludePatterns c; svelteAliases := svelteAliases c |}.

(** The first alias, in table order, the specifier starts with. *)
Definition first_alias (c : config) (importPath : string) : option (string * string) :=
  List.find (λ '(alias, _), startsWith importPath alias) (svelteAliases c).

(** All nodes of a tree, the root first. *)
Fixpoint subtrees (n : node) : list node :=
  match n with
  | Node _ _ _ _ _ _ _ _ deps _ _ _ _ _ => n :: flat_map subtrees deps
  end.

(** How the visited table may change during a call at depth [e]: an
    entry is never removed or raised, and an entry at depth [e] or less
    is not touched. *)
Definition evolves (e : nat) (m m' : gmap string nat) : Prop :=
  ∀ k v, m !! k = Some v → ∃ v', m' !! k = Some v' ∧ v' ≤ v ∧ (v ≤ e → v' = v).

(** The existing paths a call at depth [d] would still expand. *)
Definition unblocked (w : world) (st : state) (d : nat) : gset string :=
  filter (λ k, visited_at_or_above st k d = false) (dom (fs w)).

(** The state relation every call at depth [e] satisfies. *)
Definition state_evolves (e : nat) (st st' : state) : Prop :=
  evolves e (visited st) (visited st') ∧ rootDir st' = rootDir st.

Section Round.
Context (w : world) (c : config).
Context (rec : state → string → nat → option (state * option node)).
Context (relativePath resolvedPath : string) (currentDepth : nat).

(** What one round of the loop can do. *)
Inductive round (st : state) (importPath : string) : state → option node → Prop :=
  | round_external :
      truthy (resolveImportPath w c (rootDir st) importPath resolvedPath) = false →
      includeExternal c = true →
      round st importPath st (Some (external_node importPath (S currentDepth)))
  | round_unresolved :
      truthy (resolveImportPath w c (rootDir st) importPath resolvedPath) = false →
      includeExternal c = false →
      round st importPath (add_unresolved importPath st) None
  | round_circular target :
      resolveImportPath w c (rootDir st) importPath resolvedPath = Some target →
      target ≠ ""%string →
      is_Some (visited st !! target) →
      round st importPath
        (add_circularDep
           (relativePath +:+ " -> "
            +:+ Path.relative (cwd w) (rootDir st) target)%string st)
        (Some (with_originalImport importPath
                 (circular_node (Path.relative (cwd w) (rootDir st) target)
                    target (S currentDepth))))
  | round_recurse target st' r :
      resolveImportPath w c (rootDir st) importPath resolvedPath = Some target →
      target ≠ ""%string →
      visited st !! target = None →
      rec st target (S currentDepth) = Some (st', r) →
      round st importPath st' (with_originalImport importPath <$> r).

End Round.

(** Every circular node of the tree is a leaf. *)
Definition circular_leaves (n : node) : Prop :=
  Forall (λ m, n_circular m = true → n_dependencies m = []) (subtrees n).

(** ** Sample projects

    Small filesystems used to run the model.  A source file is a list of
    side-effect imports, one [import '...'] per line, which is what
    [extractImportsFromLine] returns for such a line. *)

Module Sample.

Fixpoint until_quote (s : string) : string :=
  match s with
  | EmptyString => EmptyString
  | String a r => if Ascii.eqb a "'" then EmptyString else String a (until_quote r)
  end.

Definition scan_line (line : string) : list string :=
  if startsWith line "import '" then [until_quote (substring_from 8 line)] else [].

Definition newline : string := String "010" EmptyString.

Definition source (specifiers : list string) : string :=
  String.concat newline (map (λ s, ("import '" +:+ s +:+ "'")%string) specifiers).

Definition module_file (specifiers : list string) : fs_entry :=
  File 64 (Some (source specifiers)).

Definition no_loader : string → option string → option string := λ _ _, None.

Definition project (files : list (string * fs_entry)) : world :=
  {| cwd := "/proj"; fs := list_to_map files; require_resolve := no_loader;
     scriptRegions := λ _, ""%string; extractImportsFromLine := scan_line |}.

Definition defaults : config := config_of no_options.

Definition fresh (w : world) : state := new_state w no_options.

(** [r] imports [a] and [c]; [a] imports [b]; [b] imports [c]. *)
Definition diamond : world :=
  project [ ("/proj/package.json", File 2 (Some "{}"));
            ("/proj/src/r.ts", module_file ["./a"; "./c"]);
            ("/proj/src/a.ts", module_file ["./b"]);
            ("/proj/src/b.ts", module_file ["./c"]);
            ("/proj/src/c.ts", module_file []) ]%string.

(** [r0] imports [a]; [a] imports [b]. *)
Definition chain : world :=
  project [ ("/proj/package.json", File 2 (Some "{}"));
            ("/proj/src/r0.ts", module_file ["./a"]);
            ("/proj/src/a.ts", module_file ["./b"]);
            ("/proj/src/b.ts", module_file []) ]%string.

(** A library module reached through an alias-like specifier. *)
Definition lib_project : world :=
  project [ ("/proj/package.json", File 2 (Some "{}"));
            ("/proj/src/lib/x.ts", module_file []);
            ("/proj/src/libfoo.ts", module_file []);
            ("/proj/src/main.ts", module_file ["$lib/x"; "$libfoo"; "left-pad"]) ]%string.

(** [main] imports a specifier that begins with the [$lib] key and a
    bare module; neither leads to a file. *)
Definition alias_miss : world :=
  project [ ("/proj/package.json", File 2 (Some "{}"));
            ("/proj/src/main.ts", module_file ["$libfoo"; "left-pad"]) ]%string.

(** The same layout with [x] as a directory holding an index file. *)
Definition lib_index_project : world :=
  project [ ("/proj/package.json", File 2 (Some "{}"));
            ("/proj/src/lib/x", Dir 0);
            ("/proj/src/lib/x/index.ts", module_file []);
            ("/proj/src/main.ts", module_file ["$lib/x"]) ]%string.

(** The alias table of the specification's example. *)
Definition lib_only : config :=
  config_of {| o_maxDepth := None; o_rootDir := None; o_includeExternal := None;
               o_maxContentLength := None; o_extensions := None;
               o_excludePatterns := None;
               o_svelteAliases := Some [("$lib", "src/lib")]%string |}.

Definition max_depth_one : config :=
  config_of {| o_maxDepth := Some 1%Z; o_rootDir := None;
               o_includeExternal := None; o_maxContentLength := None;
               o_extensions := None; o_excludePatterns := None;
               o_svelteAliases := None |}.

(** [main] imports a package the host finds and one it does not; the
    package entry point has an import of its own. *)
Definition left_pad : string → option string → option string :=
  λ request _,
    if String.eqb request "left-pad"
    then Some "/proj/node_modules/left-pad/index.js"%string
    else None.

Definition with_packages : world :=
  {| cwd := "/proj";
     fs := list_to_map
             [ ("/proj/package.json", File 2 (Some "{}"));
               ("/proj/src/main.ts", module_file ["left-pad"; "ghost"]);
               ("/proj/node_modules/left-pad/index.js", module_file ["./impl"]);
               ("/proj/node_modules/left-pad/impl.js", module_file []) ]%string;
     require_resolve := left_pad;
     scriptRegions := λ _, ""%string;
     extractImportsFromLine := scan_line |}.

Definition include_external : config := with_includeExternal defaults true.

(** A module that only exists under an excluded directory, and a test
    file next to the sources. *)
Definition vendored : world :=
  project [ ("/proj/node_modules/pkg/main.ts", module_file []);
            ("/proj/src/main.ts", module_file ["./util.spec"]);
            ("/proj/src/util.spec.ts", module_file []) ]%string.

(** An image whose bytes happen to read like an import, next to a
    module that imports it. *)
Definition with_asset : world :=
  project [ ("/proj/package.json", File 2 (Some "{}"));
            ("/proj/src/page.ts", module_file ["./logo.png"]);
            ("/proj/src/logo.png", module_file ["./page"]) ]%string.

(** A file whose text has a character of two bytes. *)
Definition accented : world :=
  project [ ("/proj/package.json", File 2 (Some "{}"));
            ("/proj/src/menu.ts", File 16 (Some "// café au lait")) ]%string.

(** [a] and [b] import each other. *)
Definition cycle : world :=
  project [ ("/proj/package.json", File 2 (Some "{}"));
            ("/proj/src/a.ts", module_file ["./b"]);
            ("/proj/src/b.ts", module_file ["./a"]) ]%string.

Definition found_everywhere : string → option string → option string :=
  λ request _, Some ("/proj/node_modules/" +:+ request +:+ "/index.js")%string.

End Sample.

(** ** Consumers of the tree

    The helper methods of [DependencyExtractor] behind the renderers
    ([collectAllFiles], [collectFilesWithContent], [getStats],
    [getDisplayContent]) and the traversals of the two agents that call
    [analyze] ([extractFilePathsFromTree] and [extractFilesFromTree] of
    [ai-coding-agent.ts], [extractFilesFromTree] of
    [ai-prompt-system.ts]).  A [Set] that is only tested for membership
    is a [gset]; its elements are [absolutePath] values, [None] being
    the [null] of an external leaf. *)

Module Consumers.

Fixpoint collectFilesRecursive (includeExternal : bool) (n : node)
    (acc : list string * gset (option string)) {struct n}
  : list string * gset (option string) :=
  match n with
  | Node path absolutePath _ _ _ _ external _ dependencies _ _ _ _ _ =>
      if bool_decide (absolutePath ∈ acc.2) then acc
      else
        let files :=
          if includeExternal || negb external then set_add path acc.1 else acc.1 in
        fold_left (λ a dep, collectFilesRecursive includeExternal dep a)
          dependencies (files, {[absolutePath]} ∪ acc.2)
  end.

Definition collectAllFiles (tree : node) (includeExternal : bool) : list string :=
  (collectFilesRecursive includeExternal tree ([], ∅)).1.

(** An entry of [collectFilesWithContent]. *)
Record content_file : Type := ContentFile {
  cf_path : string;
  cf_absolutePath : option string;
  cf_depth : nat;
  cf_size : N;
  cf_content : string;
  cf_external : bool;
  cf_isText : option bool;
  cf_skipReason : option skip_reason;
}.

(** [node.exists && !node.error]. *)
Definition exists_without_error (n : node) : bool :=
  match n_exists n with
  | Some true => negb (truthy (n_error n))
  | _ => false
  end.

Definition content_entry (n : node) : content_file :=
  {| cf_path := n_path n; cf_absolutePath := n_absolutePath n;
     cf_depth := n_depth n; cf_size := default 0%N (n_size n);
     cf_content := default ""%string (n_content n);
     cf_external := n_external n; cf_isText := n_isText n;
     cf_skipReason := n_skipReason n |}.

Fixpoint collectContentRecursive (includeExternal : bool) (n : node)
    (acc : list content_file * gset (option string)) {struct n}
  : list content_file * gset (option string) :=
  match n with
  | Node _ absolutePath _ _ _ _ external _ dependencies _ _ _ _ _ =>
      if bool_decide (absolutePath ∈ acc.2) then acc
      else
        let files :=
          if exists_without_error n && (includeExternal || negb external)
          then acc.1 ++ [content_entry n] else acc.1 in
        fold_left (λ a dep, collectContentRecursive includeExternal dep a)
          dependencies (files, {[absolutePath]} ∪ acc.2)
  end.

Definition collectFilesWithContent (tree : node) (includeExternal : bool)
  : list content_file :=
  (collectContentRecursive includeExternal tree ([], ∅)).1.

(** What [getDisplayContent] reports in its [error] key. *)
Inductive display_error : Type :=
  | Skipped (reason : skip_reason)
  | NoContentAvailable.

(** The [text] key is a string that [substring] may have cut between
    the two halves of a surrogate pair, so it is kept as its UTF-16
    code units. *)
Record display : Type := Display {
  d_error : option display_error;
  d_text : list N;
  d_truncated : bool;
}.

(** The UTF-16 code units of a text held as UTF-8 bytes: one unit for
    a character of one, two or three bytes, a surrogate pair for a
    character of four.  This is the sequence [length] counts and
    [substring] indexes.  A byte that cannot start a character, or a
    character cut short by the end of the text, does not occur in what
    [readFileSync(..., "utf-8")] returns; it reads as U+FFFD. *)
Fixpoint utf16 (s : string) : list N :=
  match s with
  | EmptyString => []
  | String a1 r1 =>
      let b1 := N_of_ascii a1 in
      if (b1 <? 128)%N then b1 :: utf16 r1
      else if (b1 <? 192)%N then 65533%N :: utf16 r1
      else if (b1 <? 224)%N then
        match r1 with
        | String a2 r2 =>
            N.lor (N.shiftl (N.land b1 31) 6) (N.land (N_of_ascii a2) 63)
            :: utf16 r2
        | EmptyString => [65533%N]
        end
      else if (b1 <? 240)%N then
        match r1 with
        | String a2 (String a3 r3) =>
            N.lor (N.shiftl (N.land b1 15) 12)
              (N.lor (N.shiftl (N.land (N_of_ascii a2) 63) 6)
                     (N.land (N_of_ascii a3) 63))
            :: utf16 r3
        | _ => [65533%N]
        end
      else
        match r1 with
        | String a2 (String a3 (String a4 r4)) =>
            let codePoint :=
              N.lor (N.shiftl (N.land b1 7) 18)
                (N.lor (N.shiftl (N.land (N_of_ascii a2) 63) 12)
                   (N.lor (N.shiftl (N.land (N_of_ascii a3) 63) 6)
                          (N.land (N_of_ascii a4) 63))) in
            (55296 + N.shiftr (codePoint - 65536) 10)%N
            :: (56320 + N.land (codePoint - 65536) 1023)%N
            :: utf16 r4
        | _ => [65533%N]
        end
  end.

Definition getDisplayContent (file : content_file) (maxLength : nat) : display :=
  match cf_skipReason file with
  | Some reason => Display (Some (Skipped reason)) [] false
  | None =>
      if String.eqb (cf_content file) ""
      then Display (Some NoContentAvailable) [] false
      else if (maxLength <? List.length (utf16 (cf_content file)))%nat
      then Display None (take maxLength (utf16 (cf_content file))) true
      else Display None (utf16 (cf_content file)) false
  end.

Record stats : Type := Stats {
  totalFiles : nat;
  totalSize : N;
  maxDepthSeen : nat;
  externalDeps : nat;
  fileTypes : list (string * nat);      (* [Object.entries] order *)
}.

(** [stats.fileTypes[ext] = (stats.fileTypes[ext] || 0) + 1]. *)
Fixpoint bump (ext : string) (types : list (string * nat)) : list (string * nat) :=
  match types with
  | [] => [(ext, 1)]
  | (e, k) :: rest =>
      if String.eqb e ext then (e, S k) :: rest else (e, k) :: bump ext rest
  end.

Fixpoint calculateStatsRecursive (n : node) (acc : stats * gset (option string))
    (depth : nat) {struct n} : stats * gset (option string) :=
  match n with
  | Node path absolutePath _ _ _ _ external _ dependencies size _ _ _ _ =>
      if bool_decide (absolutePath ∈ acc.2) then acc
      else
        let s := acc.1 in
        let s' :=
          {| totalFiles := S (totalFiles s);
             totalSize := (totalSize s + default 0 size)%N;
             maxDepthSeen := Nat.max (maxDepthSeen s) depth;
             externalDeps := if external then S (externalDeps s) else externalDeps s;
             fileTypes := if String.eqb path "" then fileTypes s
                          else bump (Path.extname path) (fileTypes s) |} in
        fold_left (λ a dep, calculateStatsRecursive dep a (S depth))
          dependencies (s', {[absolutePath]} ∪ acc.2)
  end.

Definition getStats (tree : node) : stats :=
  (calculateStatsRecursive tree (Stats 0 0 0 0 [], ∅) 0).1.

(** [ai-coding-agent.ts]: [traverse] of [extractFilePathsFromTree]. *)
Fixpoint extractFilePathsFromTree (n : node) : list (option string) :=
  match n with
  | Node path absolutePath _ exists_ _ _ _ _ dependencies _ _ _ _ _ =>
      (if negb (String.eqb path "") && bool_decide (exists_ = Some true)
       then [absolutePath] else [])
      ++ flat_map extractFilePathsFromTree dependencies
  end.

(** [ai-coding-agent.ts]: [traverse] of [extractFilesFromTree]; an
    entry is the pair of [path] and [content]. *)
Fixpoint extractFilesFromTree (n : node) : list (string * string) :=
  match n with
  | Node path _ _ exists_ _ _ _ _ dependencies _ _ _ content _ =>
      (if negb (String.eqb path "") && truthy content
          && bool_decide (exists_ = Some true)
       then [(path, default ""%string content)] else [])
      ++ flat_map extractFilesFromTree dependencies
  end.

(** [ai-prompt-system.ts]: [traverse] of [extractFilesFromTree], which
    stops descending at depth 3; an entry is [path], [content] and
    the depth of the position. *)
Fixpoint extractFilesToDepth (n : node) (depth : nat) {struct n}
  : list (string * string * nat) :=
  match n with
  | Node path _ _ exists_ _ _ external _ dependencies _ _ _ content _ =>
      (if negb (String.eqb path "") && truthy content
          && bool_decide (exists_ = Some true) && negb external
       then [(path, default ""%string content, depth)] else [])
      ++ (if (depth <? 3)%nat
          then flat_map (λ dep, extractFilesToDepth dep (S depth)) dependencies
          else [])
  end.

End Consumers.

(** ** Vocabulary for the properties of the builder's trees *)

(** The absolute paths of the expanded nodes (those with
    [exists = true]) of a tree, in preorder. *)
Fixpoint expanded (n : node) : list string :=
  match n with
  | Node _ absolutePath _ exists_ _ _ _ _ dependencies _ _ _ _ _ =>
      match exists_, absolutePath with
      | Some true, Some p => [p]
      | _, _ => []
      end ++ flat_map expanded dependencies
  end.

Definition expanded_of (r : option node) : list string :=
  match r with
  | Some n => expanded n
  | None => []
  end.

Definition pushed (r : option node) : list node :=
  match r with
  | Some n => [n]
  | None => []
  end.

(** What holds of every node [extractDependencies] builds, in a world
    [w] under a configuration [c]. *)
Record built (w : world) (c : config) (m : node) : Prop := Built {
  built_external :
    n_external m = true →
    n_absolutePath m = None ∧ n_exists m = None ∧ n_circular m = false;
  built_path : n_external m = false → is_Some (n_absolutePath m);
  built_leaf : n_exists m ≠ Some true → n_dependencies m = [];
  built_marker : n_exists m = None → n_circular m = true ∨ n_external m = true;
  built_missing :
    n_exists m = Some false →
    ∃ p, n_absolutePath m = Some p ∧ existsSync w p = false
         ∧ n_error m = Some "File not found"%string ∧ n_content m = None
         ∧ exceeds c (n_depth m) = false;
  built_file :
    n_exists m = Some true →
    ∃ p, n_absolutePath m = Some p ∧ existsSync w p = true
         ∧ n_error m = None ∧ n_circular m = false ∧ n_external m = false
         ∧ n_content m = Some (fi_content (getFileInfo w c p))
         ∧ n_size m = Some (fi_size (getFileInfo w c p))
         ∧ n_skipReason m = fi_skipReason (getFileInfo w c p)
         ∧ n_isText m = Some (fi_isText (getFileInfo w c p))
         ∧ exceeds c (n_depth m) = false;
  built_children : Forall (λ k, n_depth k = S (n_depth m)) (n_dependencies m);
}.

Definition well_built (w : world) (c : config) (t : node) : Prop :=
  Forall (built w c) (subtrees t).

(** The hypothesis of the uniqueness results: whatever the resolver
    returns is a path [path.resolve] leaves alone. *)
Definition resolves_to_resolved (w : world) (c : config) : Prop :=
  ∀ root importPath fromFile p,
    resolveImportPath w c root importPath fromFile = Some p →
    Path.resolve (cwd w) [p] = p.

(** [n] applications of [path.dirname]. *)
Fixpoint ancestor (n : nat) (dir : string) : string :=
  match n with
  | O => dir
  | S n' => ancestor n' (Path.dirname dir)
  end.

Definition has_indicator (w : world) (dir : string) : bool :=
  existsb (λ indicator, existsSync w (Path.join [dir; indicator])) indicators.

(** The text [parseImports] scans: the script regions of a [.svelte]
    file, the content itself otherwise. *)
Definition scanned_text (w : world) (content fileName : string) : string :=
  if endsWith fileName ".svelte" then extractScriptFromSvelte w content else content.

(** What a call adds to the instance: exactly the files it expands,
    each once, none of them visited before. *)
Definition adds_expanded (st st' : state) (paths : list string) : Prop :=
  NoDup paths
  ∧ (∀ p, p ∈ paths → visited st !! p = None)
  ∧ dom (visited st') = dom (visited st) ∪ list_to_set paths
  ∧ dom (allFiles st') = dom (allFiles st) ∪ list_to_set paths.

(** The traversal the consumers share: the nodes a consumer visits, in
    order and with the depth of their position, and the [visited] set
    it ends with.  A node whose absolute path was seen before is
    skipped together with its subtree. *)
Fixpoint walk (n : node) (depth : nat)
    (acc : list (node * nat) * gset (option string)) {struct n}
  : list (node * nat) * gset (option string) :=
  match n with
  | Node _ absolutePath _ _ _ _ _ _ dependencies _ _ _ _ _ =>
      if bool_decide (absolutePath ∈ acc.2) then acc
      else fold_left (λ a dep, walk dep (S depth) a) dependencies
             (acc.1 ++ [(n, depth)], {[absolutePath]} ∪ acc.2)
  end.

Definition walks (deps : list node) (depth : nat)
    (acc : list (node * nat) * gset (option string))
  : list (node * nat) * gset (option string) :=
  fold_left (λ a dep, walk dep depth a) deps acc.

(** The nodes a consumer visits in a tree. *)
Definition visits (t : node) : list (node * nat) := (walk t 0 ([], ∅)).1.

Definition paths_of (l : list (node * nat)) : list (option string) :=
  (λ mk, n_absolutePath mk.1) <$> l.

(** The [absolutePath] values of a tree, [None] for the [null] of an
    external leaf. *)
Definition absolutePaths (t : node) : gset (option string) :=
  list_to_set (n_absolutePath <$> subtrees t).

(** What [calculateStatsRecursive] adds for one node. *)
Definition counted (n : node) (depth : nat) (s : Consumers.stats) : Consumers.stats :=
  {| Consumers.totalFiles := S (Consumers.totalFiles s);
     Consumers.totalSize := (Consumers.totalSize s + default 0 (n_size n))%N;
     Consumers.maxDepthSeen := Nat.max (Consumers.maxDepthSeen s) depth;
     Consumers.externalDeps :=
       if n_external n then S (Consumers.externalDeps s) else Consumers.externalDeps s;
     Consumers.fileTypes :=
       if String.eqb (n_path n) "" then Consumers.fileTypes s
       else Consumers.bump (Path.extname (n_path n)) (Consumers.fileTypes s) |}.

(** What [collectFilesRecursive] and [collectContentRecursive] add for
    one node. *)
Definition listed (includeExternal : bool) (n : node) (files : list string)
  : list string :=
  if includeExternal || negb (n_external n) then set_add (n_path n) files else files.

Definition with_content (includeExternal : bool) (n : node)
    (files : list Consumers.content_file) : list Consumers.content_file :=
  if Consumers.exists_without_error n && (includeExternal || negb (n_external n))
  then files ++ [Consumers.content_entry n] else files.

(** The path a node contributes to [expanded]. *)
Definition expanded_here (m : node) : list string :=
  match n_exists m, n_absolutePath m with
  | Some true, Some p => [p]
  | _, _ => []
  end.

Definition absolutePaths_of (deps : list node) : gset (option string) :=
  list_to_set (n_absolutePath <$> flat_map subtrees deps).

(** Every path of [V] names something the instance has visited or a
    file that does not exist. *)
Definition known (w : world) (st : state) (V : gset (option string)) : Prop :=
  ∀ p, Some p ∈ V → is_Some (visited st !! p) ∨ existsSync w p = false.

(** A traversal that starts at [m] from a set of paths known before [m]
    was built goes through the whole of [m]: it ends with every
    absolute path of [m] seen, all of them known once [m] is built, and
    it visits the expanded nodes of [m] in their order. *)
Definition reached (w : world) (s s' : state) (m : node) : Prop :=
  known w s' (absolutePaths m)
  ∧ ∀ k V, known w s V →
      (walk m k ([], V)).2 = V ∪ absolutePaths m
      ∧ flat_map (λ mk, expanded_here mk.1) (walk m k ([], V)).1 = expanded m.

(** The specifiers [extractDependencies] loops over when it expands the
    file at [p], known to the project as [relativePath]. *)
Definition imports_of (w : world) (c : config) (p relativePath : string) : list string :=
  parseImports w (fi_content (getFileInfo w c p)) relativePath.

(** The children of an expanded node are labelled with the imports of
    its file. *)
Definition follows_imports (w : world) (c : config) (m : node) : Prop :=
  n_exists m = Some true →
  ∃ p, n_absolutePath m = Some p
       ∧ n_importCount m = Some (List.length (imports_of w c p (n_path m)))
       ∧ sublist (omap n_originalImport (n_dependencies m))
           (imports_of w c p (n_path m))
       ∧ Forall (λ k, is_Some (n_originalImport k)) (n_dependencies m)
       ∧ (includeExternal c = true → maxDepth c = None →
          n_originalImport <$> n_dependencies m
          = Some <$> imports_of w c p (n_path m)).

(** The references [extractDependencies] records for the circular
    children of one node, and for those of a whole tree. *)
Definition edges_from (relativePath : string) (deps : list node) : list string :=
  (λ k, relativePath +:+ " -> " +:+ n_path k)%string
    <$> filter (λ k, n_circular k = true) deps.

Definition circular_edges (t : node) : list string :=
  flat_map (λ parent, edges_from (n_path parent) (n_dependencies parent)) (subtrees t).

(** The imports of the expanded nodes of a tree that the resolver, with
    the root directory [root], gives no path for. *)
Definition failed_here (w : world) (c : config) (root : string) (m : node)
  : list string :=
  match n_exists m, n_absolutePath m with
  | Some true, Some p =>
      filter (λ imp, truthy (resolveImportPath w c root imp p) = false)
        (imports_of w c p (n_path m))
  | _, _ => []
  end.

Definition failed_imports (w : world) (c : config) (root : string) (t : node)
  : list string :=
  flat_map (failed_here w c root) (subtrees t).


(** * Properties *)

(** ** Paths *)

Module PathFacts.
Import Path.

Lemma app_cons a s t : (String a s +:+ t)%string = String a (s +:+ t)%string.
Proof. reflexivity. Qed.

Lemma app_nil s : ("" +:+ s)%string = s.
Proof. reflexivity. Qed.

Lemma append_assoc (a b d : string) :
  ((a +:+ b) +:+ d = a +:+ (b +:+ d))%string.
Proof. induction a; rewrite ?app_cons, ?app_nil; congruence. Qed.

Lemma append_empty_r s : (s +:+ "")%string = s.
Proof. induction s; rewrite ?app_cons, ?app_nil; congruence. Qed.

Lemma split_nonempty s : split s ≠ [].
Proof.
  destruct s as [|a r]; simpl; [done|].
  destruct (Ascii.eqb a "/"); [done|]. by destruct (split r).
Qed.

(** Splitting commutes with gluing two strings by a separator. *)
Lemma split_glue a b : split (a +:+ "/" +:+ b) = split a ++ split b.
Proof.
  induction a as [|x a IH]; [done|].
  rewrite app_cons. cbn [split]. rewrite IH.
  destruct (Ascii.eqb x "/"); [done|].
  pose proof (split_nonempty a) as Hne. by destruct (split a).
Qed.

Lemma norm_segs_app allow l1 l2 :
  norm_segs allow (l1 ++ l2)
  = rev (fold_left (norm_step allow) l2 (rev (norm_segs allow l1))).
Proof. unfold norm_segs. by rewrite fold_left_app, rev_involutive. Qed.

Lemma unsplit_snoc l s :
  l ≠ [] → unsplit (l ++ [s]) = (unsplit l +:+ "/" +:+ s)%string.
Proof.
  unfold unsplit. induction l as [|x l IH]; [done|]. intros _.
  destruct l as [|y l]; [done|].
  change (String.concat "/" ((x :: y :: l) ++ [s]))
    with (x +:+ "/" +:+ String.concat "/" ((y :: l) ++ [s]))%string.
  rewrite IH by done.
  change (String.concat "/" (x :: y :: l))
    with (x +:+ "/" +:+ String.concat "/" (y :: l))%string.
  by rewrite !append_assoc.
Qed.

Lemma absolute_nonempty p : isAbsolute p = true → String.eqb p "" = false.
Proof. by destruct p. Qed.

Lemma resolved_segs cwd p :
  resolved cwd p → ("/" +:+ unsplit (norm_segs false (split p)))%string = p.
Proof.
  intros [Habs Hres]. unfold resolve in Hres. simpl in Hres.
  rewrite (absolute_nonempty _ Habs), Habs in Hres. simpl in Hres.
  unfold normalizeString in Hres.
  rewrite split_glue, norm_segs_app in Hres. simpl in Hres.
  change (norm_step false ?acc "") with acc in Hres.
  by rewrite rev_involutive in Hres.
Qed.

Lemma norm_clean allow segs acc :
  forallb clean segs = true →
  fold_left (norm_step allow) segs acc = rev segs ++ acc.
Proof.
  revert acc. induction segs as [|s segs IH]; intros acc Hc; [done|].
  simpl in Hc. apply andb_prop in Hc as [Hs Hc]. simpl.
  rewrite IH by done. rewrite <- app_assoc. simpl. f_equal.
  unfold clean in Hs. unfold norm_step.
  destruct (String.eqb s ""), (String.eqb s "."), (String.eqb s ".."); done.
Qed.

Lemma unsplit_cons_char a h t :
  unsplit (String a h :: t) = String a (unsplit (h :: t)).
Proof. unfold unsplit. by destruct t. Qed.

Lemma unsplit_split s : unsplit (split s) = s.
Proof.
  induction s as [|a r IH]; [done|]. cbn [split].
  pose proof (split_nonempty r) as Hne.
  destruct (Ascii.eqb a "/") eqn:Ha.
  - apply Ascii.eqb_eq in Ha as ->.
    destruct (split r) as [|h t] eqn:Hr; [done|].
    change (unsplit ("" :: h :: t)) with ("/" +:+ unsplit (h :: t))%string.
    by rewrite IH.
  - destruct (split r) as [|h t] eqn:Hr; [done|].
    by rewrite unsplit_cons_char, IH.
Qed.

Lemma unsplit_app l1 l2 :
  l1 ≠ [] → l2 ≠ [] →
  unsplit (l1 ++ l2) = (unsplit l1 +:+ "/" +:+ unsplit l2)%string.
Proof.
  intros H1 H2. revert l1 H1.
  induction l2 as [|s l2 IH] using rev_ind; [done|]. intros l1 H1.
  rewrite app_assoc. destruct l2 as [|y l2].
  - rewrite app_nil_r. by rewrite unsplit_snoc.
  - rewrite unsplit_snoc by (by destruct l1).
    rewrite IH by done. rewrite unsplit_snoc by done.
    by rewrite !append_assoc.
Qed.

Lemma resolved_normal cwd p : resolved cwd p → normal p.
Proof. intros Hp. split; [apply Hp | by eapply resolved_segs]. Qed.

Lemma normal_resolved cwd p : normal p → resolve cwd [p] = p.
Proof.
  intros [Habs Hn]. unfold resolve. simpl.
  rewrite (absolute_nonempty _ Habs), Habs. simpl.
  unfold normalizeString.
  rewrite split_glue, norm_segs_app. simpl.
  change (norm_step false ?acc "") with acc.
  by rewrite rev_involutive.
Qed.

Lemma absolute_app p t : isAbsolute p = true → isAbsolute (p +:+ t) = true.
Proof.
  destruct p as [|a p]; [done|]. rewrite app_cons.
  unfold isAbsolute. cbn [startsWith]. done.
Qed.

Lemma segs_under p tail :
  forallb clean (split tail) = true →
  norm_segs false (split (p +:+ "/" +:+ tail))
  = norm_segs false (split p) ++ split tail.
Proof.
  intros Hc. rewrite split_glue, norm_segs_app, norm_clean by done.
  by rewrite rev_app_distr, !rev_involutive.
Qed.

Lemma normal_under p tail :
  normal p → p ≠ "/"%string → forallb clean (split tail) = true →
  normal (p +:+ "/" +:+ tail).
Proof.
  intros [Habs Hn] Hne Hc. split; [by apply absolute_app|].
  rewrite segs_under by done.
  rewrite unsplit_app, unsplit_split.
  - rewrite <- Hn at 2. by rewrite app_cons, app_nil.
  - intros Hnil. apply Hne. rewrite <- Hn, Hnil. done.
  - apply split_nonempty.
Qed.

(** Resolving a clean relative path under a normal directory is
    concatenation. *)
Lemma resolve_under cwd p tail :
  normal p → p ≠ "/"%string →
  String.eqb tail "" = false → isAbsolute tail = false →
  forallb clean (split tail) = true →
  resolve cwd [p; tail] = (p +:+ "/" +:+ tail)%string.
Proof.
  intros Hp Hne Ht Hrel Hc.
  destruct (normal_under p tail Hp Hne Hc) as [_ Hn].
  destruct Hp as [Habs _].
  unfold resolve. simpl. rewrite Ht, Hrel.
  rewrite (absolute_nonempty _ Habs), Habs. simpl.
  unfold normalizeString.
  replace (p +:+ "/" +:+ tail +:+ "/" +:+ "")%string
    with ((p +:+ "/" +:+ tail) +:+ "/" +:+ "")%string
    by (by rewrite !append_assoc).
  rewrite split_glue, norm_segs_app. simpl.
  change (norm_step false ?acc "") with acc.
  by rewrite rev_involutive.
Qed.

Lemma last_char_app s t :
  t ≠ ""%string → last_char (s +:+ t) = last_char t.
Proof.
  intros Ht. induction s as [|a s IH]; [done|].
  rewrite app_cons. cbn [last_char]. rewrite IH.
  destruct (s +:+ t)%string eqn:E; [|done].
  destruct s; [by rewrite app_nil in E | by rewrite app_cons in E].
Qed.

(** Joining one clean segment to a normal directory is concatenation. *)
Lemma join_under p name :
  normal p → p ≠ "/"%string →
  forallb clean (split name) = true →
  last_char name ≠ Some "/"%char →
  join [p; name] = (p +:+ "/" +:+ name)%string.
Proof.
  intros Hp Hne Hc Hlast.
  assert (Hnm : name ≠ ""%string) by (intros ->; done).
  destruct (normal_under p name Hp Hne Hc) as [Habs' Hn].
  destruct Hp as [Habs _].
  unfold join. rewrite !filter_cons, filter_nil.
  destruct (decide (p ≠ ""%string)) as [_|Hp0];
    [|exfalso; apply Hp0; intros ->; done].
  destruct (decide (name ≠ ""%string)); [|done].
  change (unsplit [p; name]) with (p +:+ "/" +:+ name)%string.
  unfold normalize. rewrite (absolute_nonempty _ Habs'), Habs'.
  rewrite !last_char_app by (try done; by destruct name).
  rewrite bool_decide_eq_false_2 by done. simpl.
  unfold normalizeString.
  destruct (unsplit _) as [|a rest] eqn:En.
  - by rewrite <- Hn.
  - by rewrite <- Hn.
Qed.

(** *** Every path [resolve] returns is normal *)

Lemma split_no_slash s : Forall (λ seg, has_slash seg = false) (split s).
Proof.
  induction s as [|a r IH]; [by repeat constructor|]. cbn [split].
  destruct (Ascii.eqb a "/") eqn:Ha; [by constructor|].
  pose proof (split_nonempty r) as Hne.
  destruct (split r) as [|h t]; [done|].
  apply Forall_cons in IH as [Hh Ht]. constructor; [|done].
  cbn [has_slash]. by rewrite Ha.
Qed.

Lemma split_single s : has_slash s = false → split s = [s].
Proof.
  induction s as [|a r IH]; [done|]. cbn [has_slash split].
  destruct (Ascii.eqb a "/"); [done|]. simpl. intros Hr. by rewrite IH.
Qed.

Lemma split_unsplit segs :
  segs ≠ [] → Forall (λ seg, has_slash seg = false) segs →
  split (unsplit segs) = segs.
Proof.
  intros Hne Hall. induction Hall as [|s l Hs Hl IH]; [done|].
  destruct l as [|s' l].
  - by apply split_single.
  - change (unsplit (s :: s' :: l)) with (s +:+ "/" +:+ unsplit (s' :: l))%string.
    rewrite split_glue, split_single, IH by done. done.
Qed.

Lemma norm_step_plain acc seg :
  Forall (λ s, plain s = true) acc → has_slash seg = false →
  Forall (λ s, plain s = true) (norm_step false acc seg).
Proof.
  intros Hacc Hseg. unfold norm_step.
  destruct (String.eqb seg "" || String.eqb seg ".") eqn:H1; [done|].
  destruct (String.eqb seg "..") eqn:H2.
  - destruct acc as [|h t]; [done|].
    destruct (String.eqb h ".."); [done|].
    by apply Forall_cons in Hacc as [_ Ht].
  - constructor; [|done]. unfold plain, clean. rewrite Hseg. simpl.
    apply orb_false_elim in H1 as [-> ->]. by rewrite H2.
Qed.

Lemma norm_segs_plain segs :
  Forall (λ s, has_slash s = false) segs →
  Forall (λ s, plain s = true) (norm_segs false segs).
Proof.
  intros Hall. unfold norm_segs. apply Forall_rev.
  assert (Hgen : ∀ acc, Forall (λ s, plain s = true) acc →
            Forall (λ s, plain s = true) (fold_left (norm_step false) segs acc)).
  { induction Hall as [|s l Hs _ IH]; intros acc Hacc; [done|]. simpl.
    apply IH. by apply norm_step_plain. }
  by apply Hgen.
Qed.

Lemma plain_clean segs :
  Forall (λ s, plain s = true) segs → forallb clean segs = true.
Proof.
  induction 1 as [|s l Hs _ IH]; [done|]. simpl.
  unfold plain in Hs. apply andb_prop in Hs as [_ ->]. done.
Qed.

Lemma plain_no_slash segs :
  Forall (λ s, plain s = true) segs → Forall (λ s, has_slash s = false) segs.
Proof.
  intros Hall. eapply Forall_impl; [exact Hall|].
  intros s Hs. unfold plain in Hs.
  apply andb_prop in Hs as [Hs _]. by apply negb_true_iff.
Qed.

(** The path written from plain segments is normal. *)
Lemma normal_of_segs segs :
  Forall (λ s, plain s = true) segs →
  norm_segs false (split ("/" +:+ unsplit segs)) = segs
  ∧ normal ("/" +:+ unsplit segs).
Proof.
  intros Hall.
  assert (Hsegs : norm_segs false (split ("/" +:+ unsplit segs)) = segs).
  { destruct segs as [|s l]; [done|].
    change ("/" +:+ unsplit (s :: l))%string
      with ("" +:+ "/" +:+ unsplit (s :: l))%string.
    rewrite split_glue, split_unsplit; [|done|by apply plain_no_slash].
    rewrite norm_segs_app.
    change (rev (norm_segs false [""%string])) with (@nil string).
    rewrite norm_clean by (by apply plain_clean).
    by rewrite app_nil_r, rev_involutive. }
  split; [done|]. split; [done|]. by rewrite Hsegs.
Qed.

Lemma normal_segs p :
  normal p →
  ∃ segs, Forall (λ s, plain s = true) segs ∧ p = ("/" +:+ unsplit segs)%string.
Proof.
  intros [_ Hn]. exists (norm_segs false (split p)). split; [|done].
  apply norm_segs_plain, split_no_slash.
Qed.

Lemma resolve_loop_absolute cwd args acc :
  isAbsolute cwd = true → ∃ rp, resolve_loop (args ++ [cwd]) acc = (rp, true).
Proof.
  intros Habs. revert acc. induction args as [|a args IH]; intros acc; simpl.
  - rewrite (absolute_nonempty _ Habs), Habs. eauto.
  - destruct (String.eqb a ""); [apply IH|].
    destruct (isAbsolute a); [eauto | apply IH].
Qed.

Lemma resolve_normal cwd args :
  isAbsolute cwd = true → normal (resolve cwd args).
Proof.
  intros Habs. unfold resolve.
  change (rev (cwd :: args)) with (rev args ++ [cwd]).
  destruct (resolve_loop_absolute cwd (rev args) "" Habs) as [rp ->].
  simpl. unfold normalizeString.
  apply normal_of_segs, norm_segs_plain, split_no_slash.
Qed.

(** *** Appending an extension or an index file keeps a path normal *)

Lemma has_slash_app s t : has_slash (s +:+ t) = has_slash s || has_slash t.
Proof.
  induction s as [|a s IH]; [done|]. rewrite app_cons. cbn [has_slash].
  by rewrite IH, orb_assoc.
Qed.

Lemma clean_spec s :
  clean s = true ↔ s ≠ ""%string ∧ s ≠ "."%string ∧ s ≠ ".."%string.
Proof.
  unfold clean. rewrite negb_true_iff, !orb_false_iff, !String.eqb_neq.
  tauto.
Qed.

Lemma clean_app s e : clean s = true → e ≠ ""%string → clean (s +:+ e) = true.
Proof.
  rewrite !clean_spec. intros (Hs0 & Hs1 & Hs2) He.
  destruct s as [|a [|b s]]; [done| |].
  - rewrite app_cons, app_nil. destruct e as [|x [|y e]]; [done| |].
    + repeat split; try done. intros [= -> ->]. done.
    + repeat split; done.
  - rewrite !app_cons. repeat split; try done.
    intros [= -> -> Hrest]. destruct s; [|done].
    rewrite app_nil in Hrest. done.
Qed.

Lemma plain_app s e : plain s = true → plain e = true → plain (s +:+ e) = true.
Proof.
  unfold plain. intros [Hs Hc]%andb_prop [He Hec]%andb_prop.
  apply negb_true_iff in Hs, He.
  rewrite has_slash_app, Hs, He. simpl. apply clean_app; [done|].
  by apply clean_spec in Hec as [? _].
Qed.

Lemma unsplit_snoc_app l s e :
  (unsplit (l ++ [s]) +:+ e)%string = unsplit (l ++ [(s +:+ e)%string]).
Proof.
  destruct l as [|x l]; [done|].
  rewrite !unsplit_snoc by done. by rewrite !append_assoc.
Qed.

Lemma normal_app_ext p ext :
  normal p → plain ext = true → normal (p +:+ ext).
Proof.
  intros Hp Hext. destruct (normal_segs p Hp) as (segs & Hsegs & ->).
  destruct segs as [|s l _] using rev_ind.
  - change ("/" +:+ unsplit [])%string with "/"%string.
    change ("/" +:+ ext)%string with ("/" +:+ unsplit [ext])%string.
    apply normal_of_segs. by constructor.
  - rewrite append_assoc, unsplit_snoc_app.
    apply normal_of_segs. apply Forall_app in Hsegs as [Hl Hs].
    apply Forall_cons in Hs as [Hs _].
    apply Forall_app. split; [done|]. apply Forall_singleton.
    by apply plain_app.
Qed.

Lemma last_char_plain s : plain s = true → last_char s ≠ Some "/"%char.
Proof.
  unfold plain. intros [Hs _]%andb_prop. apply negb_true_iff in Hs.
  induction s as [|a s IH]; [done|]. cbn [has_slash] in Hs.
  apply orb_false_elim in Hs as [Ha Hs]. cbn [last_char].
  destruct s; [|by apply IH].
  intros [= ->]. done.
Qed.

(** [normalize] of an absolute path without trailing separator. *)
Lemma normalize_normal x :
  isAbsolute x = true → last_char x ≠ Some "/"%char → normal (normalize x).
Proof.
  intros Habs Hlast. unfold normalize.
  rewrite (absolute_nonempty _ Habs), Habs.
  rewrite bool_decide_eq_false_2 by done. simpl.
  unfold normalizeString.
  assert (Hn : normal ("/" +:+ unsplit (norm_segs false (split x))))
    by apply normal_of_segs, norm_segs_plain, split_no_slash.
  by destruct (unsplit _) eqn:E.
Qed.

Lemma join_normal p name :
  normal p → plain name = true → normal (join [p; name]).
Proof.
  intros [Habs _] Hname.
  assert (Hnm : name ≠ ""%string).
  { unfold plain in Hname. apply andb_prop in Hname as [_ Hc].
    by apply clean_spec in Hc as [? _]. }
  unfold join. rewrite !filter_cons, filter_nil.
  destruct (decide (p ≠ ""%string)) as [_|Hp0];
    [|exfalso; apply Hp0; intros ->; done].
  destruct (decide (name ≠ ""%string)); [|done].
  change (unsplit [p; name]) with (p +:+ "/" +:+ name)%string.
  apply normalize_normal; [by apply absolute_app|].
  rewrite !last_char_app by (try done; by destruct name).
  by apply last_char_plain.
Qed.

Lemma plain_index ext : plain ext = true → plain ("index" +:+ ext) = true.
Proof. intros Hext. by apply (plain_app "index" ext). Qed.

End PathFacts.

(** ** The resolver *)

Lemma find_app {A} (f : A → bool) (l1 l2 : list A) :
  List.find f (l1 ++ l2)
  = match List.find f l1 with
    | Some x => Some x
    | None => List.find f l2
    end.
Proof. induction l1 as [|x l1 IH]; [done|]. simpl. by destruct (f x). Qed.

Lemma find_ext {A} (f g : A → bool) (l : list A) :
  (∀ x, f x = g x) → List.find f l = List.find g l.
Proof.
  intros Hfg. induction l as [|x l IH]; [done|]. simpl.
  by rewrite Hfg, IH.
Qed.

Section ResolverFacts.
Context (w : world) (c : config).

Lemma first_accepted_Some l p :
  first_accepted w c l = Some p →
  p ∈ l ∧ existsSync w p = true ∧ shouldExclude c p = false.
Proof.
  induction l as [|q l IH]; [done|]. simpl.
  destruct (existsSync w q) eqn:He, (shouldExclude c q) eqn:Hx; simpl;
    try (intros H; destruct (IH H) as (? & ? & ?); split; [by right|done]).
  intros [= <-]. split; [by left|done].
Qed.

Lemma first_accepted_find l :
  first_accepted w c l = fst <$> List.find (accepted w c) (map (λ p, (p, false)) l).
Proof.
  induction l as [|q l IH]; [done|]. simpl. unfold accepted at 1. simpl.
  rewrite andb_true_r.
  by destruct (existsSync w q && negb (shouldExclude c q)).
Qed.

(** Extension/index resolution returns the first candidate, in the
    order exact path, extensions, index files, that is accepted. *)
Lemma tryResolve_order basePath :
  tryResolveWithExtensions w c basePath
  = fst <$> List.find (accepted w c) (resolution_order c basePath).
Proof.
  unfold tryResolveWithExtensions, resolution_order. simpl.
  unfold accepted at 1. simpl.
  rewrite map_app, find_app, !first_accepted_find.
  destruct (existsSync w basePath && negb (shouldExclude c basePath)); simpl;
    [destruct (isFile w basePath); [done|]|];
    by destruct (List.find _ (map _ (withExt_candidates c basePath))).
Qed.

Lemma tryResolve_Some basePath p :
  tryResolveWithExtensions w c basePath = Some p →
  p ∈ candidates c basePath ∧ existsSync w p = true ∧ shouldExclude c p = false.
Proof.
  rewrite tryResolve_order. intros H.
  destruct (List.find _ _) as [[q b]|] eqn:Hf; [|done].
  simpl in H. injection H as ->.
  apply find_some in Hf as [Hin Hacc].
  unfold accepted in Hacc. simpl in Hacc.
  apply andb_prop in Hacc as [Hacc _]. apply andb_prop in Hacc as [He Hx].
  split; [|split; [done | by apply negb_true_iff]].
  unfold candidates. apply list_elem_of_In, in_map_iff.
  by exists (p, b).
Qed.

(** With the host loader out of play, every resolved import is a path
    extension/index resolution accepted. *)
Lemma resolveImportPath_accepted root importPath fromFile p :
  includeExternal c = false →
  resolveImportPath w c root importPath fromFile = Some p →
  existsSync w p = true ∧ shouldExclude c p = false.
Proof.
  intros Hoff. unfold resolveImportPath.
  destruct (isSvelteAlias c importPath).
  { unfold resolveSvelteAlias.
    induction (svelteAliases c) as [|[alias target] l IH]; [done|].
    cbn [resolveSvelteAlias_from].
    destruct (startsWith importPath alias); [|done].
    destruct (startsWith target "@sveltejs/kit"); [by rewrite Hoff|].
    intros Hres. by apply tryResolve_Some in Hres as (_ & ? & ?). }
  destruct (isProjectAbsoluteImport importPath).
  { unfold resolveProjectAbsoluteImport.
    induction (possibleRoots root) as [|r l IH]; [done|].
    cbn [resolveProjectAbsoluteImport_from].
    destruct (negb (existsSync w r)); [done|].
    destruct (truthy _); [|done].
    intros Hres. by apply tryResolve_Some in Hres as (_ & ? & ?). }
  destruct (startsWith importPath "." || startsWith importPath "/").
  { intros Hres. by apply tryResolve_Some in Hres as (_ & ? & ?). }
  unfold resolveExternal. by rewrite Hoff.
Qed.

End ResolverFacts.

Lemma existsSync_hide w c p :
  existsSync (hide_excluded w c) p = existsSync w p && negb (shouldExclude c p).
Proof.
  unfold existsSync, hide_excluded. simpl.
  destruct (fs w !! p) as [e|] eqn:Hp.
  - destruct (shouldExclude c p) eqn:Hx; simpl.
    + rewrite (proj2 (map_lookup_filter_None _ _ _)); [done|].
      right. intros e' _. simpl. by rewrite Hx.
    + by rewrite (map_lookup_filter_Some_2 _ _ p e).
  - rewrite (proj2 (map_lookup_filter_None _ _ _)); [done|]. by left.
Qed.

Lemma isFile_hide w c p :
  shouldExclude c p = false → isFile (hide_excluded w c) p = isFile w p.
Proof.
  intros Hx. unfold isFile, hide_excluded. simpl.
  destruct (fs w !! p) as [e|] eqn:Hp.
  - by rewrite (map_lookup_filter_Some_2 _ _ p e).
  - rewrite (proj2 (map_lookup_filter_None _ _ _)); [done|]. by left.
Qed.

Lemma accepted_hide w c cand :
  accepted (hide_excluded w c) c cand = accepted w c cand.
Proof.
  unfold accepted. rewrite existsSync_hide.
  destruct (shouldExclude c cand.1) eqn:Hx; simpl.
  - by rewrite !andb_false_r.
  - by rewrite isFile_hide, andb_true_r.
Qed.

(** C6: a path matching an exclude pattern is treated as nonexistent at
    every stage of extension/index resolution.  The result is the one
    obtained on a filesystem from which every excluded path has been
    removed; a returned path is a candidate that exists and is not
    excluded; and when every candidate (exact path, path plus extension,
    index file) is excluded the result is [null], whatever is on disk.
    For a specifier: unless the host loader is enabled, what
    [resolveImportPath] returns is never an excluded path. *)
Theorem excluded_is_nonexistent (w : world) (c : config) (basePath : string) :
  tryResolveWithExtensions w c basePath
  = tryResolveWithExtensions (hide_excluded w c) c basePath
  ∧ (∀ p, tryResolveWithExtensions w c basePath = Some p →
          p ∈ candidates c basePath ∧ existsSync w p = true
          ∧ shouldExclude c p = false)
  ∧ (Forall (λ p, shouldExclude c p = true) (candidates c basePath) →
     tryResolveWithExtensions w c basePath = None)
  ∧ (includeExternal c = false →
     ∀ root importPath fromFile p,
       resolveImportPath w c root importPath fromFile = Some p →
       shouldExclude c p = false).
Proof.
  split; [|split; [|split]];
    [| | |intros Hoff root imp from p Hres;
          by apply resolveImportPath_accepted in Hres as [_ ?]].
  - rewrite !tryResolve_order. f_equal. apply find_ext. intros cand.
    by rewrite accepted_hide.
  - apply tryResolve_Some.
  - intros Hall.
    destruct (tryResolveWithExtensions w c basePath) as [p|] eqn:Hr; [|done].
    apply tryResolve_Some in Hr as (Hin & _ & Hx).
    rewrite Forall_forall in Hall. specialize (Hall p Hin). congruence.
Qed.

Lemma excluded_is_nonexistent_witness :
  Forall (λ p, shouldExclude Sample.defaults p = true)
         (candidates Sample.defaults "/proj/node_modules/pkg/main")
  ∧ existsSync Sample.vendored "/proj/node_modules/pkg/main.ts" = true
  ∧ tryResolveWithExtensions Sample.vendored Sample.defaults
      "/proj/node_modules/pkg/main" = None
  ∧ existsSync Sample.vendored "/proj/src/util.spec.ts" = true
  ∧ resolveImportPath Sample.vendored Sample.defaults "/proj" "./util.spec"
      "/proj/src/main.ts" = None.
Proof.
  assert (Hall : Forall (λ p, shouldExclude Sample.defaults p = true)
                   (candidates Sample.defaults "/proj/node_modules/pkg/main"))
    by (apply (bool_decide_unpack _); vm_compute; exact I).
  refine (conj Hall (conj eq_refl (conj _ (conj eq_refl eq_refl)))).
  exact (proj1 (proj2 (proj2 (excluded_is_nonexistent Sample.vendored
                                Sample.defaults "/proj/node_modules/pkg/main")))
           Hall).
Defined.

(** C5: the strategies are applied in the fixed order alias match,
    project-absolute prefix, relative or filesystem-rooted, external; the
    first one whose applicability test claims the specifier determines the
    result.  When that strategy finds no file the result is [null]: a
    specifier that starts with an alias key is answered by the alias
    strategy alone. *)
Theorem first_applicable_strategy_wins (w : world) (c : config)
    (root importPath fromFile : string) :
  resolveImportPath w c root importPath fromFile
  = resolve_by_order w c root importPath fromFile
  ∧ (∀ s, List.find (λ s, applicable c s importPath) strategy_order = Some s →
          run_strategy w c root s importPath fromFile = None →
          resolveImportPath w c root importPath fromFile = None)
  ∧ (isSvelteAlias c importPath = true →
     resolveImportPath w c root importPath fromFile
     = resolveSvelteAlias w c root importPath).
Proof.
  assert (Heq : resolveImportPath w c root importPath fromFile
                = resolve_by_order w c root importPath fromFile).
  { unfold resolveImportPath, resolve_by_order, strategy_order.
    cbn [List.find applicable].
    destruct (isSvelteAlias c importPath); [done|].
    destruct (isProjectAbsoluteImport importPath); [done|].
    by destruct (startsWith importPath "." || startsWith importPath "/"). }
  split; [done|split].
  - intros s Hs Hnone. rewrite Heq. unfold resolve_by_order. by rewrite Hs.
  - intros Ha. unfold resolveImportPath. by rewrite Ha.
Qed.

(** An alias-claimed specifier whose alias target is missing stays
    unresolved although the host loader would find it. *)
Lemma first_applicable_strategy_wins_witness :
  List.find (λ s, applicable (with_includeExternal Sample.defaults true) s "$lib/missing")
    strategy_order = Some AliasMatch
  ∧ run_strategy (with_require_resolve Sample.lib_project Sample.found_everywhere)
      (with_includeExternal Sample.defaults true) "/proj" AliasMatch
      "$lib/missing" "/proj/src/main.ts" = None
  ∧ resolveExternal (with_require_resolve Sample.lib_project Sample.found_everywhere)
      (with_includeExternal Sample.defaults true) "$lib/missing" "/proj/src/main.ts"
    = Some "/proj/node_modules/$lib/missing/index.js"%string
  ∧ resolveImportPath
      (with_require_resolve Sample.lib_project Sample.found_everywhere)
      (with_includeExternal Sample.defaults true)
      "/proj" "$lib/missing" "/proj/src/main.ts" = None.
Proof.
  refine (conj eq_refl (conj eq_refl (conj eq_refl _))).
  exact (proj1 (proj2 (first_applicable_strategy_wins
           (with_require_resolve Sample.lib_project Sample.found_everywhere)
           (with_includeExternal Sample.defaults true)
           "/proj" "$lib/missing" "/proj/src/main.ts")) AliasMatch eq_refl eq_refl).
Defined.

Lemma resolveSvelteAlias_first w c root importPath alias target :
  first_alias c importPath = Some (alias, target) →
  resolveSvelteAlias w c root importPath
  = if startsWith target "@sveltejs/kit"
    then (if includeExternal c then require_resolve w target None else None)
    else tryResolveWithExtensions w c
           (Path.resolve (cwd w)
              [root; (target +:+ substring_from (String.length alias) importPath)%string]).
Proof.
  unfold first_alias, resolveSvelteAlias.
  induction (svelteAliases c) as [|[a t] l IH]; [done|]. simpl.
  destruct (startsWith importPath a); [|done]. by intros [= -> ->].
Qed.

Lemma first_alias_claims c importPath alias target :
  first_alias c importPath = Some (alias, target) →
  isSvelteAlias c importPath = true ∧ startsWith importPath alias = true.
Proof.
  unfold first_alias, isSvelteAlias. intros Hf.
  apply find_some in Hf as [Hin Hs]. split; [|done].
  apply existsb_exists. by exists (alias, target).
Qed.

Section AliasExample.
Context (w : world) (c : config) (R : string).
Hypothesis Hroot : Path.resolved (cwd w) R.
Hypothesis Hnot_top : R ≠ "/"%string.

Lemma lib_base :
  Path.resolve (cwd w) [R; "src/lib/x"%string] = (R +:+ "/src/lib/x")%string.
Proof.
  apply (PathFacts.resolve_under (cwd w) R "src/lib/x"); try done.
  by eapply PathFacts.resolved_normal.
Qed.

Lemma lib_index :
  Path.join [(R +:+ "/src/lib/x")%string; "index.ts"%string]
  = (R +:+ "/src/lib/x/index.ts")%string.
Proof.
  assert (Hn : Path.normal R) by (by eapply PathFacts.resolved_normal).
  assert (Hbase : Path.normal (R +:+ "/" +:+ "src/lib/x"))
    by (by apply PathFacts.normal_under).
  change (R +:+ "/src/lib/x")%string with (R +:+ "/" +:+ "src/lib/x")%string.
  rewrite (PathFacts.join_under (R +:+ "/" +:+ "src/lib/x") "index.ts" Hbase);
    try done.
  - by rewrite !PathFacts.append_assoc.
  - destruct R as [|a [|b R']]; [done| |done].
    rewrite PathFacts.app_cons, PathFacts.app_nil. done.
Qed.

Lemma lib_alias_base fromFile :
  svelteAliases c = [("$lib", "src/lib")]%string →
  resolveImportPath w c R "$lib/x" fromFile
  = tryResolveWithExtensions w c (R +:+ "/src/lib/x")%string.
Proof.
  intros Hal.
  assert (Hclaim : isSvelteAlias c "$lib/x" = true)
    by (unfold isSvelteAlias; by rewrite Hal).
  unfold resolveImportPath. rewrite Hclaim.
  rewrite (resolveSvelteAlias_first w c R "$lib/x" "$lib" "src/lib")
    by (unfold first_alias; by rewrite Hal).
  change (startsWith "src/lib" "@sveltejs/kit") with false. cbv iota.
  change ("src/lib" +:+ substring_from (String.length "$lib") "$lib/x")%string
    with "src/lib/x"%string.
  by rewrite lib_base.
Qed.
End AliasExample.

Lemma first_accepted_none w c l :
  Forall (λ p, accepted w c (p, false) = false) l → first_accepted w c l = None.
Proof.
  induction 1 as [|p l Hp _ IH]; [done|]. simpl.
  unfold accepted in Hp. simpl in Hp. rewrite andb_true_r in Hp.
  by rewrite Hp.
Qed.

(** C7: with the alias table [{"$lib": "src/lib"}] and root [R], the
    specifier ["$lib/x"] is resolved, from any origin file, by
    extension/index resolution of [R/src/lib/x]: the exact path first,
    then each configured extension in priority order, then the index
    files in the same order.  With [".ts"] the first extension: when the
    exact path is not accepted and [R/src/lib/x.ts] exists and is not
    excluded the result is that path; when no earlier candidate is
    accepted and [R/src/lib/x/index.ts] exists and is not excluded the
    result is the index path; when no candidate exists the result is
    [null]. *)
Theorem lib_alias_resolution (w : world) (c : config) (R fromFile : string)
    (exts : list string) :
  svelteAliases c = [("$lib", "src/lib")]%string →
  extensions c = ".ts"%string :: exts →
  Path.resolved (cwd w) R → R ≠ "/"%string →
  resolveImportPath w c R "$lib/x" fromFile
  = fst <$> List.find (accepted w c) (resolution_order c (R +:+ "/src/lib/x")%string)
  ∧ (accepted w c ((R +:+ "/src/lib/x")%string, true) = false →
     accepted w c ((R +:+ "/src/lib/x.ts")%string, false) = true →
     resolveImportPath w c R "$lib/x" fromFile = Some (R +:+ "/src/lib/x.ts")%string)
  ∧ (accepted w c ((R +:+ "/src/lib/x")%string, true) = false →
     Forall (λ p, accepted w c (p, false) = false)
            (withExt_candidates c (R +:+ "/src/lib/x")%string) →
     accepted w c ((R +:+ "/src/lib/x/index.ts")%string, false) = true →
     resolveImportPath w c R "$lib/x" fromFile
     = Some (R +:+ "/src/lib/x/index.ts")%string)
  ∧ (Forall (λ p, existsSync w p = false) (candidates c (R +:+ "/src/lib/x")%string) →
     resolveImportPath w c R "$lib/x" fromFile = None).
Proof.
  intros Hal Hext Hroot Htop.
  rewrite (lib_alias_base w c R Hroot Htop fromFile Hal).
  split; [apply tryResolve_order|].
  assert (Hexact : accepted w c ((R +:+ "/src/lib/x")%string, true) = false →
            tryResolveWithExtensions w c (R +:+ "/src/lib/x")%string
            = match first_accepted w c (withExt_candidates c (R +:+ "/src/lib/x")%string) with
              | Some p => Some p
              | None => first_accepted w c (index_candidates c (R +:+ "/src/lib/x")%string)
              end).
  { unfold accepted, tryResolveWithExtensions. simpl.
    destruct (existsSync w _ && negb (shouldExclude c _)); [|done].
    simpl. by intros ->. }
  split; [|split].
  - intros Hx Hts. rewrite (Hexact Hx).
    unfold withExt_candidates. rewrite Hext. cbn [map first_accepted].
    rewrite PathFacts.append_assoc.
    change ("/src/lib/x" +:+ ".ts")%string with "/src/lib/x.ts"%string.
    unfold accepted in Hts. simpl in Hts. rewrite andb_true_r in Hts.
    by rewrite Hts.
  - intros Hx Hnone Hidx. rewrite (Hexact Hx).
    rewrite (first_accepted_none _ _ _ Hnone).
    unfold index_candidates. rewrite Hext. cbn [map first_accepted].
    change ("index" +:+ ".ts")%string with "index.ts"%string.
    rewrite (lib_index w R Hroot Htop).
    unfold accepted in Hidx. simpl in Hidx. rewrite andb_true_r in Hidx.
    by rewrite Hidx.
  - intros Hnone. rewrite tryResolve_order.
    destruct (List.find _ _) as [[p b]|] eqn:Hf; [|done].
    apply find_some in Hf as [Hin Hacc]. exfalso.
    rewrite Forall_forall in Hnone.
    assert (Hp : existsSync w p = false).
    { apply Hnone. unfold candidates. apply list_elem_of_In, in_map_iff.
      by exists (p, b). }
    unfold accepted in Hacc. simpl in Hacc. by rewrite Hp in Hacc.
Qed.

Lemma lib_alias_resolution_witness :
  svelteAliases Sample.lib_only = [("$lib", "src/lib")]%string
  ∧ extensions Sample.lib_only = ".ts"%string :: List.tl default_extensions
  ∧ Path.resolved (cwd Sample.lib_project) "/proj"
  ∧ accepted Sample.lib_project Sample.lib_only ("/proj/src/lib/x"%string, true) = false
  ∧ accepted Sample.lib_project Sample.lib_only ("/proj/src/lib/x.ts"%string, false) = true
  ∧ resolveImportPath Sample.lib_project Sample.lib_only "/proj" "$lib/x"
      "/proj/src/main.ts" = Some "/proj/src/lib/x.ts"%string
  ∧ resolveImportPath Sample.lib_index_project Sample.lib_only "/proj" "$lib/x"
      "/proj/src/main.ts" = Some "/proj/src/lib/x/index.ts"%string
  ∧ resolveImportPath Sample.chain Sample.lib_only "/proj" "$lib/x"
      "/proj/src/main.ts" = None.
Proof.
  assert (Hres : Path.resolved "/proj" "/proj") by (split; reflexivity).
  assert (Htop : "/proj"%string ≠ "/"%string) by discriminate.
  refine (conj eq_refl (conj eq_refl (conj Hres (conj eq_refl (conj eq_refl
            (conj _ (conj _ _))))))).
  - apply (lib_alias_resolution Sample.lib_project Sample.lib_only "/proj"
             "/proj/src/main.ts" (List.tl default_extensions)
             eq_refl eq_refl Hres Htop); reflexivity.
  - apply (lib_alias_resolution Sample.lib_index_project Sample.lib_only "/proj"
             "/proj/src/main.ts" (List.tl default_extensions)
             eq_refl eq_refl Hres Htop); try reflexivity.
    apply (bool_decide_unpack _). vm_compute. exact I.
  - apply (lib_alias_resolution Sample.chain Sample.lib_only "/proj"
             "/proj/src/main.ts" (List.tl default_extensions)
             eq_refl eq_refl Hres Htop).
    apply (bool_decide_unpack _). vm_compute. exact I.
Defined.

(** ** Resolved paths are normal

    Whatever the three project strategies return is an absolute path in
    normal form, on which [path.resolve] is the identity; for the host
    loader this is an assumption on the host. *)

Section NormalResults.
Context (w : world) (c : config).
Hypothesis cwd_absolute : Path.isAbsolute (cwd w) = true.
Hypothesis plain_extensions : Forall (λ ext, Path.plain ext = true) (extensions c).
Hypothesis host_normal :
  ∀ request base p, require_resolve w request base = Some p → Path.normal p.

Lemma tryResolve_normal basePath p :
  Path.normal basePath →
  tryResolveWithExtensions w c basePath = Some p → Path.normal p.
Proof.
  intros Hbase Hres. apply tryResolve_Some in Hres as (Hin & _ & _).
  unfold candidates, resolution_order in Hin. simpl in Hin.
  rewrite map_map, map_id in Hin. cbn [fst] in Hin.
  apply elem_of_cons in Hin as [->|Hin]; [done|].
  apply elem_of_app in Hin as [Hin|Hin].
  - unfold withExt_candidates in Hin.
    apply list_elem_of_In, in_map_iff in Hin as (ext & <- & Hext).
    apply PathFacts.normal_app_ext; [done|].
    rewrite Forall_forall in plain_extensions.
    by apply plain_extensions, list_elem_of_In.
  - unfold index_candidates in Hin.
    apply list_elem_of_In, in_map_iff in Hin as (ext & <- & Hext).
    apply PathFacts.join_normal; [done|]. apply PathFacts.plain_index.
    rewrite Forall_forall in plain_extensions.
    by apply plain_extensions, list_elem_of_In.
Qed.

Lemma resolveImportPath_normal root importPath fromFile p :
  resolveImportPath w c root importPath fromFile = Some p → Path.normal p.
Proof.
  unfold resolveImportPath.
  destruct (isSvelteAlias c importPath).
  { unfold resolveSvelteAlias.
    induction (svelteAliases c) as [|[alias target] l IH]; [done|].
    cbn [resolveSvelteAlias_from].
    destruct (startsWith importPath alias); [|done].
    destruct (startsWith target "@sveltejs/kit").
    - destruct (includeExternal c); [apply host_normal | done].
    - apply tryResolve_normal, PathFacts.resolve_normal, cwd_absolute. }
  destruct (isProjectAbsoluteImport importPath).
  { unfold resolveProjectAbsoluteImport.
    induction (possibleRoots root) as [|r l IH]; [done|].
    cbn [resolveProjectAbsoluteImport_from].
    destruct (negb (existsSync w r)); [done|].
    destruct (truthy _); [|done].
    apply tryResolve_normal, PathFacts.resolve_normal, cwd_absolute. }
  destruct (startsWith importPath "." || startsWith importPath "/").
  { apply tryResolve_normal, PathFacts.resolve_normal, cwd_absolute. }
  unfold resolveExternal. destruct (negb (includeExternal c)); [done|].
  apply host_normal.
Qed.

(** The two side conditions the builder's facts ask of a resolved
    import. *)
Lemma resolveImportPath_resolved root importPath fromFile p :
  resolveImportPath w c root importPath fromFile = Some p →
  p ≠ ""%string ∧ Path.resolve (cwd w) [p] = p.
Proof.
  intros Hres. apply resolveImportPath_normal in Hres.
  split; [|by apply PathFacts.normal_resolved].
  destruct Hres as [Habs _]. by intros ->.
Qed.
End NormalResults.

Lemma default_extensions_plain :
  Forall (λ ext, Path.plain ext = true) default_extensions.
Proof. repeat constructor. Qed.

(** ** The graph builder *)

Lemma evolves_refl e m : evolves e m m.
Proof. intros k v Hk. exists v. eauto. Qed.

Lemma evolves_trans e m1 m2 m3 :
  evolves e m1 m2 → evolves e m2 m3 → evolves e m1 m3.
Proof.
  intros H12 H23 k v Hk.
  destruct (H12 k v Hk) as (v2 & Hk2 & Hle2 & Hkeep2).
  destruct (H23 k v2 Hk2) as (v3 & Hk3 & Hle3 & Hkeep3).
  exists v3. split; [done|]. split; [lia|].
  intros Hv. specialize (Hkeep2 Hv). subst v2. by apply Hkeep3.
Qed.

Lemma evolves_shallower e m m' : evolves (S e) m m' → evolves e m m'.
Proof.
  intros H k v Hk. destruct (H k v Hk) as (v' & Hk' & Hle & Hkeep).
  exists v'. split; [done|]. split; [done|]. intros Hv. apply Hkeep. lia.
Qed.

(** Marking a path that a call at depth [e] is about to expand. *)
Lemma evolves_mark e m p :
  (∀ v, m !! p = Some v → e < v) → evolves e m (<[p := e]> m).
Proof.
  intros Hp k v Hk. destruct (decide (k = p)) as [->|Hne].
  - exists e. rewrite lookup_insert_eq. specialize (Hp v Hk).
    split; [done|]. split; lia.
  - exists v. by rewrite lookup_insert_ne.
Qed.

Lemma state_evolves_refl e st : state_evolves e st st.
Proof. split; [apply evolves_refl | done]. Qed.

Lemma state_evolves_trans e st1 st2 st3 :
  state_evolves e st1 st2 → state_evolves e st2 st3 → state_evolves e st1 st3.
Proof.
  intros [H12 R12] [H23 R23]. split; [by eapply evolves_trans | congruence].
Qed.

Lemma state_evolves_shallower e st st' :
  state_evolves (S e) st st' → state_evolves e st st'.
Proof. intros [H R]. split; [by apply evolves_shallower | done]. Qed.

Lemma truthy_Some r : truthy r = true → ∃ p, r = Some p ∧ p ≠ ""%string.
Proof.
  destruct r as [p|]; [|done]. simpl. intros Hp. exists p. split; [done|].
  intros ->. done.
Qed.

Lemma truthy_intro p : p ≠ ""%string → truthy (Some p) = true.
Proof. intros Hp. simpl. destruct p; [done|done]. Qed.

Section LoopFacts.
Context (w : world) (c : config).
Context (rec : state → string → nat → option (state * option node)).
Context (relativePath resolvedPath : string) (currentDepth : nat).

Abbreviation step := (processImport w c rec relativePath resolvedPath currentDepth).
Abbreviation loop := (processImports w c rec relativePath resolvedPath currentDepth).
Abbreviation round := (round w c rec relativePath resolvedPath currentDepth).

Lemma processImport_round st importPath st' r :
  step st importPath = Some (st', r) → round st importPath st' r.
Proof.
  unfold processImport.
  destruct (resolveImportPath w c (rootDir st) importPath resolvedPath)
    as [target|] eqn:Hres.
  - destruct (truthy (Some target)) eqn:Ht.
    + destruct (truthy_Some _ Ht) as (p & [= <-] & Hne).
      case_bool_decide as Hv.
      * intros [= <- <-]. by apply round_circular.
      * destruct (rec st target (S currentDepth)) as [[st1 r1]|] eqn:Hrec; [|done].
        assert (Hn : visited st !! target = None)
          by (by apply eq_None_not_Some).
        destruct r1 as [child|]; intros [= <- <-].
        -- by apply (round_recurse w c rec relativePath resolvedPath currentDepth
                       st importPath target st1 (Some child)).
        -- by apply (round_recurse w c rec relativePath resolvedPath currentDepth
                       st importPath target st1 None).
    + destruct (includeExternal c) eqn:Hinc; intros [= <- <-].
      * apply round_external; [by rewrite Hres | done].
      * apply round_unresolved; [by rewrite Hres | done].
  - destruct (includeExternal c) eqn:Hinc; intros [= <- <-].
    + apply round_external; [by rewrite Hres | done].
    + apply round_unresolved; [by rewrite Hres | done].
Qed.

(** The three ways through the loop body, as equations. *)
Lemma processImport_falsy st importPath :
  truthy (resolveImportPath w c (rootDir st) importPath resolvedPath) = false →
  step st importPath
  = if includeExternal c
    then Some (st, Some (external_node importPath (S currentDepth)))
    else Some (add_unresolved importPath st, None).
Proof.
  unfold processImport. intros Hf.
  destruct (resolveImportPath w c (rootDir st) importPath resolvedPath); [|done].
  by rewrite Hf.
Qed.

Lemma processImport_visited st importPath target :
  resolveImportPath w c (rootDir st) importPath resolvedPath = Some target →
  target ≠ ""%string →
  is_Some (visited st !! target) →
  step st importPath
  = Some (add_circularDep
            (relativePath +:+ " -> "
             +:+ Path.relative (cwd w) (rootDir st) target)%string st,
          Some (with_originalImport importPath
                  (circular_node (Path.relative (cwd w) (rootDir st) target)
                     target (S currentDepth)))).
Proof.
  unfold processImport. intros -> Hne Hv.
  by rewrite (truthy_intro _ Hne), bool_decide_eq_true_2.
Qed.

Lemma processImport_unvisited st importPath target :
  resolveImportPath w c (rootDir st) importPath resolvedPath = Some target →
  target ≠ ""%string →
  visited st !! target = None →
  step st importPath
  = match rec st target (S currentDepth) with
    | None => None
    | Some (st', Some childTree) =>
        Some (st', Some (with_originalImport importPath childTree))
    | Some (st', None) => Some (st', None)
    end.
Proof.
  unfold processImport. intros -> Hne Hv.
  rewrite (truthy_intro _ Hne), bool_decide_eq_false_2; [done|].
  rewrite Hv. by intros [? ?].
Qed.

(** An invariant of the loop: [Q] relates the states, [P] holds of
    every node pushed. *)
Section Invariant.
Context (Q : state → state → Prop) (P : node → Prop).
Hypothesis Q_refl : ∀ st, Q st st.
Hypothesis Q_trans : ∀ a b d, Q a b → Q b d → Q a d.
Hypothesis Q_round : ∀ st imp st' r, round st imp st' r → Q st st'.
Hypothesis P_round : ∀ st imp st' n, round st imp st' (Some n) → P n.

Lemma processImports_invariant imports : ∀ st deps st' deps',
  loop st imports deps = Some (st', deps') →
  Q st st' ∧ (Forall P deps → Forall P deps').
Proof.
  induction imports as [|imp imports IH]; intros st deps st' deps'; simpl.
  - intros [= <- <-]. eauto.
  - destruct (step st imp) as [[st1 r1]|] eqn:Hstep; [|done].
    apply processImport_round in Hstep.
    destruct r1 as [n|]; intros Hloop;
      destruct (IH _ _ _ _ Hloop) as [HQ HP]; split.
    + eauto.
    + intros Hdeps. apply HP. apply Forall_app. split; [done|].
      apply Forall_singleton. eauto.
    + eauto.
    + done.
Qed.
End Invariant.

(** The loop finishes when every recursive call it can make does. *)
Lemma processImports_total (Q : state → state → Prop) (st0 : state) :
  (∀ a b d, Q a b → Q b d → Q a d) →
  (∀ st imp st' r, Q st0 st → round st imp st' r → Q st st') →
  (∀ st target, Q st0 st → is_Some (rec st target (S currentDepth))) →
  ∀ imports st deps, Q st0 st → is_Some (loop st imports deps).
Proof.
  intros Q_trans Q_round Hrec.
  induction imports as [|imp imports IH]; intros st deps HQ; simpl; [eauto|].
  assert (Hstep : is_Some (step st imp)).
  { unfold processImport.
    destruct (resolveImportPath w c (rootDir st) imp resolvedPath) as [t|];
      [|by destruct (includeExternal c)].
    destruct (truthy (Some t)); [|by destruct (includeExternal c)].
    case_bool_decide; [done|].
    destruct (Hrec st t HQ) as [[st1 [n|]] ->]; done. }
  destruct Hstep as [[st1 r1] Hstep]. rewrite Hstep.
  pose proof (processImport_round _ _ _ _ Hstep) as Hround.
  destruct r1; apply IH; eauto.
Qed.
End LoopFacts.

Lemma subtrees_unfold n :
  subtrees n = n :: flat_map subtrees (n_dependencies n).
Proof. by destruct n. Qed.

Lemma circular_leaves_intro n :
  (n_circular n = true → n_dependencies n = []) →
  Forall circular_leaves (n_dependencies n) →
  circular_leaves n.
Proof.
  intros Hn Hdeps. unfold circular_leaves. rewrite subtrees_unfold.
  constructor; [done|]. clear Hn.
  induction (n_dependencies n) as [|m l IH]; simpl; [constructor|].
  apply Forall_cons in Hdeps as [Hm Hl].
  apply Forall_app. split; [apply Hm | by apply IH].
Qed.

Lemma circular_leaves_originalImport imp n :
  circular_leaves n → circular_leaves (with_originalImport imp n).
Proof.
  unfold circular_leaves. rewrite !subtrees_unfold. simpl.
  intros H. apply Forall_cons in H as [Hn Hrest]. by constructor.
Qed.

Section BuilderFacts.
Context (w : world) (c : config).

Lemma not_visited_at_or_above st p d :
  visited_at_or_above st p d = false →
  ∀ v, visited st !! p = Some v → d < v.
Proof.
  unfold visited_at_or_above. intros H v Hv. rewrite Hv in H.
  apply Nat.leb_gt in H. lia.
Qed.

Lemma round_evolves rec rel rp d st imp st' r :
  (∀ st t st' r, rec st t (S d) = Some (st', r) → state_evolves (S d) st st') →
  round w c rec rel rp d st imp st' r → state_evolves d st st'.
Proof.
  intros Hrec [| | |target st1 r1 _ _ _ Hcall];
    try (split; [apply evolves_refl | done]).
  apply state_evolves_shallower. eauto.
Qed.

(** What every call guarantees: the visited table evolves, the root
    directory is kept, and the node returned is a project node at the
    requested depth whose circular nodes are leaves. *)
Lemma extractDependencies_sound fuel : ∀ st filePath d st' r,
  extractDependencies w c fuel st filePath d = Some (st', r) →
  state_evolves d st st'
  ∧ ∀ n, r = Some n →
      circular_leaves n ∧ n_external n = false ∧ n_depth n = d
      ∧ n_absolutePath n = Some (Path.resolve (cwd w) [filePath]).
Proof.
  induction fuel as [|fuel IH]; intros st filePath d st' r; [done|].
  cbn [extractDependencies].
  destruct (exceeds c d); [intros [= <- <-]; split; [apply state_evolves_refl|done]|].
  destruct (visited_at_or_above st _ d) eqn:Hvis.
  { intros [= <- <-]. split; [apply state_evolves_refl|].
    intros n [= <-]. repeat split. by apply circular_leaves_intro. }
  destruct (negb (existsSync w _)) eqn:Hex.
  { intros [= <- <-]. split; [apply state_evolves_refl|].
    intros n [= <-]. repeat split. by apply circular_leaves_intro. }
  destruct (processImports _ _ _ _ _ _ _ _ _) as [[st2 deps]|] eqn:Hloop; [|done].
  intros [= <- <-].
  apply (processImports_invariant w c _ _ _ _ (state_evolves d) circular_leaves)
    in Hloop as [HQ HP].
  - split.
    + eapply state_evolves_trans; [|exact HQ].
      split; [|done]. apply evolves_mark.
      by apply not_visited_at_or_above.
    + intros n [= <-]. repeat split.
      apply circular_leaves_intro; [done|]. simpl. by apply HP.
  - apply state_evolves_refl.
  - apply state_evolves_trans.
  - intros st0 imp st0' r0. apply round_evolves.
    intros ? ? ? ? Hcall. by apply IH in Hcall as [? _].
  - intros st0 imp st0' n Hround. inversion Hround as [| | |t s1 r1 _ _ _ Hcall]; subst.
    + by apply circular_leaves_intro.
    + apply circular_leaves_originalImport. by apply circular_leaves_intro.
    + destruct r1 as [n1|]; [|done]. simplify_eq/=.
      apply circular_leaves_originalImport.
      apply IH in Hcall as [_ Hn]. by apply Hn.
Qed.

Lemma unblocked_shrinks st st' p d :
  existsSync w p = true →
  visited_at_or_above st p d = false →
  state_evolves d (mark_visited p d st) st' →
  unblocked w st' (S d) ⊂ unblocked w st d.
Proof.
  intros Hex Hvis [Hev _]. simpl in Hev.
  assert (Hp' : ∃ v, visited st' !! p = Some v ∧ v ≤ d).
  { destruct (Hev p d) as (v & Hv & Hle & _); [apply lookup_insert_eq|]. eauto. }
  destruct Hp' as (vp & Hvp & Hle).
  apply (strict_spec_alt (R := (⊆))). split.
  - intros k. unfold unblocked. rewrite !elem_of_filter.
    intros [Hk Hdom]. split; [|done].
    unfold visited_at_or_above in *.
    destruct (visited st !! k) as [v|] eqn:Hv; [|done].
    apply Nat.leb_gt. destruct (decide (v ≤ d)) as [Hvd|]; [|lia]. exfalso.
    destruct (decide (k = p)) as [->|Hne].
    + rewrite Hv in Hvis. apply Nat.leb_gt in Hvis. lia.
    + destruct (Hev k v) as (v' & Hv' & Hle' & _);
        [by rewrite lookup_insert_ne|].
      rewrite Hv' in Hk. apply Nat.leb_gt in Hk. lia.
  - intros Heq.
    assert (Hin : p ∈ unblocked w st d).
    { unfold unblocked. apply elem_of_filter. split; [done|].
      apply elem_of_dom. unfold existsSync in Hex.
      by destruct (fs w !! p). }
    rewrite <- Heq in Hin. unfold unblocked in Hin.
    apply elem_of_filter in Hin as [Hk _].
    unfold visited_at_or_above in Hk. rewrite Hvp in Hk.
    apply Nat.leb_gt in Hk. lia.
Qed.

(** Termination: a call returns as soon as the fuel exceeds the number
    of existing paths it could still expand. *)
Lemma extractDependencies_total fuel : ∀ st filePath d,
  size (unblocked w st d) < fuel →
  is_Some (extractDependencies w c fuel st filePath d).
Proof.
  induction fuel as [|fuel IH]; intros st filePath d Hfuel; [lia|].
  cbn [extractDependencies].
  destruct (exceeds c d); [done|].
  destruct (visited_at_or_above st _ d) eqn:Hvis; [done|].
  destruct (negb (existsSync w _)) eqn:Hex; [done|].
  apply negb_false_iff in Hex.
  set (rp := Path.resolve (cwd w) [filePath]) in *.
  set (st1 := mark_visited rp d st).
  destruct (processImports_total w c (extractDependencies w c fuel)
              (Path.relative (cwd w) (rootDir st) rp) rp d
              (state_evolves d) st1) with
    (imports := parseImports w (fi_content (getFileInfo w c rp))
                  (Path.relative (cwd w) (rootDir st) rp))
    (st := st1) (deps := @nil node) as [[st2 deps] ->]; [| | | |done].
  - apply state_evolves_trans.
  - intros s imp s' r _. apply round_evolves.
    intros ? ? ? ? Hcall.
    by apply extractDependencies_sound in Hcall as [? _].
  - intros s target Hs. apply IH.
    pose proof (unblocked_shrinks st s rp d Hex Hvis Hs) as Hsub.
    apply subset_size in Hsub. lia.
  - apply state_evolves_refl.
Qed.

Lemma unblocked_size st d : size (unblocked w st d) ≤ size (fs w).
Proof.
  rewrite <- size_dom. apply subseteq_size.
  unfold unblocked. intros k Hk. by apply elem_of_filter in Hk as [_ ?].
Qed.

(** [analyze] always finishes, either with a tree or by throwing. *)
Lemma analyze_total st filePath : is_Some (analyze w c st filePath).
Proof.
  unfold analyze, analyze_with.
  match goal with
  | |- context [extractDependencies w c ?f ?s ?p ?d] =>
      destruct (extractDependencies_total f s p d) as [[st' [n|]] ->]
  end; [|done|done].
  pose proof (unblocked_size (ensure_root w st filePath) 0). lia.
Qed.

Lemma ensure_root_visited st filePath :
  visited (ensure_root w st filePath) = visited st.
Proof.
  unfold ensure_root, autoDetectProjectRoot.
  repeat (case_match; simpl; try done).
Qed.

(** A call that passes the three guards expands the file. *)
Lemma extractDependencies_expands fuel st filePath d :
  exceeds c d = false →
  visited_at_or_above st (Path.resolve (cwd w) [filePath]) d = false →
  existsSync w (Path.resolve (cwd w) [filePath]) = true →
  extractDependencies w c (S fuel) st filePath d
  = let resolvedPath := Path.resolve (cwd w) [filePath] in
    let relativePath := Path.relative (cwd w) (rootDir st) resolvedPath in
    let fileInfo := getFileInfo w c resolvedPath in
    let imports := parseImports w (fi_content fileInfo) relativePath in
    match processImports w c (extractDependencies w c fuel) relativePath
            resolvedPath d (mark_visited resolvedPath d st) imports [] with
    | None => None
    | Some (st2, dependencies) =>
        let result := file_node relativePath resolvedPath d dependencies
                        fileInfo (List.length imports) in
        Some (register_file resolvedPath result st2, Some result)
    end.
Proof.
  intros Hdepth Hvis Hex. cbn [extractDependencies].
  by rewrite Hdepth, Hvis, Hex.
Qed.

(** After the loop of an expansion at depth [d], the expanded path is
    still recorded at depth [d]. *)
Lemma expansion_keeps_mark fuel rel rp d st imports st2 deps :
  processImports w c (extractDependencies w c fuel) rel rp d
    (mark_visited rp d st) imports [] = Some (st2, deps) →
  visited st2 !! rp = Some d ∧ rootDir st2 = rootDir st
  ∧ Forall circular_leaves deps.
Proof.
  intros Hloop.
  apply (processImports_invariant w c _ _ _ _ (state_evolves d) circular_leaves)
    in Hloop as [[Hev Hroot] HP].
  - destruct (Hev rp d) as (v & Hv & _ & Hkeep); [apply lookup_insert_eq|].
    rewrite Hkeep in Hv by done. by split; [|split; [|apply HP]].
  - apply state_evolves_refl.
  - apply state_evolves_trans.
  - intros st0 imp st0' r0. apply round_evolves.
    intros ? ? ? ? Hcall. by apply extractDependencies_sound in Hcall as [? _].
  - intros st0 imp st0' n Hround.
    inversion Hround as [| | |t s1 r1 _ _ _ Hcall]; subst.
    + by apply circular_leaves_intro.
    + apply circular_leaves_originalImport. by apply circular_leaves_intro.
    + destruct r1 as [n1|]; [|done]. simplify_eq/=.
      apply circular_leaves_originalImport.
      apply extractDependencies_sound in Hcall as [_ Hn]. by apply Hn.
Qed.

End BuilderFacts.

(** ** Reuse of an instance *)

Section Reuse.
Context (w : world) (c : config).

Lemma analyze_fuel_enough st filePath :
  is_Some (extractDependencies w c (S (size (fs w))) st filePath 0).
Proof.
  apply extractDependencies_total. pose proof (unblocked_size w st 0). lia.
Qed.

(** The first traversal of an existing, unvisited root. *)
Lemma analyze_existing_root st filePath :
  existsSync w (Path.resolve (cwd w) [filePath]) = true →
  exceeds c 0 = false →
  visited_at_or_above st (Path.resolve (cwd w) [filePath]) 0 = false →
  ∃ st1 tree,
    analyze w c st filePath = Some (st1, Returned tree)
    ∧ n_circular tree = false ∧ n_exists tree = Some true
    ∧ n_depth tree = 0
    ∧ n_absolutePath tree = Some (Path.resolve (cwd w) [filePath])
    ∧ circular_leaves tree
    ∧ visited st1 !! Path.resolve (cwd w) [filePath] = Some 0.
Proof.
  intros Hex Hdepth Hvis. unfold analyze, analyze_with.
  destruct (analyze_fuel_enough (ensure_root w st filePath) filePath)
    as [[st1 r] Hrun].
  rewrite Hrun.
  rewrite extractDependencies_expands in Hrun; try done.
  2:{ unfold visited_at_or_above in *. by rewrite ensure_root_visited. }
  cbv zeta in Hrun.
  destruct (processImports _ _ _ _ _ _ _ _ _) as [[st2 deps]|] eqn:Hloop; [|done].
  injection Hrun as <- <-.
  apply expansion_keeps_mark in Hloop as (Hmark & _ & Hdeps).
  eexists _, _. split; [done|]. repeat split; try done.
  by apply circular_leaves_intro.
Qed.
End Reuse.

(** C9: two runs of [analyze] on one instance, on the same existing root
    file, without a reset in between.  The first run returns an expanded
    root and leaves its path in the visited table at depth 0; the second
    run returns the root as a leaf with [circular = true] and no children,
    and leaves the visited table as it was. *)
Theorem second_run_root_is_circular (w : world) (c : config) (st : state)
    (filePath : string) :
  existsSync w (Path.resolve (cwd w) [filePath]) = true →
  exceeds c 0 = false →
  visited st !! Path.resolve (cwd w) [filePath] = None →
  ∃ st1 tree st2 leaf,
    analyze w c st filePath = Some (st1, Returned tree)
    ∧ n_circular tree = false
    ∧ visited st1 !! Path.resolve (cwd w) [filePath] = Some 0
    ∧ analyze w c st1 filePath = Some (st2, Returned leaf)
    ∧ n_circular leaf = true
    ∧ n_dependencies leaf = []
    ∧ n_absolutePath leaf = Some (Path.resolve (cwd w) [filePath])
    ∧ n_depth leaf = 0
    ∧ visited st2 = visited st1.
Proof.
  intros Hex Hdepth Hfresh.
  destruct (analyze_existing_root w c st filePath Hex Hdepth)
    as (st1 & tree & Hrun & Hcirc & _ & _ & _ & _ & Hmark).
  { unfold visited_at_or_above. by rewrite Hfresh. }
  exists st1, tree. eexists _, _.
  split; [done|]. split; [done|]. split; [done|].
  unfold analyze, analyze_with. cbn [extractDependencies].
  rewrite Hdepth. unfold visited_at_or_above.
  rewrite ensure_root_visited, Hmark. simpl.
  split; [reflexivity|]. repeat split.
  apply ensure_root_visited.
Qed.

Lemma second_run_root_is_circular_witness :
  existsSync Sample.diamond (Path.resolve (cwd Sample.diamond) ["src/r.ts"%string]) = true
  ∧ exceeds Sample.defaults 0 = false
  ∧ visited (Sample.fresh Sample.diamond)
      !! Path.resolve (cwd Sample.diamond) ["src/r.ts"%string] = None
  ∧ ∃ st1 tree st2 leaf,
      analyze Sample.diamond Sample.defaults (Sample.fresh Sample.diamond) "src/r.ts"
      = Some (st1, Returned tree)
      ∧ n_circular tree = false
      ∧ visited st1 !! Path.resolve (cwd Sample.diamond) ["src/r.ts"%string] = Some 0
      ∧ analyze Sample.diamond Sample.defaults st1 "src/r.ts" = Some (st2, Returned leaf)
      ∧ n_circular leaf = true
      ∧ n_dependencies leaf = []
      ∧ n_absolutePath leaf
        = Some (Path.resolve (cwd Sample.diamond) ["src/r.ts"%string])
      ∧ n_depth leaf = 0
      ∧ visited st2 = visited st1.
Proof.
  refine (conj eq_refl (conj eq_refl (conj eq_refl _))).
  apply (second_run_root_is_circular Sample.diamond Sample.defaults
           (Sample.fresh Sample.diamond) "src/r.ts"); reflexivity.
Defined.

(** ** Failure of [analyze] *)

Lemma exceeds_negative c : exceeds c 0 = true ↔ ∃ m, maxDepth c = Some m ∧ (m < 0)%Z.
Proof.
  unfold exceeds. destruct (maxDepth c) as [m|].
  - rewrite Z.ltb_lt. split; [eauto|]. by intros (m' & [= <-] & ?).
  - split; [done|]. by intros (m' & ? & _).
Qed.

(** A call within the depth limit returns a node. *)
Lemma extractDependencies_node (w : world) (c : config) fuel st filePath d st' r :
  exceeds c d = false →
  extractDependencies w c fuel st filePath d = Some (st', r) → is_Some r.
Proof.
  intros Hdepth. destruct fuel; [done|]. cbn [extractDependencies].
  rewrite Hdepth.
  destruct (visited_at_or_above _ _ _); [by intros [= <- <-]|].
  destruct (negb _); [by intros [= <- <-]|].
  destruct (processImports _ _ _ _ _ _ _ _ _) as [[??]|]; [|done].
  by intros [= <- <-].
Qed.

(** C2, as the code has it: a missing root file does not make [analyze]
    fail.  [analyze] always finishes; it throws exactly when
    [extractDependencies] returns [null] for the root, which happens only
    for a negative depth limit.  Otherwise a node is returned: for a root
    file that does not exist, a leaf with [exists = false] and the error
    ["File not found"], with the visited table untouched; for an existing
    root not visited before, an expanded node with [exists = true]. *)
Theorem analyze_outcome (w : world) (c : config) (st : state) (filePath : string) :
  ∃ st' o,
    analyze w c st filePath = Some (st', o)
    ∧ ((∃ message, o = Thrown message) ↔ ∃ m, maxDepth c = Some m ∧ (m < 0)%Z)
    ∧ (exceeds c 0 = false →
       visited st !! Path.resolve (cwd w) [filePath] = None →
       existsSync w (Path.resolve (cwd w) [filePath]) = false →
       o = Returned
             (missing_node
                (Path.relative (cwd w) (rootDir (ensure_root w st filePath))
                   (Path.resolve (cwd w) [filePath]))
                (Path.resolve (cwd w) [filePath]) 0)
       ∧ visited st' = visited st)
    ∧ (exceeds c 0 = false →
       visited st !! Path.resolve (cwd w) [filePath] = None →
       existsSync w (Path.resolve (cwd w) [filePath]) = true →
       ∃ tree, o = Returned tree ∧ n_exists tree = Some true).
Proof.
  destruct (analyze_total w c st filePath) as [[st' o] Hrun].
  exists st', o. split; [done|].
  rewrite <- exceeds_negative.
  unfold analyze, analyze_with in Hrun.
  destruct (extractDependencies _ _ _ _ _ _) as [[st1 r]|] eqn:Hcall; [|done].
  split; [|split].
  - destruct (exceeds c 0) eqn:Hdepth.
    + cbn [extractDependencies] in Hcall. rewrite Hdepth in Hcall.
      injection Hcall as <- <-. injection Hrun as <- <-. split; eauto.
    + destruct (extractDependencies_node _ _ _ _ _ _ _ _ Hdepth Hcall) as [n ->].
      injection Hrun as <- <-. split; [by intros [? ?]|done].
  - intros Hdepth Hfresh Hmissing.
    cbn [extractDependencies] in Hcall. rewrite Hdepth in Hcall.
    unfold visited_at_or_above in Hcall.
    rewrite ensure_root_visited, Hfresh, Hmissing in Hcall. simpl in Hcall.
    injection Hcall as <- <-. injection Hrun as <- <-.
    split; [done | apply ensure_root_visited].
  - intros Hdepth Hfresh Hex.
    destruct (analyze_existing_root w c st filePath Hex Hdepth)
      as (st2 & tree & Hrun' & _ & Hexists & _).
    { unfold visited_at_or_above. by rewrite Hfresh. }
    unfold analyze, analyze_with in Hrun'. rewrite Hcall in Hrun'.
    rewrite Hrun in Hrun'. injection Hrun' as -> ->. eauto.
Qed.

Lemma analyze_outcome_witness :
  exceeds Sample.defaults 0 = false
  ∧ existsSync Sample.chain (Path.resolve (cwd Sample.chain) ["src/nope.ts"%string]) = false
  ∧ ∃ st' n,
      analyze Sample.chain Sample.defaults (Sample.fresh Sample.chain) "src/nope.ts"
      = Some (st', Returned n)
      ∧ n_exists n = Some false.
Proof.
  refine (conj eq_refl (conj eq_refl _)).
  destruct (analyze_outcome Sample.chain Sample.defaults
              (Sample.fresh Sample.chain) "src/nope.ts")
    as (st' & o & Hrun & _ & Hmissing & _).
  destruct (Hmissing eq_refl eq_refl eq_refl) as [-> _].
  by eexists _, _.
Defined.

(** The root file is missing and [analyze] returns a node all the same. *)
Lemma missing_root_is_returned :
  existsSync Sample.chain "/proj/src/nope.ts" = false
  ∧ ∃ st' n,
      analyze Sample.chain Sample.defaults (Sample.fresh Sample.chain) "src/nope.ts"
      = Some (st', Returned n)
      ∧ n_absolutePath n = Some "/proj/src/nope.ts"%string
      ∧ n_exists n = Some false
      ∧ n_error n = Some "File not found"%string
      ∧ n_dependencies n = [].
Proof.
  split; [reflexivity|]. eexists _, _. split; [vm_compute; reflexivity|].
  repeat split.
Qed.

(** ** A path visited at a greater depth *)

(** C4, as the code has it: when, at entry to a call within the depth
    limit, the path of an existing file is in the visited table at a
    strictly greater depth than the current one, the call goes on as for
    an unvisited file.  It returns a node for the position (not circular,
    [exists = true]), lowers the visited entry to the current depth, and
    expands the file again: the children are those the import loop
    produces from the re-marked state. *)
Theorem deeper_visit_is_reexpanded (w : world) (c : config) (st : state)
    (filePath : string) (d v : nat) :
  visited st !! Path.resolve (cwd w) [filePath] = Some v →
  d < v →
  exceeds c d = false →
  existsSync w (Path.resolve (cwd w) [filePath]) = true →
  ∃ st' n st2,
    extractDependencies w c (S (size (fs w))) st filePath d = Some (st', Some n)
    ∧ n_circular n = false
    ∧ n_exists n = Some true
    ∧ n_depth n = d
    ∧ visited st' !! Path.resolve (cwd w) [filePath] = Some d
    ∧ processImports w c (extractDependencies w c (size (fs w)))
        (Path.relative (cwd w) (rootDir st) (Path.resolve (cwd w) [filePath]))
        (Path.resolve (cwd w) [filePath]) d
        (mark_visited (Path.resolve (cwd w) [filePath]) d st)
        (parseImports w
           (fi_content (getFileInfo w c (Path.resolve (cwd w) [filePath])))
           (Path.relative (cwd w) (rootDir st) (Path.resolve (cwd w) [filePath])))
        []
      = Some (st2, n_dependencies n).
Proof.
  intros Hv Hlt Hdepth Hex.
  assert (Hvis : visited_at_or_above st (Path.resolve (cwd w) [filePath]) d = false).
  { unfold visited_at_or_above. rewrite Hv. apply Nat.leb_gt. lia. }
  assert (Hsome : is_Some (extractDependencies w c (S (size (fs w))) st filePath d)).
  { apply extractDependencies_total. pose proof (unblocked_size w st d). lia. }
  destruct Hsome as [[st' r] Hrun]. rewrite Hrun.
  rewrite extractDependencies_expands in Hrun by done. cbv zeta in Hrun.
  destruct (processImports _ _ _ _ _ _ _ _ _) as [[st2 deps]|] eqn:Hloop; [|done].
  injection Hrun as <- <-.
  apply expansion_keeps_mark in Hloop as (Hmark & _ & _).
  eexists _, _, st2. split; [done|]. by repeat split.
Qed.

Lemma deeper_visit_is_reexpanded_witness :
  visited (mark_visited "/proj/src/b.ts" 2 (Sample.fresh Sample.diamond))
    !! Path.resolve (cwd Sample.diamond) ["src/b.ts"%string] = Some 2
  ∧ 0 < 2
  ∧ exceeds Sample.defaults 0 = false
  ∧ existsSync Sample.diamond (Path.resolve (cwd Sample.diamond) ["src/b.ts"%string]) = true
  ∧ ∃ st' n,
      extractDependencies Sample.diamond Sample.defaults
        (S (size (fs Sample.diamond)))
        (mark_visited "/proj/src/b.ts" 2 (Sample.fresh Sample.diamond)) "src/b.ts" 0
      = Some (st', Some n)
      ∧ n_circular n = false
      ∧ visited st' !! Path.resolve (cwd Sample.diamond) ["src/b.ts"%string] = Some 0.
Proof.
  refine (conj eq_refl (conj _ (conj eq_refl (conj eq_refl _)))); [lia|].
  destruct (deeper_visit_is_reexpanded Sample.diamond Sample.defaults
              (mark_visited "/proj/src/b.ts" 2 (Sample.fresh Sample.diamond))
              "src/b.ts" 0 2 eq_refl ltac:(lia) eq_refl eq_refl)
    as (st' & n & _ & Hrun & Hcirc & _ & _ & Hmark & _).
  exists st', n. exact (conj Hrun (conj Hcirc Hmark)).
Defined.

(** On the sample: a first run from [r.ts] visits [b.ts] at depth 2; a
    second run on the same instance from [b.ts] (depth 0 < 2) returns an
    expanded node for it with its import of [c.ts] as a child, and the
    entry of [b.ts] is lowered from 2 to 0. *)
Lemma deeper_visit_produces_node :
  ∃ st1 tree1 st2 n child,
    analyze Sample.diamond Sample.defaults (Sample.fresh Sample.diamond) "src/r.ts"
    = Some (st1, Returned tree1)
    ∧ visited st1 !! "/proj/src/b.ts"%string = Some 2
    ∧ analyze Sample.diamond Sample.defaults st1 "src/b.ts" = Some (st2, Returned n)
    ∧ n_absolutePath n = Some "/proj/src/b.ts"%string
    ∧ n_depth n = 0
    ∧ n_circular n = false
    ∧ n_exists n = Some true
    ∧ n_dependencies n = [child]
    ∧ n_absolutePath child = Some "/proj/src/c.ts"%string
    ∧ visited st2 !! "/proj/src/b.ts"%string = Some 0.
Proof.
  eexists _, _, _, _, _.
  split; [vm_compute; reflexivity|].
  split; [vm_compute; reflexivity|].
  split; [vm_compute; reflexivity|].
  repeat split; vm_compute; reflexivity.
Qed.

(** ** The depth limit *)

Lemma two_entries (w : world) (p q : string) :
  existsSync w p = true → existsSync w q = true → p ≠ q → 2 ≤ size (fs w).
Proof.
  unfold existsSync. intros Hp Hq Hne.
  destruct (fs w !! p) as [ep|] eqn:Ep; [|done].
  destruct (fs w !! q) as [eq|] eqn:Eq; [|done].
  rewrite <- size_dom.
  assert (Hsub : ({[p]} ∪ {[q]} : gset string) ⊆ dom (fs w)).
  { intros k [->%elem_of_singleton | ->%elem_of_singleton]%elem_of_union;
      by apply elem_of_dom. }
  apply subseteq_size in Hsub.
  rewrite size_union, !size_singleton in Hsub by set_solver. done.
Qed.

(** C8: beyond the configured maximum depth a call returns no node and
    leaves the state alone, and the parent, which makes the call for
    every resolved import not yet visited, pushes nothing for it.  With
    a maximum depth of 1, a root [R0] whose only import resolves to [A],
    and [A] whose only import resolves to [B], [analyze] returns a root
    whose single child is [A] at depth 1 with an empty child list; no
    node of the tree is for [B], and [B] is neither marked visited nor
    registered. *)
Theorem beyond_max_depth_no_node (w : world) (c : config) :
  (∀ fuel st filePath d,
     exceeds c d = true →
     extractDependencies w c (S fuel) st filePath d = Some (st, None))
  ∧ (∀ fuel relativePath resolvedPath d st importPath target,
       resolveImportPath w c (rootDir st) importPath resolvedPath = Some target →
       target ≠ ""%string →
       visited st !! target = None →
       exceeds c (S d) = true →
       processImport w c (extractDependencies w c (S fuel)) relativePath
         resolvedPath d st importPath = Some (st, None))
  ∧ ∀ st filePath A B ia ib,
      maxDepth c = Some 1%Z →
      visited st = ∅ →
      existsSync w (Path.resolve (cwd w) [filePath]) = true →
      existsSync w A = true →
      Path.resolve (cwd w) [A] = A →
      A ≠ ""%string → B ≠ ""%string →
      A ≠ Path.resolve (cwd w) [filePath] →
      B ≠ Path.resolve (cwd w) [filePath] →
      B ≠ A →
      parseImports w
        (fi_content (getFileInfo w c (Path.resolve (cwd w) [filePath])))
        (Path.relative (cwd w) (rootDir (ensure_root w st filePath))
           (Path.resolve (cwd w) [filePath])) = [ia] →
      resolveImportPath w c (rootDir (ensure_root w st filePath)) ia
        (Path.resolve (cwd w) [filePath]) = Some A →
      parseImports w (fi_content (getFileInfo w c A))
        (Path.relative (cwd w) (rootDir (ensure_root w st filePath)) A) = [ib] →
      resolveImportPath w c (rootDir (ensure_root w st filePath)) ib A = Some B →
      ∃ st' tree a,
        analyze w c st filePath = Some (st', Returned tree)
        ∧ n_dependencies tree = [a]
        ∧ n_absolutePath a = Some A
        ∧ n_depth a = 1
        ∧ n_exists a = Some true
        ∧ n_dependencies a = []
        ∧ Forall (λ m, n_absolutePath m ≠ Some B) (subtrees tree)
        ∧ visited st' !! B = None
        ∧ allFiles st' !! B = allFiles st !! B.
Proof.
  split; [|split].
  { intros fuel st filePath d Hd. cbn [extractDependencies]. by rewrite Hd. }
  { intros fuel rel rp d st imp target Hres Hne Hv Hd.
    rewrite (processImport_unvisited _ _ _ _ _ _ _ _ target) by done.
    cbn [extractDependencies]. by rewrite Hd. }
  intros st filePath A B ia ib Hmax Hfresh Hex0 HexA HresA HneA HneB HAR HBR HBA
    Himp0 Hres0 HimpA HresB.
  set (R0 := Path.resolve (cwd w) [filePath]) in *.
  set (st0 := ensure_root w st filePath) in *.
  assert (Hvis0 : visited st0 = ∅) by (unfold st0; by rewrite ensure_root_visited).
  pose proof (two_entries w R0 A Hex0 HexA (not_eq_sym HAR)) as Hsize.
  unfold analyze, analyze_with. fold st0.
  destruct (size (fs w)) as [|[|k]]; [lia|lia|]. clear Hsize.
  assert (Hd0 : exceeds c 0 = false) by (unfold exceeds; by rewrite Hmax).
  assert (Hd1 : exceeds c 1 = false) by (unfold exceeds; by rewrite Hmax).
  assert (Hd2 : exceeds c 2 = true) by (unfold exceeds; by rewrite Hmax).
  rewrite extractDependencies_expands; try done.
  2:{ unfold visited_at_or_above. by rewrite Hvis0. }
  cbv zeta. fold R0. rewrite Himp0. cbn [processImports].
  rewrite (processImport_unvisited _ _ _ _ _ _ _ _ A); try done.
  2:{ simpl. rewrite Hvis0, lookup_insert_ne by done. done. }
  rewrite extractDependencies_expands; rewrite ?HresA; try done.
  2:{ unfold visited_at_or_above. simpl.
      by rewrite Hvis0, lookup_insert_ne. }
  cbv zeta. simpl rootDir. rewrite HimpA. cbn [processImports].
  rewrite (processImport_unvisited _ _ _ _ _ _ _ _ B); try done.
  2:{ simpl. rewrite Hvis0, !lookup_insert_ne by done. done. }
  cbn [extractDependencies]. rewrite Hd2.
  eexists _, _, _. split; [reflexivity|].
  simpl. repeat split; try done.
  - repeat constructor; simpl; congruence.
  - rewrite Hvis0, !lookup_insert_ne by done. done.
  - unfold st0. rewrite !lookup_insert_ne by done.
    unfold ensure_root, autoDetectProjectRoot.
    repeat (case_match; simpl; try done).
Qed.

Lemma beyond_max_depth_no_node_witness :
  maxDepth Sample.max_depth_one = Some 1%Z
  ∧ resolveImportPath Sample.chain Sample.max_depth_one "/proj" "./a" "/proj/src/r0.ts"
    = Some "/proj/src/a.ts"%string
  ∧ resolveImportPath Sample.chain Sample.max_depth_one "/proj" "./b" "/proj/src/a.ts"
    = Some "/proj/src/b.ts"%string
  ∧ ∃ st' tree a,
      analyze Sample.chain Sample.max_depth_one (Sample.fresh Sample.chain) "src/r0.ts"
      = Some (st', Returned tree)
      ∧ n_dependencies tree = [a]
      ∧ n_absolutePath a = Some "/proj/src/a.ts"%string
      ∧ n_depth a = 1
      ∧ n_exists a = Some true
      ∧ n_dependencies a = []
      ∧ Forall (λ m, n_absolutePath m ≠ Some "/proj/src/b.ts"%string) (subtrees tree)
      ∧ visited st' !! "/proj/src/b.ts"%string = None
      ∧ allFiles st' !! "/proj/src/b.ts"%string
        = allFiles (Sample.fresh Sample.chain) !! "/proj/src/b.ts"%string.
Proof.
  refine (conj eq_refl (conj eq_refl (conj eq_refl _))).
  apply (proj2 (proj2 (beyond_max_depth_no_node Sample.chain Sample.max_depth_one))
           (Sample.fresh Sample.chain) "src/r0.ts"
           "/proj/src/a.ts" "/proj/src/b.ts" "./a" "./b");
    try reflexivity; discriminate.
Defined.

(** ** External inclusion *)

Section External.
Context (w : world) (c : config).
Hypothesis Hinclude : includeExternal c = true.

(** With external inclusion on, nothing is ever added to the
    unresolved set. *)
Lemma unresolved_untouched fuel : ∀ st filePath d st' r,
  extractDependencies w c fuel st filePath d = Some (st', r) →
  unresolved st' = unresolved st.
Proof.
  induction fuel as [|fuel IH]; intros st filePath d st' r; [done|].
  cbn [extractDependencies].
  destruct (exceeds c d); [by intros [= <- <-]|].
  destruct (visited_at_or_above _ _ _); [by intros [= <- <-]|].
  destruct (negb _); [by intros [= <- <-]|].
  destruct (processImports _ _ _ _ _ _ _ _ _) as [[st2 deps]|] eqn:Hloop; [|done].
  intros [= <- <-]. simpl.
  apply (processImports_invariant w c _ _ _ _
           (λ a b, unresolved b = unresolved a) (λ _, True))
    in Hloop as [HQ _]; [done|done|congruence| |done].
  intros st0 imp st0' r0 Hround.
  inversion Hround as [| | |t s1 r1 _ _ _ Hcall]; subst; try done.
  - congruence.
  - by apply IH in Hcall.
Qed.
End External.

(** C3, as the code has it: with external inclusion enabled, a specifier
    the resolver gives no path for ([null], or the empty string, which
    the loop's test also takes for no answer) becomes an unexpanded leaf with
    [external = true] (no absolute path, no children) and the unresolved
    set is left alone.  A specifier the resolver answers with a path is
    traversed like a project file: the loop pushes a circular leaf when
    the path is in the visited table, and otherwise makes the recursive
    call and pushes the node that call returns (nothing when it returns
    [null]); the node pushed for it never has [external = true].
    Nothing is added to the unresolved set during the whole call. *)
Theorem external_leaf_only_when_unresolved (w : world) (c : config) (fuel : nat)
    (relativePath resolvedPath : string) (currentDepth : nat) (st : state)
    (importPath : string) :
  includeExternal c = true →
  (truthy (resolveImportPath w c (rootDir st) importPath resolvedPath) = false →
   processImport w c (extractDependencies w c fuel) relativePath resolvedPath
     currentDepth st importPath
   = Some (st, Some (external_node importPath (S currentDepth))))
  ∧ (∀ target,
       resolveImportPath w c (rootDir st) importPath resolvedPath = Some target →
       target ≠ ""%string →
       is_Some (visited st !! target) →
       processImport w c (extractDependencies w c fuel) relativePath resolvedPath
         currentDepth st importPath
       = Some (add_circularDep
                 (relativePath +:+ " -> "
                  +:+ Path.relative (cwd w) (rootDir st) target)%string st,
               Some (with_originalImport importPath
                       (circular_node (Path.relative (cwd w) (rootDir st) target)
                          target (S currentDepth)))))
  ∧ (∀ target,
       resolveImportPath w c (rootDir st) importPath resolvedPath = Some target →
       target ≠ ""%string →
       visited st !! target = None →
       processImport w c (extractDependencies w c fuel) relativePath resolvedPath
         currentDepth st importPath
       = match extractDependencies w c fuel st target (S currentDepth) with
         | None => None
         | Some (st', Some childTree) =>
             Some (st', Some (with_originalImport importPath childTree))
         | Some (st', None) => Some (st', None)
         end)
  ∧ (∀ target st' n,
       resolveImportPath w c (rootDir st) importPath resolvedPath = Some target →
       target ≠ ""%string →
       processImport w c (extractDependencies w c fuel) relativePath resolvedPath
         currentDepth st importPath = Some (st', Some n) →
       n_external n = false ∧ unresolved st' = unresolved st)
  ∧ (∀ filePath d st' r,
       extractDependencies w c fuel st filePath d = Some (st', r) →
       unresolved st' = unresolved st).
Proof.
  intros Hinclude. split; [|split; [|split; [|split]]].
  - intros Hnone. rewrite processImport_falsy by done.
    by rewrite Hinclude.
  - intros target. apply processImport_visited.
  - intros target. apply processImport_unvisited.
  - intros target st' n Hres Hne Hstep.
    apply processImport_round in Hstep.
    inversion Hstep as [Hf| |t Hres' _ _|t s1 r1 Hres' _ _ Hcall]; subst.
    + by rewrite Hres, (truthy_intro _ Hne) in Hf.
    + done.
    + destruct r1 as [n1|]; [|done]. simplify_eq/=.
      split; [|by eapply unresolved_untouched].
      apply extractDependencies_sound in Hcall as [_ Hn].
      by destruct (Hn n1 eq_refl) as (_ & -> & _).
  - intros filePath d st' r. by apply unresolved_untouched.
Qed.

Lemma external_leaf_only_when_unresolved_witness :
  includeExternal Sample.include_external = true
  ∧ resolveImportPath Sample.with_packages Sample.include_external "/proj" "ghost"
      "/proj/src/main.ts" = None
  ∧ processImport Sample.with_packages Sample.include_external
      (extractDependencies Sample.with_packages Sample.include_external 3)
      "src/main.ts" "/proj/src/main.ts" 0
      (set_rootDir "/proj" (Sample.fresh Sample.with_packages)) "ghost"
    = Some (set_rootDir "/proj" (Sample.fresh Sample.with_packages),
            Some (external_node "ghost" 1))
  ∧ resolveImportPath Sample.with_packages Sample.include_external "/proj" "left-pad"
      "/proj/src/main.ts" = Some "/proj/node_modules/left-pad/index.js"%string
  ∧ processImport Sample.with_packages Sample.include_external
      (extractDependencies Sample.with_packages Sample.include_external 3)
      "src/main.ts" "/proj/src/main.ts" 0
      (set_rootDir "/proj" (Sample.fresh Sample.with_packages)) "left-pad"
    = match extractDependencies Sample.with_packages Sample.include_external 3
              (set_rootDir "/proj" (Sample.fresh Sample.with_packages))
              "/proj/node_modules/left-pad/index.js" 1 with
      | None => None
      | Some (st', Some childTree) =>
          Some (st', Some (with_originalImport "left-pad" childTree))
      | Some (st', None) => Some (st', None)
      end.
Proof.
  destruct (external_leaf_only_when_unresolved Sample.with_packages
              Sample.include_external 3 "src/main.ts" "/proj/src/main.ts" 0
              (set_rootDir "/proj" (Sample.fresh Sample.with_packages)) "ghost"
              eq_refl) as (Hleaf & _).
  destruct (external_leaf_only_when_unresolved Sample.with_packages
              Sample.include_external 3 "src/main.ts" "/proj/src/main.ts" 0
              (set_rootDir "/proj" (Sample.fresh Sample.with_packages)) "left-pad"
              eq_refl) as (_ & _ & Hcall & _).
  refine (conj eq_refl (conj eq_refl (conj (Hleaf eq_refl) (conj eq_refl _)))).
  apply Hcall; [reflexivity | discriminate | reflexivity].
Defined.

(** On the sample, with external inclusion on: the package the host
    resolves is expanded (its own import shows up as a child) and is not
    marked external; the specifier the host cannot resolve is the one
    that becomes an external leaf, and the unresolved set stays empty. *)
Lemma resolved_package_is_expanded :
  includeExternal Sample.include_external = true
  ∧ resolveImportPath Sample.with_packages Sample.include_external "/proj"
      "left-pad" "/proj/src/main.ts"
    = Some "/proj/node_modules/left-pad/index.js"%string
  ∧ resolveImportPath Sample.with_packages Sample.include_external "/proj"
      "ghost" "/proj/src/main.ts" = None
  ∧ ∃ st' tree found child missing,
      analyze Sample.with_packages Sample.include_external
        (Sample.fresh Sample.with_packages) "src/main.ts"
      = Some (st', Returned tree)
      ∧ n_dependencies tree = [found; missing]
      ∧ n_originalImport found = Some "left-pad"%string
      ∧ n_external found = false
      ∧ n_exists found = Some true
      ∧ n_dependencies found = [child]
      ∧ n_originalImport missing = Some "ghost"%string
      ∧ n_external missing = true
      ∧ n_dependencies missing = []
      ∧ unresolved st' = [].
Proof.
  refine (conj eq_refl (conj eq_refl (conj eq_refl _))).
  eexists _, _, _, _, _. split; [vm_compute; reflexivity|].
  repeat split.
Qed.

(** ** Circular nodes *)

(** The root node of a call is circular exactly when the entry check
    fires. *)
Lemma root_circular (w : world) (c : config) fuel st filePath d st' n :
  extractDependencies w c fuel st filePath d = Some (st', Some n) →
  n_circular n = visited_at_or_above st (Path.resolve (cwd w) [filePath]) d.
Proof.
  destruct fuel; [done|]. cbn [extractDependencies].
  destruct (exceeds c d); [done|].
  destruct (visited_at_or_above _ _ _); [by intros [= <- <-]|].
  destruct (negb _); [by intros [= <- <-]|].
  destruct (processImports _ _ _ _ _ _ _ _ _) as [[??]|]; [|done].
  by intros [= <- <-].
Qed.

(** C1, as the code has it: the node pushed for an import that resolves
    to a path has [circular = true] if and only if that path was already
    in the visited table, at whatever depth, when the import was
    processed.  The path is taken to be one [path.resolve] leaves alone,
    which holds of everything the project strategies return
    ([resolveImportPath_resolved]).  In every tree a call returns, a
    circular node has no children. *)
Theorem circular_iff_already_visited (w : world) (c : config) :
  (∀ fuel relativePath resolvedPath currentDepth st importPath target st' n,
     resolveImportPath w c (rootDir st) importPath resolvedPath = Some target →
     target ≠ ""%string →
     Path.resolve (cwd w) [target] = target →
     processImport w c (extractDependencies w c fuel) relativePath resolvedPath
       currentDepth st importPath = Some (st', Some n) →
     (n_circular n = true ↔ is_Some (visited st !! target))
     ∧ (n_circular n = true → n_dependencies n = []))
  ∧ (∀ fuel st filePath d st' tree,
       extractDependencies w c fuel st filePath d = Some (st', Some tree) →
       circular_leaves tree).
Proof.
  split.
  - intros fuel rel rp d st imp target st' n Hres Hne Hnorm Hstep.
    apply processImport_round in Hstep.
    inversion Hstep as [Hf| |t Hres' _ Hv|t s1 r1 Hres' _ Hv Hcall]; subst.
    + by rewrite Hres, (truthy_intro _ Hne) in Hf.
    + rewrite Hres in Hres'. injection Hres' as <-. done.
    + rewrite Hres in Hres'. injection Hres' as <-.
      destruct r1 as [n1|]; [|done]. simplify_eq/=.
      pose proof (root_circular _ _ _ _ _ _ _ _ Hcall) as Hcirc.
      unfold visited_at_or_above in Hcirc. rewrite Hnorm, Hv in Hcirc.
      rewrite Hcirc. split; [|done]. split; [done|].
      intros [x Hx]. congruence.
  - intros fuel st filePath d st' tree Hcall.
    apply extractDependencies_sound in Hcall as [_ Hn].
    by destruct (Hn tree eq_refl) as [? _].
Qed.

Lemma circular_iff_already_visited_witness :
  resolveImportPath Sample.diamond Sample.defaults "/proj" "./c" "/proj/src/r.ts"
  = Some "/proj/src/c.ts"%string
  ∧ Path.resolve (cwd Sample.diamond) ["/proj/src/c.ts"%string] = "/proj/src/c.ts"%string
  ∧ processImport Sample.diamond Sample.defaults
      (extractDependencies Sample.diamond Sample.defaults 5)
      "src/r.ts" "/proj/src/r.ts" 0
      (mark_visited "/proj/src/c.ts" 3
         (set_rootDir "/proj" (Sample.fresh Sample.diamond))) "./c"
    = Some (add_circularDep "src/r.ts -> src/c.ts"
              (mark_visited "/proj/src/c.ts" 3
                 (set_rootDir "/proj" (Sample.fresh Sample.diamond))),
            Some (with_originalImport "./c"
                    (circular_node "src/c.ts" "/proj/src/c.ts" 1)))
  ∧ (n_circular (with_originalImport "./c"
                   (circular_node "src/c.ts" "/proj/src/c.ts" 1)) = true
     ↔ is_Some (visited (mark_visited "/proj/src/c.ts" 3
                           (set_rootDir "/proj" (Sample.fresh Sample.diamond)))
                !! "/proj/src/c.ts"%string)).
Proof.
  refine (conj eq_refl (conj eq_refl (conj eq_refl _))).
  apply (proj1 (circular_iff_already_visited Sample.diamond Sample.defaults)
           5 "src/r.ts" "/proj/src/r.ts" 0
           (mark_visited "/proj/src/c.ts" 3
              (set_rootDir "/proj" (Sample.fresh Sample.diamond)))
           "./c" "/proj/src/c.ts"
           (add_circularDep "src/r.ts -> src/c.ts"
              (mark_visited "/proj/src/c.ts" 3
                 (set_rootDir "/proj" (Sample.fresh Sample.diamond))))
           (with_originalImport "./c"
              (circular_node "src/c.ts" "/proj/src/c.ts" 1)));
    [reflexivity | discriminate | reflexivity | reflexivity].
Defined.

(** On the sample, in one run of [analyze]: when the second import of
    [r.ts] is processed (node depth 1), [c.ts] has been fully expanded
    under [b.ts] and sits in the visited table at depth 3; the node
    pushed for it is circular all the same. *)
Lemma deeper_visited_marked_circular :
  ∃ st_mid first st' n st_end tree,
    processImports Sample.diamond Sample.defaults
      (extractDependencies Sample.diamond Sample.defaults 5)
      "src/r.ts" "/proj/src/r.ts" 0
      (mark_visited "/proj/src/r.ts" 0
         (ensure_root Sample.diamond (Sample.fresh Sample.diamond) "src/r.ts"))
      ["./a"%string] []
    = Some (st_mid, [first])
    ∧ resolveImportPath Sample.diamond Sample.defaults (rootDir st_mid) "./c"
        "/proj/src/r.ts" = Some "/proj/src/c.ts"%string
    ∧ visited st_mid !! "/proj/src/c.ts"%string = Some 3
    ∧ processImport Sample.diamond Sample.defaults
        (extractDependencies Sample.diamond Sample.defaults 5)
        "src/r.ts" "/proj/src/r.ts" 0 st_mid "./c"
      = Some (st', Some n)
    ∧ n_absolutePath n = Some "/proj/src/c.ts"%string
    ∧ n_depth n = 1
    ∧ n_circular n = true
    ∧ ¬ (3 ≤ 1)
    ∧ analyze Sample.diamond Sample.defaults (Sample.fresh Sample.diamond) "src/r.ts"
      = Some (st_end, Returned tree)
    ∧ n_dependencies tree = [first; n].
Proof.
  eexists _, _, _, _, _, _.
  split; [vm_compute; reflexivity|].
  split; [vm_compute; reflexivity|].
  split; [vm_compute; reflexivity|].
  split; [vm_compute; reflexivity|].
  split; [reflexivity|]. split; [reflexivity|]. split; [reflexivity|].
  split; [lia|].
  split; [vm_compute; reflexivity|]. reflexivity.
Qed.

(** ** Alias specifiers in the loop *)

(** C10: alias applicability is plain prefix matching.  A specifier whose
    text begins with an alias key mapped to a project path is claimed by
    the alias strategy, whatever follows the key, and is resolved by
    extension/index resolution of the root joined with the target
    concatenated with the remaining characters.  The host loader and the
    external-inclusion flag play no part in the answer.  What the import
    loop does with the answer is what it does for any specifier: when
    the resolution finds nothing the specifier becomes an external leaf
    (external inclusion on) or enters the unresolved set (external
    inclusion off); when it finds a path the loop pushes a circular
    leaf for a visited path and otherwise the node of the recursive
    call, neither of them external. *)
Theorem alias_is_prefix_match (w : world) (c : config)
    (root importPath fromFile alias target : string) :
  first_alias c importPath = Some (alias, target) →
  startsWith target "@sveltejs/kit" = false →
  isSvelteAlias c importPath = true
  ∧ resolveImportPath w c root importPath fromFile
    = tryResolveWithExtensions w c
        (Path.resolve (cwd w)
           [root; (target +:+ substring_from (String.length alias) importPath)%string])
  ∧ (∀ loader flag,
       resolveImportPath (with_require_resolve w loader) (with_includeExternal c flag)
         root importPath fromFile
       = resolveImportPath w c root importPath fromFile)
  ∧ (∀ fuel relativePath currentDepth st,
       rootDir st = root →
       truthy (tryResolveWithExtensions w c
                 (Path.resolve (cwd w)
                    [root; (target +:+ substring_from (String.length alias)
                                         importPath)%string])) = false →
       processImport w c (extractDependencies w c fuel) relativePath fromFile
         currentDepth st importPath
       = if includeExternal c
         then Some (st, Some (external_node importPath (S currentDepth)))
         else Some (add_unresolved importPath st, None))
  ∧ (∀ fuel relativePath currentDepth st p,
       rootDir st = root →
       tryResolveWithExtensions w c
         (Path.resolve (cwd w)
            [root; (target +:+ substring_from (String.length alias)
                                 importPath)%string]) = Some p →
       p ≠ ""%string →
       (is_Some (visited st !! p) →
        processImport w c (extractDependencies w c fuel) relativePath fromFile
          currentDepth st importPath
        = Some (add_circularDep
                  (relativePath +:+ " -> "
                   +:+ Path.relative (cwd w) (rootDir st) p)%string st,
                Some (with_originalImport importPath
                        (circular_node (Path.relative (cwd w) (rootDir st) p)
                           p (S currentDepth)))))
       ∧ (visited st !! p = None →
          processImport w c (extractDependencies w c fuel) relativePath fromFile
            currentDepth st importPath
          = match extractDependencies w c fuel st p (S currentDepth) with
            | None => None
            | Some (st', Some childTree) =>
                Some (st', Some (with_originalImport importPath childTree))
            | Some (st', None) => Some (st', None)
            end)
       ∧ ∀ st' n,
           processImport w c (extractDependencies w c fuel) relativePath fromFile
             currentDepth st importPath = Some (st', Some n) →
           n_external n = false).
Proof.
  intros Hfirst Hproj.
  destruct (first_alias_claims _ _ _ _ Hfirst) as [Hclaim _].
  split; [done|].
  assert (Hres : ∀ w' c', svelteAliases c' = svelteAliases c →
            resolveImportPath w' c' root importPath fromFile
            = tryResolveWithExtensions w' c'
                (Path.resolve (cwd w')
                   [root; (target +:+ substring_from (String.length alias) importPath)%string])).
  { intros w' c' Hal. unfold resolveImportPath.
    assert (Hc' : isSvelteAlias c' importPath = true)
      by (unfold isSvelteAlias in *; by rewrite Hal).
    rewrite Hc'.
    rewrite (resolveSvelteAlias_first w' c' root importPath alias target),
      Hproj; [done|].
    unfold first_alias in *. by rewrite Hal. }
  split; [by apply Hres|].
  split; [intros loader flag; by rewrite !Hres|].
  split.
  - intros fuel relativePath currentDepth st <- Hnothing.
    apply processImport_falsy. by rewrite Hres.
  - intros fuel relativePath currentDepth st p <- Hfound Hne.
    assert (Hanswer : resolveImportPath w c (rootDir st) importPath fromFile = Some p)
      by (by rewrite Hres).
    split; [by apply processImport_visited|].
    split; [by apply processImport_unvisited|].
    intros st' n Hstep. apply processImport_round in Hstep.
    inversion Hstep as [Hf|Hf|t Hres' _ _|t s1 r1 Hres' _ _ Hcall]; subst.
    + by rewrite Hanswer, (truthy_intro _ Hne) in Hf.
    + done.
    + destruct r1 as [n1|]; [|done]. simplify_eq/=.
      apply extractDependencies_sound in Hcall as [_ Hn].
      by destruct (Hn n1 eq_refl) as (_ & -> & _).
Qed.

Lemma alias_is_prefix_match_witness :
  first_alias Sample.defaults "$libfoo" = Some ("$lib", "src/lib")%string
  ∧ startsWith "src/lib" "@sveltejs/kit" = false
  ∧ resolveImportPath Sample.lib_project Sample.defaults
      "/proj" "$libfoo" "/proj/src/main.ts" = Some "/proj/src/libfoo.ts"%string
  ∧ resolveImportPath
      (with_require_resolve Sample.lib_project Sample.found_everywhere)
      (with_includeExternal Sample.defaults true)
      "/proj" "$libfoo" "/proj/src/main.ts" = Some "/proj/src/libfoo.ts"%string.
Proof.
  refine (conj eq_refl (conj eq_refl _)).
  destruct (alias_is_prefix_match Sample.lib_project Sample.defaults
              "/proj" "$libfoo" "/proj/src/main.ts" "$lib" "src/lib"
              eq_refl eq_refl) as (_ & Hres & Hsame & _).
  split.
  - rewrite Hres. reflexivity.
  - rewrite Hsame, Hres. reflexivity.
Defined.

(** On the sample: [$libfoo] begins with the key [$lib], which maps to a
    project path, and nothing is found for it.  With external inclusion
    on it becomes an [external = true] leaf next to the one of the bare
    module [left-pad]; with external inclusion off both are recorded
    in the unresolved set. *)
Lemma unresolved_alias_is_external :
  first_alias Sample.defaults "$libfoo" = Some ("$lib", "src/lib")%string
  ∧ startsWith "src/lib" "@sveltejs/kit" = false
  ∧ (∃ st' tree,
       analyze Sample.alias_miss Sample.include_external
         (Sample.fresh Sample.alias_miss) "src/main.ts"
       = Some (st', Returned tree)
       ∧ n_dependencies tree
         = [external_node "$libfoo" 1; external_node "left-pad" 1]
       ∧ n_external (external_node "$libfoo" 1) = true)
  ∧ (∃ st' tree,
       analyze Sample.alias_miss Sample.defaults
         (Sample.fresh Sample.alias_miss) "src/main.ts"
       = Some (st', Returned tree)
       ∧ n_dependencies tree = []
       ∧ unresolved st' = ["$libfoo"; "left-pad"]%string).
Proof.
  refine (conj eq_refl (conj eq_refl (conj _ _))).
  - eexists _, _. split; [vm_compute; reflexivity|]. split; reflexivity.
  - eexists _, _. split; [vm_compute; reflexivity|]. split; reflexivity.
Qed.


(** * Further properties *)

(** ** Reading a file *)

Lemma content_is_gated_aux (w : world) (c : config) (filePath : string) :
  (fi_isText (getFileInfo w c filePath) = true
   ↔ ∃ size text,
       fs w !! filePath = Some (File size (Some text))
       ∧ isBinaryFile filePath = false
       ∧ (size ≤ maxContentLength c * 4)%N)
  ∧ (∀ size text,
       fs w !! filePath = Some (File size (Some text)) →
       isBinaryFile filePath = false →
       (size ≤ maxContentLength c * 4)%N →
       getFileInfo w c filePath = FileInfo size text true None)
  ∧ (fi_isText (getFileInfo w c filePath) = false →
     fi_content (getFileInfo w c filePath) = ""%string).
Proof.
  unfold getFileInfo.
  destruct (fs w !! filePath) as [e|] eqn:He.
  2:{ split; [|split]; [|done|done]. split; [done|]. by intros (? & ? & ? & _). }
  destruct (isBinaryFile filePath) eqn:Hbin.
  { split; [|split]; [|done|done]. split; [done|]. by intros (? & ? & _ & ? & _). }
  destruct e as [size [text|]|size].
  - destruct (maxContentLength c * 4 <? size)%N eqn:Hbig.
    + apply N.ltb_lt in Hbig. split; [|split]; [| |done].
      * split; [done|]. intros (s & t & [= <- <-] & _ & Hle). lia.
      * intros s t [= <- <-] _ Hle. lia.
    + apply N.ltb_ge in Hbig. split; [|split]; [| |done].
      * split; [|done]. intros _. by exists size, text.
      * by intros s t [= <- <-] _ _.
  - destruct (maxContentLength c * 4 <? size)%N;
      (split; [|split]; [|done|done]); split; try done;
      by intros (? & ? & ? & _).
  - destruct (maxContentLength c * 4 <? size)%N;
      (split; [|split]; [|done|done]); split; try done;
      by intros (? & ? & ? & _).
Qed.



(** X2: a file whose content is not read is a leaf.  For an existing
    file that passes the depth and visited checks but whose content is
    gated away (binary extension, over the size ceiling, read error, a
    directory), the call marks it visited, registers it and returns a
    node with [exists = true], empty content, an import count of 0 and
    no children: nothing in it is scanned or resolved.  For a binary
    extension the skip reason is "Binary file". *)
Theorem unread_file_is_leaf (w : world) (c : config) (fuel : nat) (st : state)
    (filePath : string) (d : nat) :
  exceeds c d = false →
  visited_at_or_above st (Path.resolve (cwd w) [filePath]) d = false →
  existsSync w (Path.resolve (cwd w) [filePath]) = true →
  fi_isText (getFileInfo w c (Path.resolve (cwd w) [filePath])) = false →
  ∃ n,
    extractDependencies w c (S fuel) st filePath d
    = Some (register_file (Path.resolve (cwd w) [filePath]) n
              (mark_visited (Path.resolve (cwd w) [filePath]) d st),
            Some n)
    ∧ n_exists n = Some true
    ∧ n_content n = Some ""%string
    ∧ n_importCount n = Some 0
    ∧ n_dependencies n = []
    ∧ n_skipReason n = fi_skipReason (getFileInfo w c (Path.resolve (cwd w) [filePath]))
    ∧ (isBinaryFile (Path.resolve (cwd w) [filePath]) = true →
       n_skipReason n = Some BinaryFile).
Proof.
  intros Hdepth Hvis Hex Htext.
  rewrite extractDependencies_expands by done. cbv zeta.
  pose proof (proj2 (proj2 (content_is_gated_aux w c (Path.resolve (cwd w) [filePath])))
                Htext) as Hempty.
  rewrite Hempty. unfold parseImports at 1 2. cbn [String.eqb processImports].
  eexists. split; [reflexivity|]. simpl. rewrite Hempty.
  repeat split. intros Hbin. unfold getFileInfo. rewrite Hbin.
  unfold existsSync in Hex. by destruct (fs w !! _).
Qed.

Lemma unread_file_is_leaf_witness :
  exceeds Sample.defaults 1 = false
  ∧ existsSync Sample.with_asset (Path.resolve (cwd Sample.with_asset) ["/proj/src/logo.png"%string]) = true
  ∧ fi_isText (getFileInfo Sample.with_asset Sample.defaults
                 (Path.resolve (cwd Sample.with_asset) ["/proj/src/logo.png"%string])) = false
  ∧ isBinaryFile (Path.resolve (cwd Sample.with_asset) ["/proj/src/logo.png"%string]) = true
  ∧ ∃ st' n,
      extractDependencies Sample.with_asset Sample.defaults 3
        (Sample.fresh Sample.with_asset) "/proj/src/logo.png" 1 = Some (st', Some n)
      ∧ n_dependencies n = []
      ∧ n_skipReason n = Some BinaryFile.
Proof.
  refine (conj eq_refl (conj eq_refl (conj eq_refl (conj eq_refl _)))).
  destruct (unread_file_is_leaf Sample.with_asset Sample.defaults 2
              (Sample.fresh Sample.with_asset) "/proj/src/logo.png" 1
              eq_refl eq_refl eq_refl eq_refl)
    as (n & Hrun & _ & _ & _ & Hdeps & _ & Hbin).
  eexists _, n. exact (conj Hrun (conj Hdeps (Hbin eq_refl))).
Defined.

(** ** Scanning imports *)

(** *** [trim] *)

Lemma startsWith_length : ∀ p s,
  startsWith s p = true → String.length p ≤ String.length s.
Proof.
  induction p as [|a p IH]; intros s; [simpl; lia|].
  destruct s as [|b s]; cbn [startsWith String.length]; [done|].
  intros [_ Hrest]%andb_prop. apply IH in Hrest. lia.
Qed.

Lemma length_substring_from : ∀ k s,
  String.length (substring_from k s) = String.length s - k.
Proof.
  induction k as [|k IH]; intros s; cbn [substring_from]; [lia|].
  destruct s as [|b s]; cbn [String.length]; [done|]. by rewrite IH.
Qed.

Lemma strip_one_shorter (spaces : list string) (s r : string) :
  Forall (λ space, space ≠ ""%string) spaces →
  strip_one spaces s = Some r → String.length r < String.length s.
Proof.
  intros Hspaces. unfold strip_one.
  destruct (List.find (startsWith s) spaces) as [space|] eqn:Hfind; [|done].
  intros [= <-]. apply find_some in Hfind as [Hin Hprefix].
  apply startsWith_length in Hprefix. rewrite length_substring_from.
  rewrite Forall_forall in Hspaces.
  specialize (Hspaces space (proj2 (list_elem_of_In _ _) Hin)).
  destruct space; [done|]. simpl in *. lia.
Qed.

(** The rounds [trim] allows are enough: what is left starts with no
    white space. *)
Lemma strip_all_done (spaces : list string) :
  Forall (λ space, space ≠ ""%string) spaces →
  ∀ rounds s, String.length s ≤ rounds →
              strip_one spaces (strip_all spaces rounds s) = None.
Proof.
  intros Hspaces. induction rounds as [|rounds IH]; intros s Hlen.
  - destruct s; [|simpl in Hlen; lia]. cbn [strip_all].
    destruct (strip_one spaces "") as [r|] eqn:Hstrip; [|done].
    apply (strip_one_shorter _ _ _ Hspaces) in Hstrip. simpl in Hstrip. lia.
  - cbn [strip_all]. destruct (strip_one spaces s) as [r|] eqn:Hstrip; [|done].
    apply IH. apply (strip_one_shorter _ _ _ Hspaces) in Hstrip. lia.
Qed.

Lemma whiteSpace_nonempty : Forall (λ space, space ≠ ""%string) whiteSpace.
Proof.
  apply Forall_forall. intros space Hin.
  repeat (apply elem_of_cons in Hin as [->|Hin]; [done|]).
  by apply elem_of_nil in Hin.
Qed.

Lemma length_rev_app : ∀ s1 s2,
  String.length (String.rev_app s1 s2) = String.length s1 + String.length s2.
Proof.
  induction s1 as [|a s1 IH]; intros s2; cbn [String.rev_app String.length]; [done|].
  rewrite IH. simpl. lia.
Qed.

Lemma trim_start_done s : strip_one whiteSpace (trim_start s) = None.
Proof. apply strip_all_done; [apply whiteSpace_nonempty | done]. Qed.

Lemma trim_end_done s :
  ∃ r, trim_end s = String.rev r
       ∧ strip_one (map String.rev whiteSpace) r = None.
Proof.
  unfold trim_end. eexists. split; [reflexivity|]. apply strip_all_done.
  - apply Forall_forall. intros space Hin.
    repeat (apply elem_of_cons in Hin as [->|Hin]; [done|]).
    by apply elem_of_nil in Hin.
  - unfold String.rev. rewrite length_rev_app. simpl. lia.
Qed.

Lemma set_add_elem x y s : x ∈ set_add y s ↔ x ∈ s ∨ x = y.
Proof.
  unfold set_add. case_bool_decide as Hy.
  - split; [by left|]. intros [?| ->]; done.
  - rewrite elem_of_app, list_elem_of_singleton. done.
Qed.

Lemma set_add_NoDup y s : NoDup s → NoDup (set_add y s).
Proof.
  intros Hs. unfold set_add. case_bool_decide as Hy; [done|].
  apply NoDup_app. split; [done|]. split; [|apply NoDup_singleton].
  intros x Hx ->%list_elem_of_singleton. done.
Qed.

Lemma add_all_spec (l acc : list string) :
  (NoDup acc → NoDup (fold_left (λ s imp, set_add imp s) l acc))
  ∧ ∀ x, x ∈ fold_left (λ s imp, set_add imp s) l acc ↔ x ∈ acc ∨ x ∈ l.
Proof.
  revert acc. induction l as [|y l IH]; intros acc; simpl.
  - split; [done|]. intros x. rewrite elem_of_nil. tauto.
  - destruct (IH (set_add y acc)) as [Hnd Hel]. split.
    + intros Hacc. by apply Hnd, set_add_NoDup.
    + intros x. rewrite Hel, set_add_elem, elem_of_cons. tauto.
Qed.

Lemma scan_lines_spec (w : world) (lines acc : list string) :
  (NoDup acc →
   NoDup (fold_left (λ imports line,
                       fold_left (λ s imp, set_add imp s)
                                 (extractImportsFromLine w line) imports)
                    lines acc))
  ∧ ∀ x, x ∈ fold_left (λ imports line,
                          fold_left (λ s imp, set_add imp s)
                                    (extractImportsFromLine w line) imports)
                       lines acc
         ↔ x ∈ acc ∨ ∃ line, line ∈ lines ∧ x ∈ extractImportsFromLine w line.
Proof.
  revert acc. induction lines as [|l lines IH]; intros acc; simpl.
  - split; [done|]. intros x. split; [by left|].
    intros [?|(? & []%elem_of_nil & _)]; done.
  - destruct (IH (fold_left (λ s imp, set_add imp s)
                    (extractImportsFromLine w l) acc)) as [Hnd Hel].
    destruct (add_all_spec (extractImportsFromLine w l) acc) as [Hnd1 Hel1].
    split; [by intros ?; apply Hnd, Hnd1|].
    intros x. rewrite Hel, Hel1. split.
    + intros [[?|?]|(line & ? & ?)]; [by left| |].
      * right. exists l. split; [by left|done].
      * right. exists line. split; [by right|done].
    + intros [?|(line & [->|?]%elem_of_cons & ?)]; [by left;left|by left;right|].
      right. by exists line.
Qed.

(** X3: [parseImports] returns a set.  No specifier is listed twice,
    and a specifier is listed exactly when the content is not empty and
    [extractImportsFromLine] finds it on some line of the scanned text
    that, once trimmed, is neither blank nor the start of a comment
    ([//], [/*], [*]). *)
Theorem parseImports_is_a_set (w : world) (content fileName : string) :
  NoDup (parseImports w content fileName)
  ∧ ∀ x, x ∈ parseImports w content fileName
         ↔ content ≠ ""%string
           ∧ ∃ line, line ∈ split_lines (scanned_text w content fileName)
                     ∧ is_comment_line (trim line) = false
                     ∧ x ∈ extractImportsFromLine w (trim line).
Proof.
  unfold parseImports, scanned_text.
  destruct (String.eqb content "") eqn:Hc.
  { apply String.eqb_eq in Hc. split; [constructor|].
    intros x. rewrite elem_of_nil. split; [done|]. by intros [? _]. }
  apply String.eqb_neq in Hc.
  match goal with
  | |- context [fold_left _ ?ls []] =>
      destruct (scan_lines_spec w ls []) as [Hnd Hel]
  end.
  split; [apply Hnd; constructor|].
  intros x. rewrite Hel, elem_of_nil. split.
  - intros [[]|(line & Hin & Hx)]. split; [done|].
    apply list_elem_of_filter in Hin as [Hkeep Hin].
    apply list_elem_of_fmap in Hin as (raw & -> & Hraw).
    by exists raw.
  - intros (_ & raw & Hraw & Hkeep & Hx). right. exists (trim raw).
    split; [|done]. apply list_elem_of_filter. split; [done|].
    apply list_elem_of_fmap. by exists raw.
Qed.

(** ** The shape of the trees *)

Lemma node_nested_ind (P : node → Prop) :
  (∀ n, Forall P (n_dependencies n) → P n) → ∀ n, P n.
Proof.
  intros H. fix IH 1. intros n. apply H.
  destruct n as [? ? ? ? ? ? ? ? deps ? ? ? ? ?]. simpl.
  revert deps. fix IHl 1. intros [|k deps]; constructor; [apply IH | apply IHl].
Qed.

Lemma subtrees_Forall (P : node → Prop) n :
  P n → Forall (λ k, Forall P (subtrees k)) (n_dependencies n) →
  Forall P (subtrees n).
Proof.
  intros Hn Hdeps. rewrite subtrees_unfold. constructor; [done|].
  induction (n_dependencies n) as [|m l IH]; simpl; [constructor|].
  apply Forall_cons in Hdeps as [Hm Hl].
  apply Forall_app. split; [apply Hm | by apply IH].
Qed.

Lemma subtrees_Forall_inv (P : node → Prop) n :
  Forall P (subtrees n) →
  P n ∧ Forall (λ k, Forall P (subtrees k)) (n_dependencies n).
Proof.
  rewrite subtrees_unfold. intros [Hn Hrest]%Forall_cons. split; [done|].
  induction (n_dependencies n) as [|m l IH]; simpl in *; [constructor|].
  apply Forall_app in Hrest as [Hm Hl]. constructor; [done | by apply IH].
Qed.

Lemma subtrees_originalImport (P : node → Prop) imp n :
  (P n → P (with_originalImport imp n)) →
  Forall P (subtrees n) → Forall P (subtrees (with_originalImport imp n)).
Proof.
  intros HP. rewrite !subtrees_unfold. simpl.
  intros [Hn Hrest]%Forall_cons. constructor; [by apply HP | done].
Qed.

Section Shapes.
Context (w : world) (c : config).

Lemma built_originalImport imp n : built w c n → built w c (with_originalImport imp n).
Proof. intros [? ? ? ? ? ? ?]. by constructor. Qed.

Lemma built_circular rel p d : built w c (circular_node rel p d).
Proof. constructor; simpl; try done; eauto. Qed.

Lemma built_external_node imp d : built w c (external_node imp d).
Proof. constructor; simpl; try done; eauto. Qed.

Lemma built_missing_node rel p d :
  existsSync w p = false → exceeds c d = false → built w c (missing_node rel p d).
Proof.
  intros Hex Hd. constructor; simpl; try done; eauto.
  intros _. exists p. done.
Qed.

Lemma built_file_node rel p d deps count :
  existsSync w p = true → exceeds c d = false →
  Forall (λ k, n_depth k = S d) deps →
  built w c (file_node rel p d deps (getFileInfo w c p) count).
Proof.
  intros Hex Hd Hdeps. constructor; simpl; try done; eauto.
  intros _. exists p. done.
Qed.

(** Every node of a tree [extractDependencies] returns has one of the
    four shapes, carries what [getFileInfo] read, and sits one level
    below its parent. *)
Lemma extractDependencies_well_built fuel : ∀ st filePath d st' n,
  extractDependencies w c fuel st filePath d = Some (st', Some n) →
  well_built w c n ∧ n_depth n = d ∧ exceeds c d = false.
Proof.
  induction fuel as [|fuel IH]; intros st filePath d st' n; [done|].
  cbn [extractDependencies].
  destruct (exceeds c d) eqn:Hd; [done|].
  destruct (visited_at_or_above st _ d) eqn:Hvis.
  { intros [= <- <-]. split; [|done].
    apply subtrees_Forall; [apply built_circular | constructor]. }
  destruct (negb (existsSync w _)) eqn:Hex.
  { intros [= <- <-]. split; [|done]. apply negb_true_iff in Hex.
    apply subtrees_Forall; [by apply built_missing_node | constructor]. }
  apply negb_false_iff in Hex.
  destruct (processImports _ _ _ _ _ _ _ _ _) as [[st2 deps]|] eqn:Hloop; [|done].
  intros [= <- <-].
  apply (processImports_invariant w c _ _ _ _ (λ _ _, True)
           (λ k, well_built w c k ∧ n_depth k = S d))
    in Hloop as [_ HP]; [|done|done|done|].
  - specialize (HP (Forall_nil_2 _)). split; [|done].
    apply subtrees_Forall; simpl.
    + apply built_file_node; [done|done|].
      eapply Forall_impl; [exact HP|]. by intros k [_ ?].
    + eapply Forall_impl; [exact HP|]. by intros k [? _].
  - intros st0 imp st0' k Hround.
    inversion Hround as [| | |t s1 r1 _ _ _ Hcall]; subst.
    + split; [|done].
      apply subtrees_Forall; [apply built_external_node | constructor].
    + split; [|done].
      apply subtrees_originalImport; [apply built_originalImport|].
      apply subtrees_Forall; [apply built_circular | constructor].
    + destruct r1 as [n1|]; [|done]. simplify_eq/=.
      apply IH in Hcall as (Hwb & Hdepth & _). split; [|done].
      by apply subtrees_originalImport; [apply built_originalImport|].
Qed.
End Shapes.

Lemma exceeds_spec c mx d :
  maxDepth c = Some mx → exceeds c d = false ↔ (Z.of_nat d ≤ mx)%Z.
Proof. intros Hmx. unfold exceeds. rewrite Hmx. apply Z.ltb_ge. Qed.

Lemma depth_bound_aux (w : world) (c : config) (mx : Z) (d : nat) :
  maxDepth c = Some mx →
  ∀ t, well_built w c t →
       d ≤ n_depth t → (Z.of_nat (n_depth t) ≤ mx + 1)%Z →
       Forall (λ m, d ≤ n_depth m
                    ∧ (Z.of_nat (n_depth m) ≤ mx + 1)%Z
                    ∧ ((mx < Z.of_nat (n_depth m))%Z →
                       n_dependencies m = [] ∧ n_exists m = None
                       ∧ (n_circular m = true ∨ n_external m = true)))
              (subtrees t).
Proof.
  intros Hmx t. induction t as [t IHt] using node_nested_ind.
  intros Hwb Hlow Hhigh.
  apply subtrees_Forall_inv in Hwb as [Hb Hdeps].
  assert (Hcall : n_exists t ≠ None → (Z.of_nat (n_depth t) ≤ mx)%Z).
  { destruct (n_exists t) as [[|]|] eqn:Hex; [| |done]; intros _.
    - destruct (built_file _ _ _ Hb Hex) as (p & _ & _ & _ & _ & _ & _ & _ & _ & _ & Hd).
      by apply (exceeds_spec c mx) in Hd.
    - destruct (built_missing _ _ _ Hb Hex) as (p & _ & _ & _ & _ & Hd).
      by apply (exceeds_spec c mx) in Hd. }
  apply subtrees_Forall.
  - split; [done|]. split; [done|]. intros Hover.
    assert (Hnone : n_exists t = None).
    { destruct (n_exists t) eqn:Hex; [|done]. specialize (Hcall ltac:(done)). lia. }
    split; [apply (built_leaf _ _ _ Hb); congruence|].
    split; [done|]. by apply (built_marker _ _ _ Hb).
  - pose proof (built_children _ _ _ Hb) as Hchildren.
    pose proof (built_leaf _ _ _ Hb) as Hleaf.
    destruct (n_dependencies t) as [|k0 deps0] eqn:Hd0; [constructor|].
    assert (Hroot : (Z.of_nat (n_depth t) ≤ mx)%Z).
    { apply Hcall. intros Hnone. assert (He : n_exists t ≠ Some true) by congruence.
      by specialize (Hleaf He). }
    rewrite Forall_forall in IHt, Hdeps, Hchildren. apply Forall_forall.
    intros k Hk. specialize (Hchildren k Hk).
    apply (IHt k Hk (Hdeps k Hk)); lia.
Qed.

(** X4: the depth limit bounds the tree.  In the tree a call at depth [d]
    returns under a maximum depth [mx], every node lies between depth [d]
    and [mx + 1]; a node beyond the limit, at depth [mx + 1], is a leaf
    pushed by its parent without a call: a circular marker or an external
    marker, never an expanded or missing file. *)
Theorem depth_limit_bounds_tree (w : world) (c : config) (fuel : nat)
    (st : state) (filePath : string) (d : nat) (st' : state) (t : node) (mx : Z) :
  maxDepth c = Some mx →
  extractDependencies w c fuel st filePath d = Some (st', Some t) →
  Forall (λ m, d ≤ n_depth m
               ∧ (Z.of_nat (n_depth m) ≤ mx + 1)%Z
               ∧ ((mx < Z.of_nat (n_depth m))%Z →
                  n_dependencies m = [] ∧ n_exists m = None
                  ∧ (n_circular m = true ∨ n_external m = true)))
         (subtrees t).
Proof.
  intros Hmx Hrun.
  apply extractDependencies_well_built in Hrun as (Hwb & Hdepth & Hd).
  apply (exceeds_spec c mx) in Hd; [|done].
  apply (depth_bound_aux w c mx d Hmx t Hwb); lia.
Qed.

Lemma depth_limit_bounds_tree_witness :
  maxDepth Sample.max_depth_one = Some 1%Z
  ∧ ∃ st' t,
      extractDependencies Sample.cycle Sample.max_depth_one 4
        (set_rootDir "/proj" (Sample.fresh Sample.cycle)) "src/a.ts" 0
      = Some (st', Some t)
      ∧ Forall (λ m, 0 ≤ n_depth m
                     ∧ (Z.of_nat (n_depth m) ≤ 1 + 1)%Z
                     ∧ ((1 < Z.of_nat (n_depth m))%Z →
                        n_dependencies m = [] ∧ n_exists m = None
                        ∧ (n_circular m = true ∨ n_external m = true)))
               (subtrees t)
      ∧ Exists (λ m, n_depth m = 2 ∧ n_circular m = true) (subtrees t).
Proof.
  split; [reflexivity|]. eexists _, _.
  split; [vm_compute; reflexivity|]. split.
  - eapply (depth_limit_bounds_tree Sample.cycle Sample.max_depth_one 4
              (set_rootDir "/proj" (Sample.fresh Sample.cycle)) "src/a.ts" 0);
      [reflexivity | vm_compute; reflexivity].
  - apply (bool_decide_unpack _). vm_compute. exact I.
Defined.

(** ** Every file is expanded once *)

#[local] Set Warnings "-clear-no-such-hyp".

Section LoopFold.
Context (w : world) (c : config).
Context (rec : state → string → nat → option (state * option node)).
Context (relativePath resolvedPath : string) (currentDepth : nat).

(** Induction over the import loop with an invariant on the state and
    the children pushed so far. *)
Lemma processImports_fold (I : state → list node → Prop) :
  (∀ st deps imp st' r,
     I st deps →
     round w c rec relativePath resolvedPath currentDepth st imp st' r →
     I st' (deps ++ pushed r)) →
  ∀ imports st deps st' deps',
    I st deps →
    processImports w c rec relativePath resolvedPath currentDepth st imports deps
    = Some (st', deps') →
    I st' deps'.
Proof.
  intros Hround. induction imports as [|imp imports IH];
    intros st deps st' deps' HI; simpl.
  - by intros [= <- <-].
  - destruct (processImport _ _ _ _ _ _ st imp) as [[st1 r1]|] eqn:Hstep; [|done].
    apply processImport_round in Hstep.
    pose proof (Hround _ _ _ _ _ HI Hstep) as HI1.
    destruct r1 as [n|]; simpl in HI1; [|rewrite app_nil_r in HI1]; by apply IH.
Qed.
End LoopFold.

Lemma expanded_unfold n :
  expanded n
  = match n_exists n, n_absolutePath n with
    | Some true, Some p => [p]
    | _, _ => []
    end ++ flat_map expanded (n_dependencies n).
Proof. by destruct n. Qed.

Lemma expanded_originalImport imp n : expanded (with_originalImport imp n) = expanded n.
Proof. by rewrite !expanded_unfold. Qed.

Lemma flat_map_snoc {A B} (f : A → list B) l x :
  flat_map f (l ++ [x]) = flat_map f l ++ f x.
Proof. rewrite flat_map_app. simpl. by rewrite app_nil_r. Qed.

Lemma adds_expanded_nil st st' :
  visited st' = visited st → allFiles st' = allFiles st → adds_expanded st st' [].
Proof.
  intros Hv Ha. split; [constructor|]. split; [by intros ? ?%elem_of_nil|].
  rewrite Hv, Ha. simpl. split; set_solver.
Qed.

Lemma adds_expanded_app st1 st2 st3 l1 l2 :
  adds_expanded st1 st2 l1 → adds_expanded st2 st3 l2 →
  adds_expanded st1 st3 (l1 ++ l2).
Proof.
  intros (Hnd1 & Hfresh1 & Hv1 & Ha1) (Hnd2 & Hfresh2 & Hv2 & Ha2).
  assert (Hin1 : ∀ p, p ∈ l1 → is_Some (visited st2 !! p)).
  { intros p Hp. apply elem_of_dom. rewrite Hv1. set_solver. }
  split; [|split; [|split]].
  - apply NoDup_app. split; [done|]. split; [|done].
    intros p Hp1 Hp2. destruct (Hin1 p Hp1) as [v Hv].
    by rewrite (Hfresh2 p Hp2) in Hv.
  - intros p [Hp|Hp]%elem_of_app; [by apply Hfresh1|].
    apply not_elem_of_dom. intros Hd.
    assert (p ∈ dom (visited st2)) as Hd2 by (rewrite Hv1; set_solver).
    apply elem_of_dom in Hd2 as [v Hv]. by rewrite (Hfresh2 p Hp) in Hv.
  - rewrite Hv2, Hv1, list_to_set_app_L. set_solver.
  - rewrite Ha2, Ha1, list_to_set_app_L. set_solver.
Qed.

Section ExpandedOnce.
Context (w : world) (c : config).
Hypothesis Hresolved : resolves_to_resolved w c.

Lemma extractDependencies_adds fuel : ∀ st filePath d st' r,
  extractDependencies w c fuel st filePath d = Some (st', r) →
  visited st !! Path.resolve (cwd w) [filePath] = None →
  adds_expanded st st' (expanded_of r).
Proof.
  induction fuel as [|fuel IH]; intros st filePath d st' r; [done|].
  cbn [extractDependencies].
  destruct (exceeds c d); [by intros [= <- <-] _; apply adds_expanded_nil|].
  destruct (visited_at_or_above st _ d) eqn:Hvis;
    [by intros [= <- <-] _; apply adds_expanded_nil|].
  destruct (negb (existsSync w _)) eqn:Hex;
    [by intros [= <- <-] _; apply adds_expanded_nil|].
  set (rp := Path.resolve (cwd w) [filePath]) in *.
  destruct (processImports _ _ _ _ _ _ _ _ _) as [[st2 deps]|] eqn:Hloop; [|done].
  intros [= <- <-] Hfresh.
  apply (processImports_fold w c _ _ _ _
           (λ s ds, adds_expanded (mark_visited rp d st) s (flat_map expanded ds)))
    in Hloop.
  - destruct Hloop as (Hnd & Hnew & Hv & Ha).
    unfold expanded_of. rewrite expanded_unfold.
    cbn [n_exists n_absolutePath n_dependencies file_node visited allFiles
         register_file mark_visited app] in *.
    rewrite dom_insert_L in Hv. unfold adds_expanded.
    cbn [visited allFiles register_file].
    assert (Hrp : rp ∉ flat_map expanded deps).
    { intros Hin. specialize (Hnew rp Hin). by rewrite lookup_insert_eq in Hnew. }
    split; [|split; [|split]].
    + by constructor.
    + intros p [->|Hp]%elem_of_cons; [done|].
      specialize (Hnew p Hp).
      destruct (decide (p = rp)) as [->|Hne];
        [by rewrite lookup_insert_eq in Hnew | by rewrite lookup_insert_ne in Hnew].
    + rewrite Hv. set_solver.
    + rewrite dom_insert_L, Ha. set_solver.
  - intros s ds imp s' r0 HI Hround. rewrite flat_map_app.
    eapply adds_expanded_app; [exact HI|].
    inversion Hround as [| | |t s1 r1 Hres _ Hv Hcall]; subst;
      try (by apply adds_expanded_nil).
    apply IH in Hcall; [|by rewrite (Hresolved _ _ _ _ Hres)].
    destruct r1 as [n1|];
      cbn [fmap option_fmap option_map pushed flat_map expanded_of] in *;
      [|done].
    by rewrite app_nil_r, expanded_originalImport.
  - by apply adds_expanded_nil.
Qed.
End ExpandedOnce.

Lemma ensure_root_allFiles w st filePath :
  allFiles (ensure_root w st filePath) = allFiles st.
Proof.
  unfold ensure_root, autoDetectProjectRoot.
  repeat (case_match; simpl; try done).
Qed.

Lemma normal_results_resolved (w : world) (c : config) :
  Path.isAbsolute (cwd w) = true →
  Forall (λ ext, Path.plain ext = true) (extensions c) →
  (∀ request base p, require_resolve w request base = Some p → Path.normal p) →
  resolves_to_resolved w c.
Proof.
  intros Hcwd Hext Hhost root imp from p Hres.
  by apply (resolveImportPath_resolved w c Hcwd Hext Hhost) in Hres as [_ ?].
Qed.

Lemma analyze_adds (w : world) (c : config) (st : state)
    (filePath : string) (st' : state) (tree : node) :
  resolves_to_resolved w c →
  visited st !! Path.resolve (cwd w) [filePath] = None →
  analyze w c st filePath = Some (st', Returned tree) →
  adds_expanded st st' (expanded tree).
Proof.
  intros Hres Hfresh. unfold analyze, analyze_with.
  destruct (extractDependencies _ _ _ _ _ _) as [[st1 [n|]]|] eqn:Hrun; [|done|done].
  intros [= <- <-].
  apply (extractDependencies_adds w c Hres) in Hrun; [|by rewrite ensure_root_visited].
  unfold adds_expanded in *.
  by rewrite ensure_root_visited, ensure_root_allFiles in Hrun.
Qed.

(** X5: no file is expanded twice.  When the resolver only returns
    resolved paths and the root has not been visited by the instance,
    the expanded nodes of the tree [analyze] returns have pairwise
    different absolute paths, none of them visited before, and they are
    exactly what the run adds to the visited table and to the
    [allFiles] index. *)
Theorem every_file_expanded_once (w : world) (c : config) (st : state)
    (filePath : string) (st' : state) (tree : node) :
  resolves_to_resolved w c →
  visited st !! Path.resolve (cwd w) [filePath] = None →
  analyze w c st filePath = Some (st', Returned tree) →
  NoDup (expanded tree)
  ∧ (∀ p, p ∈ expanded tree → visited st !! p = None)
  ∧ dom (visited st') = dom (visited st) ∪ list_to_set (expanded tree)
  ∧ dom (allFiles st') = dom (allFiles st) ∪ list_to_set (expanded tree).
Proof. apply analyze_adds. Qed.

Lemma sample_resolved (w : world) :
  cwd w = "/proj"%string → require_resolve w = Sample.no_loader →
  resolves_to_resolved w Sample.defaults.
Proof.
  intros Hcwd Hloader. apply normal_results_resolved.
  - by rewrite Hcwd.
  - apply default_extensions_plain.
  - rewrite Hloader. by intros ? ? ?.
Qed.

Lemma every_file_expanded_once_witness :
  resolves_to_resolved Sample.diamond Sample.defaults
  ∧ visited (Sample.fresh Sample.diamond)
      !! Path.resolve (cwd Sample.diamond) ["src/r.ts"%string] = None
  ∧ ∃ st' tree,
      analyze Sample.diamond Sample.defaults (Sample.fresh Sample.diamond) "src/r.ts"
      = Some (st', Returned tree)
      ∧ expanded tree
        = ["/proj/src/r.ts"; "/proj/src/a.ts"; "/proj/src/b.ts"; "/proj/src/c.ts"]%string
      ∧ NoDup (expanded tree)
      ∧ dom (visited st')
        = dom (visited (Sample.fresh Sample.diamond)) ∪ list_to_set (expanded tree).
Proof.
  assert (Hres : resolves_to_resolved Sample.diamond Sample.defaults)
    by (by apply sample_resolved).
  refine (conj Hres (conj eq_refl _)).
  eexists _, _. split; [vm_compute; reflexivity|]. split; [reflexivity|].
  match goal with
  | |- NoDup (expanded ?t) ∧ dom (visited ?s) = _ =>
      destruct (every_file_expanded_once Sample.diamond Sample.defaults
                  (Sample.fresh Sample.diamond) "src/r.ts" s t Hres eq_refl)
        as (Hnd & _ & Hdom & _); [vm_compute; reflexivity|]
  end.
  exact (conj Hnd Hdom).
Defined.

(** ** The agents' traversals *)

Section BuiltTrees.
Context (w : world) (c : config).

Lemma expanded_exist : ∀ t, well_built w c t →
  ∀ p, p ∈ expanded t → existsSync w p = true.
Proof.
  induction t as [t IHt] using node_nested_ind.
  intros [Hb Hdeps]%subtrees_Forall_inv p. rewrite expanded_unfold.
  intros [Hp|Hp]%elem_of_app.
  - destruct (n_exists t) as [[|]|] eqn:Hex; try by apply elem_of_nil in Hp.
    destruct (built_file _ _ _ Hb Hex) as (q & Hq & Hexq & _).
    rewrite Hq in Hp. by apply list_elem_of_singleton in Hp as ->.
  - apply list_elem_of_In, in_flat_map in Hp as (k & Hk & Hp).
    rewrite Forall_forall in IHt, Hdeps.
    apply list_elem_of_In in Hk. apply (IHt k Hk (Hdeps k Hk)).
    by apply list_elem_of_In.
Qed.

(** The paths [extractFilePathsFromTree] returns are, in order, among
    the expanded paths of the tree. *)
Lemma extractFilePaths_sublist : ∀ t, well_built w c t →
  ∃ sub, Consumers.extractFilePathsFromTree t = Some <$> sub
         ∧ sublist sub (expanded t).
Proof.
  induction t as [t IHt] using node_nested_ind.
  intros [Hb Hdeps]%subtrees_Forall_inv.
  assert (Hrest : ∃ sub, flat_map Consumers.extractFilePathsFromTree (n_dependencies t)
                         = Some <$> sub
                         ∧ sublist sub (flat_map expanded (n_dependencies t))).
  { clear Hb. induction (n_dependencies t) as [|k l IHl]; [by exists []|].
    apply Forall_cons in IHt as [IHk IHt]. apply Forall_cons in Hdeps as [Hk Hl].
    destruct (IHk Hk) as (s1 & E1 & Hs1). destruct (IHl IHt Hl) as (s2 & E2 & Hs2).
    exists (s1 ++ s2). cbn [flat_map]. rewrite E1, E2, fmap_app. split; [done|].
    by apply sublist_app. }
  destruct Hrest as (sub & Esub & Hsub).
  rewrite expanded_unfold.
  replace (Consumers.extractFilePathsFromTree t)
    with ((if negb (String.eqb (n_path t) "") && bool_decide (n_exists t = Some true)
           then [n_absolutePath t] else [])
          ++ flat_map Consumers.extractFilePathsFromTree (n_dependencies t))
    by (by destruct t).
  rewrite Esub.
  destruct (n_exists t) as [[|]|] eqn:Hex.
  - destruct (built_file _ _ _ Hb Hex) as (q & -> & _).
    destruct (negb _); simpl.
    + exists (q :: sub). split; [done|]. by constructor.
    + exists sub. split; [done|]. by constructor.
  - rewrite andb_false_r. exists sub. split; [done|].
    by destruct (n_absolutePath t).
  - rewrite andb_false_r. exists sub. split; [done|].
    by destruct (n_absolutePath t).
Qed.
End BuiltTrees.

(** X6: the paths the coding agent takes from a tree
    ([extractFilePathsFromTree] of [ai-coding-agent.ts]).  On the tree of
    a first run over an instance, when the resolver only returns resolved
    paths, no path is returned twice, none is [null], and every one of
    them exists on disk and is in the visited table afterwards. *)
Theorem agent_paths_are_distinct_files (w : world) (c : config) (st : state)
    (filePath : string) (st' : state) (tree : node) :
  resolves_to_resolved w c →
  visited st !! Path.resolve (cwd w) [filePath] = None →
  analyze w c st filePath = Some (st', Returned tree) →
  NoDup (Consumers.extractFilePathsFromTree tree)
  ∧ ∀ x, x ∈ Consumers.extractFilePathsFromTree tree →
         ∃ p, x = Some p ∧ existsSync w p = true ∧ is_Some (visited st' !! p).
Proof.
  intros Hres Hfresh Hrun.
  destruct (analyze_adds w c st filePath st' tree Hres Hfresh Hrun)
    as (Hnd & _ & Hdom & _).
  unfold analyze, analyze_with in Hrun.
  destruct (extractDependencies _ _ _ _ _ _) as [[st1 [n|]]|] eqn:Hcall; [|done|done].
  injection Hrun as <- <-.
  apply extractDependencies_well_built in Hcall as (Hwb & _ & _).
  destruct (extractFilePaths_sublist w c n Hwb) as (sub & -> & Hsub).
  split.
  - apply (NoDup_fmap_2 Some). by eapply sublist_NoDup.
  - intros x (p & -> & Hp)%list_elem_of_fmap. exists p.
    assert (Hin : p ∈ expanded n) by (by eapply elem_of_sublist).
    split; [done|]. split; [by eapply expanded_exist|].
    apply elem_of_dom. rewrite Hdom. apply elem_of_union_r.
    by apply elem_of_list_to_set.
Qed.

Lemma agent_paths_are_distinct_files_witness :
  resolves_to_resolved Sample.diamond Sample.defaults
  ∧ visited (Sample.fresh Sample.diamond)
      !! Path.resolve (cwd Sample.diamond) ["src/r.ts"%string] = None
  ∧ ∃ st' tree,
      analyze Sample.diamond Sample.defaults (Sample.fresh Sample.diamond) "src/r.ts"
      = Some (st', Returned tree)
      ∧ Consumers.extractFilePathsFromTree tree
        = [Some "/proj/src/r.ts"; Some "/proj/src/a.ts"; Some "/proj/src/b.ts";
           Some "/proj/src/c.ts"]%string
      ∧ NoDup (Consumers.extractFilePathsFromTree tree).
Proof.
  assert (Hres : resolves_to_resolved Sample.diamond Sample.defaults)
    by (by apply sample_resolved).
  refine (conj Hres (conj eq_refl _)).
  eexists _, _. split; [vm_compute; reflexivity|]. split; [reflexivity|].
  eapply proj1, (agent_paths_are_distinct_files Sample.diamond Sample.defaults
                   (Sample.fresh Sample.diamond) "src/r.ts" _ _ Hres eq_refl).
  vm_compute. reflexivity.
Defined.

Section TextOnDisk.
Context (w : world) (c : config).

(** The content of an expanded node, when not empty, is the text of
    a readable, non-binary file within the size ceiling. *)
Lemma built_content m content :
  built w c m → n_exists m = Some true → n_content m = Some content →
  content ≠ ""%string →
  ∃ p size,
    n_absolutePath m = Some p
    ∧ fs w !! p = Some (File size (Some content))
    ∧ isBinaryFile p = false
    ∧ (size ≤ maxContentLength c * 4)%N.
Proof.
  intros Hb Hex Hcontent Hne.
  destruct (built_file _ _ _ Hb Hex) as (p & Hp & _ & _ & _ & _ & Hc & _).
  rewrite Hcontent in Hc. injection Hc as ->.
  destruct (content_is_gated_aux w c p) as (Hiff & Hread & Hempty).
  destruct (fi_isText (getFileInfo w c p)) eqn:Htext;
    [|by rewrite Hempty in Hne].
  destruct (proj1 Hiff eq_refl) as (size & text & Hfs & Hbin & Hsize).
  exists p, size. rewrite (Hread size text Hfs Hbin Hsize). done.
Qed.

Lemma extractFiles_on_disk : ∀ t, well_built w c t →
  ∀ path content, (path, content) ∈ Consumers.extractFilesFromTree t →
    content ≠ ""%string
    ∧ ∃ p size,
        p ∈ expanded t
        ∧ fs w !! p = Some (File size (Some content))
        ∧ isBinaryFile p = false
        ∧ (size ≤ maxContentLength c * 4)%N.
Proof.
  induction t as [t IHt] using node_nested_ind.
  intros [Hb Hdeps]%subtrees_Forall_inv path content.
  replace (Consumers.extractFilesFromTree t)
    with ((if negb (String.eqb (n_path t) "") && truthy (n_content t)
              && bool_decide (n_exists t = Some true)
           then [(n_path t, default ""%string (n_content t))] else [])
          ++ flat_map Consumers.extractFilesFromTree (n_dependencies t))
    by (by destruct t).
  rewrite expanded_unfold. intros [Hin|Hin]%elem_of_app.
  - destruct (negb _ && truthy (n_content t) && bool_decide _) eqn:Hcond;
      [|by apply elem_of_nil in Hin].
    apply list_elem_of_singleton in Hin. injection Hin as -> ->.
    apply andb_prop in Hcond as [[_ Htruthy]%andb_prop Hex].
    apply bool_decide_eq_true in Hex.
    apply truthy_Some in Htruthy as (text & Htext & Hne).
    rewrite Htext. simpl. split; [done|].
    destruct (built_content t text Hb Hex Htext Hne) as (p & size & Hp & Hrest).
    exists p, size. rewrite Hex, Hp. split; [|done].
    apply elem_of_app. left. by apply list_elem_of_singleton.
  - apply list_elem_of_In, in_flat_map in Hin as (k & Hk & Hin).
    apply list_elem_of_In in Hk, Hin. rewrite Forall_forall in IHt, Hdeps.
    destruct (IHt k Hk (Hdeps k Hk) path content Hin) as (Hne & p & size & Hp & Hrest).
    split; [done|]. exists p, size. split; [|done].
    apply elem_of_app. right. apply list_elem_of_In, in_flat_map.
    exists k. split; by apply list_elem_of_In.
Qed.

Lemma extractFilesToDepth_spec : ∀ t, well_built w c t →
  ∀ depth path content k,
    (path, content, k) ∈ Consumers.extractFilesToDepth t depth →
    depth ≤ k ∧ k ≤ Nat.max depth 3
    ∧ content ≠ ""%string
    ∧ ∃ p size,
        p ∈ expanded t
        ∧ fs w !! p = Some (File size (Some content))
        ∧ isBinaryFile p = false
        ∧ (size ≤ maxContentLength c * 4)%N.
Proof.
  induction t as [t IHt] using node_nested_ind.
  intros [Hb Hdeps]%subtrees_Forall_inv depth path content k.
  replace (Consumers.extractFilesToDepth t depth)
    with ((if negb (String.eqb (n_path t) "") && truthy (n_content t)
              && bool_decide (n_exists t = Some true) && negb (n_external t)
           then [(n_path t, default ""%string (n_content t), depth)] else [])
          ++ (if (depth <? 3)%nat
              then flat_map (λ dep, Consumers.extractFilesToDepth dep (S depth))
                     (n_dependencies t)
              else []))
    by (by destruct t).
  rewrite expanded_unfold. intros [Hin|Hin]%elem_of_app.
  - destruct (negb _ && truthy (n_content t) && bool_decide _ && negb _) eqn:Hcond;
      [|by apply elem_of_nil in Hin].
    apply list_elem_of_singleton in Hin. injection Hin as -> -> ->.
    apply andb_prop in Hcond as [[[_ Htruthy]%andb_prop Hex]%andb_prop _].
    apply bool_decide_eq_true in Hex.
    apply truthy_Some in Htruthy as (text & Htext & Hne).
    rewrite Htext. simpl. split; [done|]. split; [lia|]. split; [done|].
    destruct (built_content t text Hb Hex Htext Hne) as (p & size & Hp & Hrest).
    exists p, size. rewrite Hex, Hp. split; [|done].
    apply elem_of_app. left. by apply list_elem_of_singleton.
  - destruct (depth <? 3)%nat eqn:Hlt; [|by apply elem_of_nil in Hin].
    apply Nat.ltb_lt in Hlt.
    apply list_elem_of_In, in_flat_map in Hin as (dep & Hk & Hin).
    apply list_elem_of_In in Hk, Hin. rewrite Forall_forall in IHt, Hdeps.
    destruct (IHt dep Hk (Hdeps dep Hk) (S depth) path content k Hin)
      as (Hlow & Hhigh & Hne & p & size & Hp & Hrest).
    split; [lia|]. split; [lia|]. split; [done|]. exists p, size. split; [|done].
    apply elem_of_app. right. apply list_elem_of_In, in_flat_map.
    exists dep. split; by apply list_elem_of_In.
Qed.
End TextOnDisk.

(** X7: the files the coding agent puts in its editing context
    ([extractFilesFromTree] of [ai-coding-agent.ts]).  Every entry taken
    from a tree [analyze] returned has a non-empty content, and that
    content is the text on disk of an expanded file of the tree: a
    regular file that is not binary by extension and no larger than
    four times the content budget. *)
Theorem agent_context_is_text_on_disk (w : world) (c : config) (st : state)
    (filePath : string) (st' : state) (tree : node) (path content : string) :
  analyze w c st filePath = Some (st', Returned tree) →
  (path, content) ∈ Consumers.extractFilesFromTree tree →
  content ≠ ""%string
  ∧ ∃ p size,
      p ∈ expanded tree
      ∧ fs w !! p = Some (File size (Some content))
      ∧ isBinaryFile p = false
      ∧ (size ≤ maxContentLength c * 4)%N.
Proof.
  unfold analyze, analyze_with.
  destruct (extractDependencies _ _ _ _ _ _) as [[st1 [n|]]|] eqn:Hcall; [|done|done].
  intros [= <- <-].
  apply extractDependencies_well_built in Hcall as (Hwb & _ & _).
  by apply extractFiles_on_disk.
Qed.

(** X8: the files the prompt builder takes from a tree
    ([extractFilesFromTree] of [ai-prompt-system.ts]).  It stops
    descending at depth 3: every entry is for a position at most three
    levels below the root, and, as for the coding agent, its content is
    the non-empty text on disk of an expanded file of the tree. *)
Theorem prompt_context_stops_at_depth_three (w : world) (c : config) (st : state)
    (filePath : string) (st' : state) (tree : node) (path content : string)
    (k : nat) :
  analyze w c st filePath = Some (st', Returned tree) →
  (path, content, k) ∈ Consumers.extractFilesToDepth tree 0 →
  k ≤ 3
  ∧ content ≠ ""%string
  ∧ ∃ p size,
      p ∈ expanded tree
      ∧ fs w !! p = Some (File size (Some content))
      ∧ isBinaryFile p = false
      ∧ (size ≤ maxContentLength c * 4)%N.
Proof.
  unfold analyze, analyze_with.
  destruct (extractDependencies _ _ _ _ _ _) as [[st1 [n|]]|] eqn:Hcall; [|done|done].
  intros [= <- <-] Hin.
  apply extractDependencies_well_built in Hcall as (Hwb & _ & _).
  destruct (extractFilesToDepth_spec w c n Hwb 0 path content k Hin)
    as (_ & Hk & Hrest).
  split; [lia | done].
Qed.

Lemma agent_context_is_text_on_disk_witness :
  ∃ st' tree,
    analyze Sample.diamond Sample.defaults (Sample.fresh Sample.diamond) "src/r.ts"
    = Some (st', Returned tree)
    ∧ ("src/a.ts", "import './b'")%string ∈ Consumers.extractFilesFromTree tree
    ∧ ∃ p size,
        p ∈ expanded tree
        ∧ fs Sample.diamond !! p = Some (File size (Some "import './b'"%string))
        ∧ isBinaryFile p = false
        ∧ (size ≤ maxContentLength Sample.defaults * 4)%N.
Proof.
  eexists _, _. split; [vm_compute; reflexivity|].
  match goal with
  | |- ?e ∈ Consumers.extractFilesFromTree ?t ∧ _ =>
      assert (Hin : e ∈ Consumers.extractFilesFromTree t)
        by (vm_compute; apply list_elem_of_In; right; left; reflexivity);
      refine (conj Hin _);
      eapply proj2,
        (agent_context_is_text_on_disk Sample.diamond Sample.defaults
           (Sample.fresh Sample.diamond) "src/r.ts");
      [vm_compute; reflexivity | exact Hin]
  end.
Defined.

Lemma prompt_context_stops_at_depth_three_witness :
  ∃ st' tree,
    analyze Sample.diamond Sample.defaults (Sample.fresh Sample.diamond) "src/r.ts"
    = Some (st', Returned tree)
    ∧ ("src/b.ts", "import './c'", 2)%string ∈ Consumers.extractFilesToDepth tree 0
    ∧ 2 ≤ 3.
Proof.
  eexists _, _. split; [vm_compute; reflexivity|].
  match goal with
  | |- ?e ∈ Consumers.extractFilesToDepth ?t 0 ∧ _ =>
      assert (Hin : e ∈ Consumers.extractFilesToDepth t 0)
        by (vm_compute; apply list_elem_of_In; right; right; left; reflexivity);
      refine (conj Hin _);
      eapply proj1,
        (prompt_context_stops_at_depth_three Sample.diamond Sample.defaults
           (Sample.fresh Sample.diamond) "src/r.ts");
      [vm_compute; reflexivity | exact Hin]
  end.
Defined.

(** ** The consumers' traversals *)

Lemma walk_unfold n d acc :
  walk n d acc
  = if bool_decide (n_absolutePath n ∈ acc.2) then acc
    else walks (n_dependencies n) (S d)
           (acc.1 ++ [(n, d)], {[n_absolutePath n]} ∪ acc.2).
Proof. by destruct n. Qed.

Lemma walks_cons k deps d acc : walks (k :: deps) d acc = walks deps d (walk k d acc).
Proof. done. Qed.

(** The list of visited nodes is only ever extended. *)
Lemma walks_acc deps :
  Forall (λ k, ∀ d l V, walk k d (l, V)
                        = (l ++ (walk k d ([], V)).1, (walk k d ([], V)).2)) deps →
  ∀ d l V, walks deps d (l, V)
           = (l ++ (walks deps d ([], V)).1, (walks deps d ([], V)).2).
Proof.
  induction 1 as [|k deps Hk _ IH]; intros d l V.
  - unfold walks. simpl. by rewrite app_nil_r.
  - rewrite !walks_cons, Hk.
    destruct (walk k d ([], V)) as [w1 V1]. cbn [fst snd].
    rewrite IH, (IH d w1 V1). cbn [fst snd]. by rewrite app_assoc.
Qed.

Lemma walk_acc : ∀ n d l V,
  walk n d (l, V) = (l ++ (walk n d ([], V)).1, (walk n d ([], V)).2).
Proof.
  induction n as [n IHn] using node_nested_ind. intros d l V.
  rewrite !walk_unfold. cbn [fst snd].
  case_bool_decide; cbn [fst snd]; [by rewrite app_nil_r|].
  rewrite (walks_acc _ IHn), (walks_acc _ IHn (S d) ([] ++ [(n, d)])).
  cbn [fst snd app]. by rewrite <- app_assoc.
Qed.

Lemma walk_nil n d V :
  walk n d ([], V)
  = if bool_decide (n_absolutePath n ∈ V) then ([], V)
    else ((n, d) :: (walks (n_dependencies n) (S d) ([], {[n_absolutePath n]} ∪ V)).1,
          (walks (n_dependencies n) (S d) ([], {[n_absolutePath n]} ∪ V)).2).
Proof.
  rewrite walk_unfold. cbn [fst snd app]. case_bool_decide; [done|].
  rewrite walks_acc; [done|]. apply Forall_forall. intros k _. apply walk_acc.
Qed.

Lemma walks_nil_cons k deps d V :
  walks (k :: deps) d ([], V)
  = ((walk k d ([], V)).1 ++ (walks deps d ([], (walk k d ([], V)).2)).1,
     (walks deps d ([], (walk k d ([], V)).2)).2).
Proof.
  rewrite walks_cons. destruct (walk k d ([], V)) as [w1 V1]. cbn [fst snd].
  rewrite walks_acc; [done|]. apply Forall_forall. intros ? _. apply walk_acc.
Qed.

(** A consumer written as the source writes it is a fold of its
    per-node action over the visited nodes. *)
Section AsFold.
Context {A : Type} (visit : node → nat → A → A).
Context (F : node → nat → A * gset (option string) → A * gset (option string)).
Hypothesis F_unfold : ∀ n d acc,
  F n d acc
  = if bool_decide (n_absolutePath n ∈ acc.2) then acc
    else fold_left (λ a dep, F dep (S d) a) (n_dependencies n)
           (visit n d acc.1, {[n_absolutePath n]} ∪ acc.2).

Lemma traversal_as_fold : ∀ n d a V,
  F n d (a, V)
  = (fold_left (λ a mk, visit mk.1 mk.2 a) (walk n d ([], V)).1 a,
     (walk n d ([], V)).2).
Proof.
  induction n as [n IHn] using node_nested_ind. intros d a V.
  rewrite F_unfold, walk_nil. cbn [fst snd].
  case_bool_decide; [done|]. cbn [fst snd fold_left].
  generalize (visit n d a) ({[n_absolutePath n]} ∪ V) (S d).
  induction IHn as [|k deps Hk _ IH]; intros a1 V1 d1; [done|].
  rewrite walks_nil_cons. cbn [fst snd fold_left].
  by rewrite Hk, IH, fold_left_app.
Qed.
End AsFold.

Lemma calculateStatsRecursive_walk n s V d :
  Consumers.calculateStatsRecursive n (s, V) d
  = (fold_left (λ s mk, counted mk.1 mk.2 s) (walk n d ([], V)).1 s,
     (walk n d ([], V)).2).
Proof.
  apply (traversal_as_fold counted (λ n d acc, Consumers.calculateStatsRecursive n acc d)).
  by intros [] ? ?.
Qed.

Lemma collectFilesRecursive_walk b n files V d :
  Consumers.collectFilesRecursive b n (files, V)
  = (fold_left (λ a mk, listed b mk.1 a) (walk n d ([], V)).1 files,
     (walk n d ([], V)).2).
Proof.
  apply (traversal_as_fold (λ m _, listed b m)
           (λ n _ acc, Consumers.collectFilesRecursive b n acc)).
  by intros [] ? ?.
Qed.

Lemma collectContentRecursive_walk b n files V d :
  Consumers.collectContentRecursive b n (files, V)
  = (fold_left (λ a mk, with_content b mk.1 a) (walk n d ([], V)).1 files,
     (walk n d ([], V)).2).
Proof.
  apply (traversal_as_fold (λ m _, with_content b m)
           (λ n _ acc, Consumers.collectContentRecursive b n acc)).
  by intros [] ? ?.
Qed.

(** What a traversal visits: nodes of the tree, in the order of the
    tree, with pairwise different absolute paths none of which was in
    the set it started from; the set it ends with holds these paths
    besides. *)
Lemma walk_spec : ∀ n d V,
  (walk n d ([], V)).2 = V ∪ list_to_set (paths_of (walk n d ([], V)).1)
  ∧ NoDup (paths_of (walk n d ([], V)).1)
  ∧ (∀ x, x ∈ paths_of (walk n d ([], V)).1 → x ∉ V)
  ∧ sublist (walk n d ([], V)).1.*1 (subtrees n).
Proof.
  induction n as [n IHn] using node_nested_ind. intros d V.
  rewrite walk_nil, subtrees_unfold.
  case_bool_decide as Hin; cbn [fst snd].
  { split; [set_solver|]. split; [constructor|].
    split; [by intros ? ?%elem_of_nil | apply sublist_nil_l]. }
  assert (Hdeps : ∀ d1 V1,
    (walks (n_dependencies n) d1 ([], V1)).2
    = V1 ∪ list_to_set (paths_of (walks (n_dependencies n) d1 ([], V1)).1)
    ∧ NoDup (paths_of (walks (n_dependencies n) d1 ([], V1)).1)
    ∧ (∀ x, x ∈ paths_of (walks (n_dependencies n) d1 ([], V1)).1 → x ∉ V1)
    ∧ sublist (walks (n_dependencies n) d1 ([], V1)).1.*1
        (flat_map subtrees (n_dependencies n))).
  { induction IHn as [|k deps Hk _ IH]; intros d1 V1.
    { unfold walks. simpl. split; [set_solver|]. split; [constructor|].
      split; [by intros ? ?%elem_of_nil | constructor]. }
    rewrite walks_nil_cons. cbn [fst snd flat_map].
    destruct (Hk d1 V1) as (Hset1 & Hnd1 & Hnew1 & Hsub1).
    destruct (IH d1 (walk k d1 ([], V1)).2) as (Hset2 & Hnd2 & Hnew2 & Hsub2).
    unfold paths_of in *. rewrite !fmap_app, list_to_set_app_L.
    split; [rewrite Hset2, Hset1; set_solver|].
    split; [|split].
    - apply NoDup_app. split; [done|]. split; [|done].
      intros x Hx1 Hx2. apply (Hnew2 x Hx2). rewrite Hset1. set_solver.
    - intros x [Hx|Hx]%elem_of_app; [by apply Hnew1|].
      specialize (Hnew2 x Hx). rewrite Hset1 in Hnew2. set_solver.
    - by apply sublist_app. }
  destruct (Hdeps (S d) ({[n_absolutePath n]} ∪ V)) as (Hset & Hnd & Hnew & Hsub).
  unfold paths_of in *. cbn [fmap list_fmap fst list_to_set].
  split; [rewrite Hset; set_solver|]. split; [|split].
  - constructor; [|done]. intros Hx. specialize (Hnew _ Hx). set_solver.
  - intros x [->|Hx]%elem_of_cons; [done|]. specialize (Hnew _ Hx). set_solver.
  - by constructor.
Qed.

(** The root of a traversal started from the empty set is visited
    first. *)
Lemma visits_root t :
  visits t = (t, 0) :: (walks (n_dependencies t) 1 ([], {[n_absolutePath t]})).1.
Proof.
  unfold visits. rewrite walk_nil. rewrite bool_decide_eq_false_2 by set_solver.
  cbn [fst]. by rewrite (right_id_L ∅ (∪)).
Qed.

(** A property of positions that children inherit holds at every
    visited position. *)
Lemma walk_positions (P : node → nat → Prop) :
  (∀ n d, P n d → Forall (λ k, P k (S d)) (n_dependencies n)) →
  ∀ n d V, P n d → Forall (λ mk, P mk.1 mk.2) (walk n d ([], V)).1.
Proof.
  intros Hclosed. induction n as [n IHn] using node_nested_ind. intros d V Hn.
  rewrite walk_nil. case_bool_decide; cbn [fst]; [constructor|].
  constructor; [done|]. specialize (Hclosed n d Hn).
  generalize ({[n_absolutePath n]} ∪ V).
  induction IHn as [|k deps Hk _ IH]; intros V1; [constructor|].
  apply Forall_cons in Hclosed as [Hk1 Hrest].
  rewrite walks_nil_cons. cbn [fst]. apply Forall_app. split; [by apply Hk | by apply IH].
Qed.

Lemma analyze_well_built (w : world) (c : config) (st : state)
    (filePath : string) (st' : state) (tree : node) :
  analyze w c st filePath = Some (st', Returned tree) →
  well_built w c tree ∧ n_depth tree = 0 ∧ exceeds c 0 = false.
Proof.
  unfold analyze, analyze_with.
  destruct (extractDependencies _ _ _ _ _ _) as [[st1 [n|]]|] eqn:Hcall; [|done|done].
  intros [= <- <-]. by apply extractDependencies_well_built in Hcall.
Qed.

(** In a built tree the visited positions are at the depth their nodes
    record. *)
Lemma visits_built (w : world) (c : config) (t : node) (d : nat) V :
  well_built w c t → n_depth t = d →
  Forall (λ mk, well_built w c mk.1 ∧ n_depth mk.1 = mk.2) (walk t d ([], V)).1.
Proof.
  intros Hwb Hd.
  apply (walk_positions (λ m k, well_built w c m ∧ n_depth m = k)); [|done].
  intros n k [[Hb Hdeps]%subtrees_Forall_inv Hk].
  pose proof (built_children _ _ _ Hb) as Hchildren.
  rewrite Forall_forall in Hdeps, Hchildren. apply Forall_forall.
  intros m Hm. split; [by apply Hdeps|]. rewrite <- Hk. by apply Hchildren.
Qed.

Lemma well_built_root (w : world) (c : config) (t : node) :
  well_built w c t → built w c t.
Proof. by intros [? _]%subtrees_Forall_inv. Qed.

Lemma counted_fold l : ∀ s,
  Consumers.totalFiles (fold_left (λ s mk, counted mk.1 mk.2 s) l s)
  = Consumers.totalFiles s + List.length l
  ∧ Consumers.externalDeps (fold_left (λ s mk, counted mk.1 mk.2 s) l s)
    = Consumers.externalDeps s + List.length (filter (λ mk, n_external mk.1 = true) l)
  ∧ ∀ B, Consumers.maxDepthSeen s ≤ B → Forall (λ mk, mk.2 ≤ B) l →
         Consumers.maxDepthSeen (fold_left (λ s mk, counted mk.1 mk.2 s) l s) ≤ B.
Proof.
  induction l as [|[m k] l IH]; intros s; cbn [fold_left fst snd].
  - cbn [List.length]. split; [lia|]. split; [by rewrite filter_nil; simpl; lia | done].
  - destruct (IH (counted m k s)) as (Htotal & Hext & Hdepth).
    rewrite Htotal, Hext, filter_cons. cbn [counted Consumers.totalFiles
      Consumers.externalDeps Consumers.maxDepthSeen List.length fst snd].
    split; [lia|]. split.
    + case_decide as Hm; [rewrite Hm; simpl; lia|].
      destruct (n_external m); [done | lia].
    + intros B Hs [Hk Hl]%Forall_cons. apply Hdepth; [|done]. simpl in Hk.
      cbn [counted Consumers.maxDepthSeen]. lia.
Qed.

Lemma at_most_one {A B} (f : A → B) (c : B) (P : A → Prop)
    `{∀ x, Decision (P x)} (l : list A) :
  NoDup (f <$> l) → (∀ x, x ∈ l → P x → f x = c) → List.length (filter P l) ≤ 1.
Proof.
  induction l as [|x l IH]; intros Hnd Hc; [simpl; lia|].
  rewrite fmap_cons in Hnd. apply NoDup_cons in Hnd as [Hx Hnd].
  rewrite filter_cons. case_decide as HP.
  - assert (Hnone : filter P l = []).
    { destruct (filter P l) as [|y r] eqn:Hf; [done|].
      assert (Hy : y ∈ filter P l) by (rewrite Hf; left).
      apply list_elem_of_filter in Hy as [HPy Hy]. destruct Hx.
      rewrite (Hc x) by (by left || done).
      rewrite <- (Hc y) by (by right || done). by apply list_elem_of_fmap_2. }
    rewrite Hnone. simpl. lia.
  - apply IH; [done|]. intros y Hy. apply Hc. by right.
Qed.

(** In a built tree the external leaves are the nodes without an
    absolute path, so a traversal visits at most one of them. *)
Lemma one_external_visited (w : world) (c : config) (l : list (node * nat)) :
  Forall (λ mk, well_built w c mk.1 ∧ n_depth mk.1 = mk.2) l →
  NoDup (paths_of l) →
  List.length (filter (λ mk, n_external mk.1 = true) l) ≤ 1.
Proof.
  intros Hb Hnd.
  apply (at_most_one (λ mk, n_absolutePath mk.1) None); [done|].
  intros mk Hmk Hext. rewrite Forall_forall in Hb.
  destruct (Hb mk Hmk) as [Hwb _].
  by destruct (built_external _ _ _ (well_built_root _ _ _ Hwb) Hext) as [? _].
Qed.

Lemma getStats_visits t :
  Consumers.getStats t
  = fold_left (λ s mk, counted mk.1 mk.2 s) (visits t) (Consumers.Stats 0 0 0 0 []).
Proof.
  unfold Consumers.getStats, visits. by rewrite calculateStatsRecursive_walk.
Qed.

Lemma visits_distinct t :
  NoDup (paths_of (visits t))
  ∧ list_to_set (paths_of (visits t)) ⊆ absolutePaths t
  ∧ sublist (visits t).*1 (subtrees t).
Proof.
  unfold visits. destruct (walk_spec t 0 ∅) as (_ & Hnd & _ & Hsub).
  split; [done|]. split; [|done].
  intros x Hx. apply elem_of_list_to_set in Hx. apply elem_of_list_to_set.
  unfold paths_of in Hx. apply list_elem_of_fmap in Hx as (mk & -> & Hmk).
  apply list_elem_of_fmap_2.
  eapply elem_of_sublist; [|exact Hsub]. by apply list_elem_of_fmap_2.
Qed.

(** X9: the statistics of a tree [analyze] returned.  [getStats] counts
    a node when its absolute path has not been counted before, so the
    file count is at least one and at most the number of different
    absolute paths in the tree; the external leaves, which all have no
    absolute path, are counted once however many the tree has; and the
    depth reported is at most one more than the depth limit. *)
Theorem stats_count_distinct_paths (w : world) (c : config) (st : state)
    (filePath : string) (st' : state) (tree : node) :
  analyze w c st filePath = Some (st', Returned tree) →
  1 ≤ Consumers.totalFiles (Consumers.getStats tree)
  ∧ Consumers.totalFiles (Consumers.getStats tree) ≤ size (absolutePaths tree)
  ∧ Consumers.externalDeps (Consumers.getStats tree) ≤ 1
  ∧ ∀ mx, maxDepth c = Some mx →
          (Z.of_nat (Consumers.maxDepthSeen (Consumers.getStats tree)) ≤ mx + 1)%Z.
Proof.
  intros (Hwb & Hroot & Hd)%analyze_well_built.
  rewrite getStats_visits.
  destruct (counted_fold (visits tree) (Consumers.Stats 0 0 0 0 []))
    as (Htotal & Hext & Hdepth).
  destruct (visits_distinct tree) as (Hnd & Hsub & Hin).
  pose proof (visits_built w c tree 0 ∅ Hwb Hroot) as Hbuilt. fold (visits tree) in Hbuilt.
  rewrite Htotal, Hext. cbn [Consumers.totalFiles Consumers.externalDeps].
  split; [rewrite visits_root; simpl; lia|]. split; [|split].
  - apply subseteq_size in Hsub. rewrite size_list_to_set in Hsub by done.
    unfold paths_of in Hsub. rewrite length_fmap in Hsub. lia.
  - by apply (one_external_visited w c).
  - intros mx Hmx.
    pose proof (depth_bound_aux w c mx 0 Hmx tree Hwb ltac:(lia)) as Hbound.
    apply (exceeds_spec c mx) in Hd; [|done].
    specialize (Hbound ltac:(lia)).
    assert (Hle : Consumers.maxDepthSeen
                    (fold_left (λ s mk, counted mk.1 mk.2 s) (visits tree)
                       (Consumers.Stats 0 0 0 0 []))
                  ≤ Z.to_nat (mx + 1)); [|lia].
    apply Hdepth; [simpl; lia|].
    rewrite Forall_forall in Hbound. rewrite Forall_forall in Hbuilt.
    apply Forall_forall.
    intros mk Hmk. destruct (Hbuilt mk Hmk) as [_ <-].
    assert (Hsubtree : mk.1 ∈ subtrees tree).
    { eapply elem_of_sublist; [|exact Hin]. by apply list_elem_of_fmap_2. }
    destruct (Hbound _ Hsubtree) as (_ & Hhigh & _). lia.
Qed.

Lemma stats_count_distinct_paths_witness :
  ∃ st' tree,
    analyze Sample.with_packages Sample.include_external
      (Sample.fresh Sample.with_packages) "src/main.ts"
    = Some (st', Returned tree)
    ∧ List.length (filter (λ m, n_external m = true) (subtrees tree)) = 2
    ∧ Consumers.externalDeps (Consumers.getStats tree) = 1
    ∧ Consumers.externalDeps (Consumers.getStats tree) ≤ 1.
Proof.
  eexists _, _. split; [vm_compute; reflexivity|].
  split; [reflexivity|]. split; [reflexivity|].
  eapply proj1, proj2, proj2,
    (stats_count_distinct_paths Sample.with_packages Sample.include_external
       (Sample.fresh Sample.with_packages) "src/main.ts").
  vm_compute. reflexivity.
Defined.

(** *** The content listing *)

Lemma expanded_intro : ∀ t m p,
  m ∈ subtrees t → n_exists m = Some true → n_absolutePath m = Some p →
  p ∈ expanded t.
Proof.
  induction t as [t IHt] using node_nested_ind. intros m p.
  rewrite subtrees_unfold, expanded_unfold.
  intros [->|Hm]%elem_of_cons Hex Hp; apply elem_of_app.
  - left. rewrite Hex, Hp. by apply list_elem_of_singleton.
  - right. apply list_elem_of_In, in_flat_map in Hm as (k & Hk & Hm).
    apply list_elem_of_In, in_flat_map. exists k. split; [done|].
    apply list_elem_of_In. rewrite Forall_forall in IHt.
    apply (IHt k (proj2 (list_elem_of_In _ _) Hk) m p); [|done|done].
    by apply list_elem_of_In.
Qed.

Lemma filter_agree {A} (P Q : A → Prop) `{∀ x, Decision (P x)} `{∀ x, Decision (Q x)}
    (l : list A) :
  Forall (λ x, P x ↔ Q x) l → filter P l = filter Q l.
Proof.
  induction 1 as [|x l Hx _ IH]; [done|].
  rewrite !filter_cons, IH. repeat case_decide; tauto.
Qed.

Lemma with_content_fold b (l : list (node * nat)) : ∀ files,
  fold_left (λ a mk, with_content b mk.1 a) l files
  = files ++ (Consumers.content_entry
                <$> filter (λ m, Consumers.exists_without_error m
                                 && (b || negb (n_external m)) = true) l.*1).
Proof.
  induction l as [|[m k] l IH]; intros files; cbn [fold_left fst snd].
  - by rewrite app_nil_r.
  - rewrite IH, fmap_cons, filter_cons. cbn [fst]. unfold with_content.
    case_decide as Hm.
    + by rewrite Hm, fmap_cons, <- app_assoc.
    + apply not_true_is_false in Hm. by rewrite Hm.
Qed.

Lemma collectFilesWithContent_visits t b :
  Consumers.collectFilesWithContent t b
  = Consumers.content_entry
      <$> filter (λ m, Consumers.exists_without_error m
                       && (b || negb (n_external m)) = true) (visits t).*1.
Proof.
  unfold Consumers.collectFilesWithContent, visits.
  by rewrite (collectContentRecursive_walk b t [] ∅ 0), with_content_fold.
Qed.

Lemma exists_without_error_exists m :
  Consumers.exists_without_error m = true → n_exists m = Some true.
Proof. unfold Consumers.exists_without_error. by destruct (n_exists m) as [[|]|]. Qed.

(** The entries of the listing are expanded nodes of the tree, one for
    each absolute path. *)
Lemma content_listing_spec (w : world) (c : config) (t : node) (b : bool) :
  well_built w c t →
  NoDup (Consumers.cf_absolutePath <$> Consumers.collectFilesWithContent t b)
  ∧ ∀ f, f ∈ Consumers.collectFilesWithContent t b →
         ∃ m, m ∈ subtrees t ∧ built w c m ∧ n_exists m = Some true
              ∧ f = Consumers.content_entry m.
Proof.
  intros Hwb. rewrite collectFilesWithContent_visits.
  destruct (visits_distinct t) as (Hnd & _ & Hsub). split.
  - rewrite <- list_fmap_compose.
    eapply sublist_NoDup; [exact Hnd|].
    unfold paths_of.
    change ((λ mk : node * nat, n_absolutePath mk.1) <$> visits t)
      with ((n_absolutePath ∘ fst) <$> visits t).
    rewrite (list_fmap_compose (fst : node * nat → node) n_absolutePath (visits t)).
    change (Consumers.cf_absolutePath ∘ Consumers.content_entry) with n_absolutePath.
    apply fmap_sublist, sublist_filter.
  - intros f (m & -> & Hm)%list_elem_of_fmap.
    apply list_elem_of_filter in Hm as [Hshown Hm].
    apply andb_prop in Hshown as [Hex _].
    assert (Hin : m ∈ subtrees t) by (by eapply elem_of_sublist).
    exists m. split; [done|]. split; [|split; [|done]].
    + unfold well_built in Hwb. rewrite Forall_forall in Hwb. by apply Hwb.
    + by apply exists_without_error_exists.
Qed.

Lemma getFileInfo_cases (w : world) (c : config) (p : string) :
  existsSync w p = true →
  (∃ r, fi_skipReason (getFileInfo w c p) = Some r
        ∧ fi_content (getFileInfo w c p) = ""%string)
  ∨ (∃ size text,
       fs w !! p = Some (File size (Some text))
       ∧ isBinaryFile p = false
       ∧ (size ≤ maxContentLength c * 4)%N
       ∧ getFileInfo w c p = FileInfo size text true None).
Proof.
  unfold existsSync, getFileInfo. destruct (fs w !! p) as [e|]; [intros _|done].
  destruct (isBinaryFile p); [left; by eexists|].
  destruct e as [size [text|]|size];
    destruct (maxContentLength c * 4 <? _)%N eqn:Hbig;
    try (left; by eexists).
  apply N.ltb_ge in Hbig. right. by exists size, text.
Qed.

Lemma content_entry_built (w : world) (c : config) (t m : node) :
  m ∈ subtrees t → built w c m → n_exists m = Some true →
  ∃ p, Consumers.cf_absolutePath (Consumers.content_entry m) = Some p
       ∧ p ∈ expanded t
       ∧ existsSync w p = true
       ∧ Consumers.cf_external (Consumers.content_entry m) = false
       ∧ Consumers.cf_content (Consumers.content_entry m) = fi_content (getFileInfo w c p)
       ∧ Consumers.cf_size (Consumers.content_entry m) = fi_size (getFileInfo w c p)
       ∧ Consumers.cf_skipReason (Consumers.content_entry m)
         = fi_skipReason (getFileInfo w c p)
       ∧ Consumers.cf_isText (Consumers.content_entry m)
         = Some (fi_isText (getFileInfo w c p)).
Proof.
  intros Hin Hb Hex.
  destruct (built_file _ _ _ Hb Hex)
    as (p & Hp & Hexists & _ & _ & Hext & Hcontent & Hsize & Hskip & Htext & _).
  exists p. cbn [Consumers.content_entry Consumers.cf_absolutePath
    Consumers.cf_external Consumers.cf_content Consumers.cf_size
    Consumers.cf_skipReason Consumers.cf_isText].
  rewrite Hcontent, Hsize. simpl.
  split; [done|]. split; [by apply (expanded_intro t m)|]. done.
Qed.

(** X10: the content listing of a tree [analyze] returned
    ([collectFilesWithContent]).  No two entries have the same absolute
    path; every entry is an expanded file of the tree, never an
    external, circular or missing node, and carries what [getFileInfo]
    reads for that path; so the [includeExternal] argument makes no
    difference. *)
Theorem content_listing_is_expanded_files (w : world) (c : config) (st : state)
    (filePath : string) (st' : state) (tree : node) (b : bool) :
  analyze w c st filePath = Some (st', Returned tree) →
  NoDup (Consumers.cf_absolutePath <$> Consumers.collectFilesWithContent tree b)
  ∧ Consumers.collectFilesWithContent tree b = Consumers.collectFilesWithContent tree true
  ∧ ∀ f, f ∈ Consumers.collectFilesWithContent tree b →
      ∃ p, Consumers.cf_absolutePath f = Some p
           ∧ p ∈ expanded tree
           ∧ existsSync w p = true
           ∧ Consumers.cf_external f = false
           ∧ Consumers.cf_content f = fi_content (getFileInfo w c p)
           ∧ Consumers.cf_size f = fi_size (getFileInfo w c p)
           ∧ Consumers.cf_skipReason f = fi_skipReason (getFileInfo w c p)
           ∧ Consumers.cf_isText f = Some (fi_isText (getFileInfo w c p)).
Proof.
  intros (Hwb & _ & _)%analyze_well_built.
  destruct (content_listing_spec w c tree b Hwb) as [Hnd Hentries].
  split; [done|]. split.
  - rewrite !collectFilesWithContent_visits. f_equal. apply filter_agree.
    destruct (visits_distinct tree) as (_ & _ & Hsub).
    apply Forall_forall. intros m Hm.
    assert (Hb : built w c m).
    { unfold well_built in Hwb. rewrite Forall_forall in Hwb.
      apply Hwb. by eapply elem_of_sublist. }
    destruct (Consumers.exists_without_error m) eqn:Hex; [|done].
    apply exists_without_error_exists in Hex.
    destruct (built_file _ _ _ Hb Hex) as (p & _ & _ & _ & _ & Hext & _).
    rewrite Hext. by destruct b.
  - intros f (m & Hm & Hb & Hex & ->)%Hentries.
    by apply (content_entry_built w c tree m).
Qed.

Lemma content_listing_is_expanded_files_witness :
  ∃ st' tree,
    analyze Sample.with_asset Sample.defaults (Sample.fresh Sample.with_asset)
      "src/page.ts"
    = Some (st', Returned tree)
    ∧ Consumers.cf_path <$> Consumers.collectFilesWithContent tree false
      = ["src/page.ts"; "src/logo.png"]%string
    ∧ NoDup (Consumers.cf_absolutePath <$> Consumers.collectFilesWithContent tree false)
    ∧ Consumers.collectFilesWithContent tree false
      = Consumers.collectFilesWithContent tree true.
Proof.
  eexists _, _. split; [vm_compute; reflexivity|]. split; [reflexivity|].
  match goal with
  | |- NoDup (_ <$> Consumers.collectFilesWithContent ?t _) ∧ _ =>
      destruct (content_listing_is_expanded_files Sample.with_asset Sample.defaults
                  (Sample.fresh Sample.with_asset) "src/page.ts" _ t false
                  ltac:(vm_compute; reflexivity))
        as (Hnd & Hflag & _)
  end.
  exact (conj Hnd Hflag).
Defined.

(** *** What is displayed *)

(** X11: what the renderer shows for an entry of the content listing
    ([getDisplayContent] on an entry of [collectFilesWithContent]).
    The text never has more than [maxLength] UTF-16 code units.
    Without an error it is the first [maxLength] code units of the text
    the file has on disk, with [truncated] set exactly when that text
    has more; the error [No content available] means an empty text
    file; and a skip reason is the one [getFileInfo] gives for the
    path, shown with no text. *)
Theorem display_is_a_prefix_of_the_file (w : world) (c : config) (st : state)
    (filePath : string) (st' : state) (tree : node) (b : bool)
    (f : Consumers.content_file) (maxLength : nat) :
  analyze w c st filePath = Some (st', Returned tree) →
  f ∈ Consumers.collectFilesWithContent tree b →
  List.length (Consumers.d_text (Consumers.getDisplayContent f maxLength)) ≤ maxLength
  ∧ ∃ p, Consumers.cf_absolutePath f = Some p
      ∧ match Consumers.d_error (Consumers.getDisplayContent f maxLength) with
        | None =>
            ∃ size text,
              fs w !! p = Some (File size (Some text))
              ∧ text ≠ ""%string
              ∧ Consumers.d_text (Consumers.getDisplayContent f maxLength)
                = take maxLength (Consumers.utf16 text)
              ∧ Consumers.d_truncated (Consumers.getDisplayContent f maxLength)
                = (maxLength <? List.length (Consumers.utf16 text))%nat
        | Some Consumers.NoContentAvailable =>
            (∃ size, fs w !! p = Some (File size (Some ""%string)))
            ∧ Consumers.d_text (Consumers.getDisplayContent f maxLength) = []
        | Some (Consumers.Skipped reason) =>
            fi_skipReason (getFileInfo w c p) = Some reason
            ∧ Consumers.d_text (Consumers.getDisplayContent f maxLength) = []
        end.
Proof.
  intros (Hwb & _ & _)%analyze_well_built Hf.
  destruct (content_listing_spec w c tree b Hwb) as [_ Hentries].
  destruct (Hentries f Hf) as (m & Hm & Hb & Hex & ->).
  destruct (content_entry_built w c tree m Hm Hb Hex)
    as (p & Hp & _ & Hexists & _ & Hcontent & _ & Hskip & _).
  unfold Consumers.getDisplayContent. rewrite Hskip, Hcontent.
  destruct (getFileInfo_cases w c p Hexists)
    as [(r & Hr & Hempty)|(size & text & Hfs & _ & _ & Hinfo)].
  - rewrite Hr. cbn [Consumers.d_text Consumers.d_error List.length].
    split; [lia|]. by exists p.
  - rewrite Hinfo. cbn [fi_skipReason fi_content].
    destruct (String.eqb text "") eqn:Htext.
    + apply String.eqb_eq in Htext as ->.
      cbn [Consumers.d_text Consumers.d_error List.length].
      split; [lia|]. exists p. split; [done|]. split; [by exists size | done].
    + apply String.eqb_neq in Htext.
      destruct (maxLength <? List.length (Consumers.utf16 text))%nat eqn:Hlong;
        cbn [Consumers.d_text Consumers.d_error Consumers.d_truncated].
      * rewrite length_take. split; [lia|]. exists p. split; [done|].
        exists size, text. by rewrite Hlong.
      * apply Nat.ltb_ge in Hlong. split; [done|]. exists p. split; [done|].
        exists size, text. rewrite take_ge by done.
        split; [done|]. split; [done|]. split; [done|].
        symmetry. by apply Nat.ltb_ge.
Qed.

Lemma display_is_a_prefix_of_the_file_witness :
  ∃ st' tree,
    analyze Sample.accented Sample.defaults (Sample.fresh Sample.accented)
      "src/menu.ts"
    = Some (st', Returned tree)
    ∧ ∃ f, head (Consumers.collectFilesWithContent tree false) = Some f
           ∧ String.length (Consumers.cf_content f) = 16
           ∧ List.length (Consumers.utf16 (Consumers.cf_content f)) = 15
           ∧ Consumers.getDisplayContent f 15
             = Consumers.Display None
                 [47; 47; 32; 99; 97; 102; 233; 32; 97; 117; 32; 108; 97; 105; 116]%N
                 false
           ∧ Consumers.getDisplayContent f 7
             = Consumers.Display None [47; 47; 32; 99; 97; 102; 233]%N true
           ∧ List.length (Consumers.d_text (Consumers.getDisplayContent f 7)) ≤ 7.
Proof.
  eexists _, _. split; [vm_compute; reflexivity|].
  eexists. split; [vm_compute; reflexivity|].
  split; [reflexivity|]. split; [reflexivity|].
  split; [reflexivity|]. split; [reflexivity|].
  eapply proj1,
    (display_is_a_prefix_of_the_file Sample.accented Sample.defaults
       (Sample.fresh Sample.accented) "src/menu.ts" _ _ false);
    [vm_compute; reflexivity|].
  vm_compute. apply list_elem_of_In. left. reflexivity.
Defined.

(** *** The file list *)

Lemma length_set_add x s :
  List.length s ≤ List.length (set_add x s) ≤ S (List.length s).
Proof. unfold set_add. case_bool_decide; [lia|]. rewrite length_app. simpl. lia. Qed.

Lemma listed_fold b (l : list (node * nat)) : ∀ files,
  (NoDup files → NoDup (fold_left (λ a mk, listed b mk.1 a) l files))
  ∧ ∀ x, x ∈ fold_left (λ a mk, listed b mk.1 a) l files
         ↔ x ∈ files
           ∨ ∃ mk, mk ∈ l ∧ b || negb (n_external mk.1) = true ∧ n_path mk.1 = x.
Proof.
  induction l as [|[m k] l IH]; intros files; cbn [fold_left fst].
  - split; [done|]. intros x. split; [by left|].
    intros [?|(mk & Hmk%elem_of_nil & _)]; done.
  - destruct (IH (listed b m files)) as [Hnd Hin]. split.
    + intros Hfiles. apply Hnd. unfold listed.
      destruct (b || negb (n_external m)); [by apply set_add_NoDup | done].
    + intros x. rewrite Hin. unfold listed.
      destruct (b || negb (n_external m)) eqn:Hm.
      * rewrite set_add_elem. split.
        -- intros [[?| ->]|(mk & Hmk & ?)]; [by left| |].
           ++ right. exists (m, k). split; [left|done].
           ++ right. exists mk. split; [by right|done].
        -- intros [?|(mk & [->|Hmk]%elem_of_cons & Hshow & Hx)]; [by left; left| |].
           ++ left. right. by rewrite <- Hx.
           ++ right. by exists mk.
      * split.
        -- intros [?|(mk & Hmk & ?)]; [by left|]. right. exists mk.
           split; [by right|done].
        -- intros [?|(mk & [->|Hmk]%elem_of_cons & Hshow & Hx)]; [by left| |].
           ++ simpl in Hshow. congruence.
           ++ right. by exists mk.
Qed.

(** The list with the external leaves is the list without them and at
    most one entry for each external leaf visited. *)
Lemma listed_both (l : list (node * nat)) : ∀ shown hidden,
  List.length shown ≤ List.length hidden + 0 →
  (∀ x, x ∈ hidden → x ∈ shown) →
  List.length (fold_left (λ a mk, listed true mk.1 a) l shown)
  ≤ List.length (fold_left (λ a mk, listed false mk.1 a) l hidden)
    + List.length (filter (λ mk, n_external mk.1 = true) l).
Proof.
  assert (Hgen : ∀ e shown hidden,
    List.length shown ≤ List.length hidden + e →
    (∀ x, x ∈ hidden → x ∈ shown) →
    List.length (fold_left (λ a mk, listed true mk.1 a) l shown)
    ≤ List.length (fold_left (λ a mk, listed false mk.1 a) l hidden)
      + (e + List.length (filter (λ mk, n_external mk.1 = true) l))).
  { induction l as [|[m k] l IH]; intros e shown hidden Hlen Hsub;
      cbn [fold_left fst].
    { rewrite filter_nil. simpl. lia. }
    rewrite filter_cons. cbn [fst]. unfold listed at 2 4. cbn [orb].
    pose proof (length_set_add (n_path m) shown) as Hshown.
    destruct (n_external m) eqn:Hext; cbn [negb].
    - rewrite decide_True by done. cbn [List.length].
      specialize (IH (S e) (set_add (n_path m) shown) hidden).
      etransitivity; [apply IH|lia]; [lia|].
      intros x Hx. apply set_add_elem. left. by apply Hsub.
    - rewrite decide_False by done.
      apply IH.
      + destruct (decide (n_path m ∈ hidden)) as [Hh|Hh].
        * unfold set_add. rewrite !bool_decide_eq_true_2 by auto. done.
        * unfold set_add at 2. rewrite bool_decide_eq_false_2 by done.
          rewrite length_app. simpl. lia.
      + intros x [Hx| ->]%set_add_elem; apply set_add_elem;
          [left; by apply Hsub | by right]. }
  intros shown hidden Hlen Hsub. specialize (Hgen 0 shown hidden Hlen Hsub).
  by rewrite Nat.add_0_l in Hgen.
Qed.

Lemma collectAllFiles_visits t b :
  Consumers.collectAllFiles t b = fold_left (λ a mk, listed b mk.1 a) (visits t) [].
Proof.
  unfold Consumers.collectAllFiles, visits.
  by rewrite (collectFilesRecursive_walk b t [] ∅ 0).
Qed.

(** X12: the file list of a tree [analyze] returned ([collectAllFiles]).
    The list has no duplicates and holds paths of nodes of the tree, of
    nodes that are not external when externals are left out; and asking
    for the externals adds at most one entry, since every external leaf
    after the first is skipped as already visited. *)
Theorem file_list_shows_one_external (w : world) (c : config) (st : state)
    (filePath : string) (st' : state) (tree : node) :
  analyze w c st filePath = Some (st', Returned tree) →
  (∀ b, NoDup (Consumers.collectAllFiles tree b))
  ∧ (∀ b x, x ∈ Consumers.collectAllFiles tree b →
            ∃ m, m ∈ subtrees tree ∧ n_path m = x
                 ∧ (b = false → n_external m = false))
  ∧ (∀ x, x ∈ Consumers.collectAllFiles tree false →
          x ∈ Consumers.collectAllFiles tree true)
  ∧ List.length (Consumers.collectAllFiles tree true)
    ≤ S (List.length (Consumers.collectAllFiles tree false)).
Proof.
  intros (Hwb & Hroot & _)%analyze_well_built.
  destruct (visits_distinct tree) as (Hnd & _ & Hsub).
  split; [|split; [|split]].
  - intros b. rewrite collectAllFiles_visits. apply listed_fold. constructor.
  - intros b x. rewrite collectAllFiles_visits.
    intros [Hx%elem_of_nil|(mk & Hmk & Hshow & Hx)]%listed_fold; [done|].
    exists mk.1. split; [|split; [done|]].
    + eapply elem_of_sublist; [|exact Hsub]. by apply list_elem_of_fmap_2.
    + intros ->. simpl in Hshow. by apply negb_true_iff in Hshow.
  - intros x. rewrite !collectAllFiles_visits.
    intros [Hx%elem_of_nil|(mk & Hmk & Hshow & Hx)]%listed_fold; [done|].
    apply listed_fold. right. by exists mk.
  - rewrite !collectAllFiles_visits.
    etransitivity; [apply listed_both; [simpl; lia | done]|].
    pose proof (visits_built w c tree 0 ∅ Hwb Hroot) as Hbuilt.
    pose proof (one_external_visited w c _ Hbuilt Hnd). unfold visits. lia.
Qed.

Lemma file_list_shows_one_external_witness :
  ∃ st' tree,
    analyze Sample.with_packages Sample.include_external
      (Sample.fresh Sample.with_packages) "src/main.ts"
    = Some (st', Returned tree)
    ∧ n_path <$> filter (λ m, n_external m = true) (subtrees tree)
      = ["./impl"; "ghost"]%string
    ∧ Consumers.collectAllFiles tree true
      = ["src/main.ts"; "node_modules/left-pad/index.js"; "./impl"]%string
    ∧ List.length (Consumers.collectAllFiles tree true)
      ≤ S (List.length (Consumers.collectAllFiles tree false)).
Proof.
  eexists _, _. split; [vm_compute; reflexivity|].
  split; [reflexivity|]. split; [reflexivity|].
  eapply proj2, proj2, proj2,
    (file_list_shows_one_external Sample.with_packages Sample.include_external
       (Sample.fresh Sample.with_packages) "src/main.ts").
  vm_compute. reflexivity.
Defined.

(** *** A traversal reaches the whole tree *)

Lemma absolutePaths_unfold n :
  absolutePaths n = {[n_absolutePath n]} ∪ absolutePaths_of (n_dependencies n).
Proof.
  unfold absolutePaths, absolutePaths_of. rewrite subtrees_unfold, fmap_cons.
  by rewrite list_to_set_cons.
Qed.

Lemma absolutePaths_of_snoc ds m :
  absolutePaths_of (ds ++ [m]) = absolutePaths_of ds ∪ absolutePaths m.
Proof.
  unfold absolutePaths_of, absolutePaths.
  by rewrite flat_map_snoc, fmap_app, list_to_set_app_L.
Qed.

Lemma expanded_here_unfold n :
  expanded n = expanded_here n ++ flat_map expanded (n_dependencies n).
Proof. apply expanded_unfold. Qed.

Lemma walks_snoc ds m k V :
  walks (ds ++ [m]) k ([], V)
  = ((walks ds k ([], V)).1 ++ (walk m k ([], (walks ds k ([], V)).2)).1,
     (walk m k ([], (walks ds k ([], V)).2)).2).
Proof.
  unfold walks. rewrite fold_left_app. cbn [fold_left].
  destruct (fold_left _ ds ([], V)) as [l1 V1]. cbn [fst snd].
  by rewrite walk_acc.
Qed.

Lemma walk_leaf n k V :
  n_dependencies n = [] →
  walk n k ([], V)
  = if bool_decide (n_absolutePath n ∈ V) then ([], V)
    else ([(n, k)], {[n_absolutePath n]} ∪ V).
Proof. intros Hleaf. by rewrite walk_nil, Hleaf. Qed.

Lemma walk_with_originalImport imp m k V :
  (walk (with_originalImport imp m) k ([], V)).2 = (walk m k ([], V)).2
  ∧ flat_map (λ mk, expanded_here mk.1) (walk (with_originalImport imp m) k ([], V)).1
    = flat_map (λ mk, expanded_here mk.1) (walk m k ([], V)).1.
Proof.
  rewrite !walk_nil. cbn [with_originalImport n_absolutePath n_dependencies].
  by case_bool_decide.
Qed.

Lemma absolutePaths_with_originalImport imp m :
  absolutePaths (with_originalImport imp m) = absolutePaths m.
Proof. by rewrite !absolutePaths_unfold. Qed.

Lemma reached_leaf (w : world) (s s' : state) (m : node) :
  n_dependencies m = [] → expanded_here m = [] →
  known w s' {[n_absolutePath m]} →
  reached w s s' m.
Proof.
  intros Hleaf Hex Hknown. unfold reached.
  rewrite absolutePaths_unfold, expanded_here_unfold, Hleaf, Hex.
  unfold absolutePaths_of. cbn [flat_map fmap list_fmap list_to_set app].
  rewrite (right_id_L ∅ (∪)). split; [done|]. intros k V _.
  rewrite walk_leaf by done. case_bool_decide; cbn [fst snd flat_map].
  - split; [set_solver|done].
  - rewrite Hex. split; [set_solver|done].
Qed.

Lemma known_mono (w : world) (s s' : state) V :
  (∀ p, is_Some (visited s !! p) → is_Some (visited s' !! p)) →
  known w s V → known w s' V.
Proof. intros Hmono HV p Hp. destruct (HV p Hp); [left; auto | by right]. Qed.

Lemma known_union (w : world) (s : state) V1 V2 :
  known w s V1 → known w s V2 → known w s (V1 ∪ V2).
Proof. intros H1 H2 p [?|?]%elem_of_union; auto. Qed.

Lemma adds_expanded_mono (st st' : state) (paths : list string) :
  adds_expanded st st' paths →
  ∀ p, is_Some (visited st !! p) → is_Some (visited st' !! p).
Proof.
  intros (_ & _ & Hdom & _) p Hp. apply elem_of_dom. rewrite Hdom.
  apply elem_of_union. left. by apply elem_of_dom.
Qed.

Section Reach.
Context (w : world) (c : config).
Hypothesis Hresolved : resolves_to_resolved w c.

Lemma extractDependencies_reached fuel : ∀ st filePath d st' n,
  extractDependencies w c fuel st filePath d = Some (st', Some n) →
  visited st !! Path.resolve (cwd w) [filePath] = None →
  reached w st st' n.
Proof.
  induction fuel as [|fuel IH]; intros st filePath d st' n; [done|].
  intros Hrun Hfresh.
  revert Hrun. cbn [extractDependencies].
  destruct (exceeds c d); [done|].
  destruct (visited_at_or_above st _ d) eqn:Hvis.
  { unfold visited_at_or_above in Hvis. by rewrite Hfresh in Hvis. }
  set (rp := Path.resolve (cwd w) [filePath]) in *.
  destruct (negb (existsSync w rp)) eqn:Hex.
  { intros [= <- <-]. apply negb_true_iff in Hex.
    apply reached_leaf; [done|done|].
    intros p [= ->]%elem_of_singleton_1. by right. }
  apply negb_false_iff in Hex.
  destruct (processImports _ _ _ _ _ _ _ _ _) as [[st2 deps]|] eqn:Hloop; [|done].
  intros [= <- <-].
  apply (processImports_fold w c _ _ _ _
           (λ s ds,
              (∀ p, is_Some (visited (mark_visited rp d st) !! p)
                    → is_Some (visited s !! p))
              ∧ known w s (absolutePaths_of ds)
              ∧ ∀ k V, known w (mark_visited rp d st) V →
                  (walks ds k ([], V)).2 = V ∪ absolutePaths_of ds
                  ∧ flat_map (λ mk, expanded_here mk.1) (walks ds k ([], V)).1
                    = flat_map expanded ds))
    in Hloop.
  - destruct Hloop as (Hmono & Hknown & Hwalks). unfold reached.
    rewrite absolutePaths_unfold, expanded_here_unfold.
    cbn [file_node n_absolutePath n_dependencies n_exists expanded_here app].
    assert (Hrp : is_Some (visited st2 !! rp)).
    { apply Hmono. cbn [mark_visited visited]. by rewrite lookup_insert_eq. }
    split.
    { apply known_union; [|done].
      intros p [= ->]%elem_of_singleton_1. by left. }
    intros k V HV. rewrite walk_nil. cbn [file_node n_absolutePath n_dependencies].
    rewrite bool_decide_eq_false_2.
    2:{ intros Hin. destruct (HV rp Hin) as [[? Hv]|Hno]; congruence. }
    cbn [fst snd flat_map expanded_here file_node n_exists n_absolutePath app].
    destruct (Hwalks (S k) ({[Some rp]} ∪ V)) as [Hset Hexp].
    { apply known_union.
      - intros p [= ->]%elem_of_singleton_1. left.
        cbn [mark_visited visited]. by rewrite lookup_insert_eq.
      - eapply known_mono; [|exact HV]. intros p [v Hp].
        cbn [mark_visited visited].
        destruct (decide (p = rp)) as [->|Hne];
          [by rewrite lookup_insert_eq | by rewrite lookup_insert_ne]. }
    rewrite Hset, Hexp. split; [set_solver|done].
  - intros s ds imp s' r (Hmono & Hknown & Hwalks) Hround.
    assert (Hstep : (∀ p, is_Some (visited s !! p) → is_Some (visited s' !! p))
                    ∧ match r with
                      | Some m => reached w s s' m
                      | None => True
                      end).
    { inversion Hround as [Hnone Hinc| |target Hres Hne Hvisited
                          |target s1 r1 Hres Hne Hunvisited Hcall]; subst.
      - split; [done|]. apply reached_leaf; [done|done|].
        by intros p [=]%elem_of_singleton_1.
      - done.
      - split; [done|]. apply reached_leaf; [done|done|].
        intros p [= ->]%elem_of_singleton_1. by left.
      - assert (Hfresh1 : visited s !! Path.resolve (cwd w) [target] = None)
          by (by rewrite (Hresolved _ _ _ _ Hres)).
        split.
        + eapply adds_expanded_mono.
          by apply (extractDependencies_adds w c Hresolved _ _ _ _ _ _ Hcall).
        + destruct r1 as [m|]; [|done]. cbn [fmap option_fmap option_map].
          destruct (IH _ _ _ _ _ Hcall Hfresh1) as [Hk Hw]. unfold reached.
          rewrite absolutePaths_with_originalImport, expanded_originalImport.
          split; [done|]. intros k V HV.
          destruct (walk_with_originalImport imp m k V) as [-> ->].
          by apply Hw. }
    destruct Hstep as [Hmono1 Hr].
    split; [by intros p Hp; apply Hmono1, Hmono|].
    destruct r as [m|]; cbn [pushed].
    2:{ rewrite app_nil_r. split; [by eapply known_mono|done]. }
    destruct Hr as [Hkm Hwm]. rewrite absolutePaths_of_snoc. split.
    { apply known_union; [by eapply known_mono | done]. }
    intros k V HV. rewrite walks_snoc. cbn [fst snd].
    destruct (Hwalks k V HV) as [Hset Hexp].
    destruct (Hwm k (walks ds k ([], V)).2) as [Hset1 Hexp1].
    { rewrite Hset. apply known_union; [|done]. by eapply known_mono. }
    rewrite Hset1, flat_map_app, Hexp, Hexp1, flat_map_snoc, Hset.
    split; [set_solver|done].
  - split; [done|]. split; [by intros p ?%elem_of_empty|].
    intros k V _. unfold walks, absolutePaths_of. simpl. split; [set_solver|done].
Qed.
End Reach.

Lemma analyze_reached (w : world) (c : config) (st : state)
    (filePath : string) (st' : state) (tree : node) :
  resolves_to_resolved w c →
  visited st !! Path.resolve (cwd w) [filePath] = None →
  analyze w c st filePath = Some (st', Returned tree) →
  list_to_set (paths_of (visits tree)) = absolutePaths tree
  ∧ flat_map (λ mk, expanded_here mk.1) (visits tree) = expanded tree.
Proof.
  intros Hres Hfresh. unfold analyze, analyze_with.
  destruct (extractDependencies _ _ _ _ _ _) as [[st1 [n|]]|] eqn:Hrun; [|done|done].
  intros [= <- <-].
  apply (extractDependencies_reached w c Hres) in Hrun as [_ Hwalk];
    [|by rewrite ensure_root_visited].
  destruct (Hwalk 0 ∅) as [Hset Hexp]; [by intros p ?%elem_of_empty|].
  split; [|done].
  destruct (walk_spec n 0 ∅) as (Hspec & _). unfold visits.
  rewrite Hspec in Hset. set_solver.
Qed.

Lemma shown_expanded (w : world) (c : config) (b : bool) (l : list node) :
  Forall (built w c) l →
  n_absolutePath <$> filter (λ m, Consumers.exists_without_error m
                                  && (b || negb (n_external m)) = true) l
  = Some <$> flat_map expanded_here l.
Proof.
  induction 1 as [|m l Hm _ IH]; [done|].
  rewrite filter_cons. cbn [flat_map]. rewrite fmap_app, <- IH.
  unfold expanded_here at 1, Consumers.exists_without_error.
  destruct (n_exists m) as [[|]|] eqn:Hex;
    try (rewrite decide_False by done; by destruct (n_absolutePath m)).
  destruct (built_file _ _ _ Hm Hex) as (p & Hp & _ & -> & _ & -> & _).
  cbn [truthy negb andb orb]. rewrite orb_true_r, decide_True by done.
  by rewrite fmap_cons, Hp.
Qed.

Lemma flat_map_fst {A} (f : node → list A) (l : list (node * nat)) :
  flat_map (λ mk, f mk.1) l = flat_map f l.*1.
Proof. induction l as [|[m k] l IH]; [done|]. simpl. by rewrite IH. Qed.

(** X13: on the tree of a run that starts from an unvisited root, with
    a resolver that returns resolved paths, the consumers reach the
    whole tree.  The content listing lists exactly the expanded files,
    in the order of the tree; the file count of [getStats] is the
    number of different absolute paths in the tree; and the count of
    external dependencies is 1 when the tree has an external leaf and 0
    when it has none. *)
Theorem consumers_reach_the_whole_tree (w : world) (c : config) (st : state)
    (filePath : string) (st' : state) (tree : node) :
  resolves_to_resolved w c →
  visited st !! Path.resolve (cwd w) [filePath] = None →
  analyze w c st filePath = Some (st', Returned tree) →
  (∀ b, Consumers.cf_absolutePath <$> Consumers.collectFilesWithContent tree b
        = Some <$> expanded tree)
  ∧ Consumers.totalFiles (Consumers.getStats tree) = size (absolutePaths tree)
  ∧ Consumers.externalDeps (Consumers.getStats tree)
    = if bool_decide (Exists (λ m, n_external m = true) (subtrees tree))
      then 1 else 0.
Proof.
  intros Hres Hfresh Hrun.
  destruct (analyze_reached w c st filePath st' tree Hres Hfresh Hrun) as [Hset Hexp].
  apply analyze_well_built in Hrun as (Hwb & Hroot & _).
  destruct (visits_distinct tree) as (Hnd & _ & Hsub).
  pose proof (visits_built w c tree 0 ∅ Hwb Hroot) as Hbuilt.
  fold (visits tree) in Hbuilt.
  assert (Hall : Forall (built w c) (subtrees tree)) by done.
  rewrite Forall_forall in Hall.
  destruct (counted_fold (visits tree) (Consumers.Stats 0 0 0 0 []))
    as (Htotal & Hext & _).
  split; [|split].
  - intros b. rewrite collectFilesWithContent_visits, <- list_fmap_compose.
    change (Consumers.cf_absolutePath ∘ Consumers.content_entry) with n_absolutePath.
    rewrite (shown_expanded w c), <- flat_map_fst, Hexp; [done|].
    apply Forall_forall. intros m Hm. apply Hall. by eapply elem_of_sublist.
  - rewrite getStats_visits, Htotal, <- Hset, size_list_to_set by done.
    unfold paths_of. by rewrite length_fmap.
  - rewrite getStats_visits, Hext. cbn [Consumers.externalDeps].
    pose proof (one_external_visited w c _ Hbuilt Hnd) as Hone.
    case_bool_decide as Hany.
    + apply Exists_exists in Hany as (m & Hm & Hmext).
      destruct (built_external _ _ _ (Hall m Hm) Hmext) as (Hnone & _).
      assert (Hin : None ∈ absolutePaths tree).
      { apply elem_of_list_to_set. rewrite <- Hnone. by apply list_elem_of_fmap_2. }
      rewrite <- Hset in Hin. apply elem_of_list_to_set in Hin.
      apply list_elem_of_fmap in Hin as (mk & Hmk & Hvisited).
      assert (Hmkext : n_external mk.1 = true).
      { destruct (n_external mk.1) eqn:He; [done|].
        assert (Hmkin : mk.1 ∈ subtrees tree).
        { eapply elem_of_sublist; [|exact Hsub]. by apply list_elem_of_fmap_2. }
        destruct (built_path _ _ _ (Hall _ Hmkin) He) as [p Hp]. congruence. }
      assert (Hf : mk ∈ filter (λ mk, n_external mk.1 = true) (visits tree))
        by (by apply list_elem_of_filter).
      destruct (filter _ (visits tree)); [by apply elem_of_nil in Hf|].
      simpl in *. lia.
    + destruct (filter _ (visits tree)) as [|mk r] eqn:Hf; [done|]. destruct Hany.
      assert (Hmk : mk ∈ filter (λ mk, n_external mk.1 = true) (visits tree))
        by (rewrite Hf; left).
      apply list_elem_of_filter in Hmk as [Hmkext Hmk].
      apply Exists_exists. exists mk.1. split; [|done].
      eapply elem_of_sublist; [|exact Hsub]. by apply list_elem_of_fmap_2.
Qed.

Lemma consumers_reach_the_whole_tree_witness :
  resolves_to_resolved Sample.diamond Sample.defaults
  ∧ visited (Sample.fresh Sample.diamond)
      !! Path.resolve (cwd Sample.diamond) ["src/r.ts"%string] = None
  ∧ ∃ st' tree,
      analyze Sample.diamond Sample.defaults (Sample.fresh Sample.diamond) "src/r.ts"
      = Some (st', Returned tree)
      ∧ List.length (subtrees tree) = 5
      ∧ Consumers.cf_absolutePath <$> Consumers.collectFilesWithContent tree true
        = Some <$> expanded tree
      ∧ Consumers.totalFiles (Consumers.getStats tree) = size (absolutePaths tree).
Proof.
  assert (Hres : resolves_to_resolved Sample.diamond Sample.defaults)
    by (by apply sample_resolved).
  refine (conj Hres (conj eq_refl _)).
  eexists _, _. split; [vm_compute; reflexivity|]. split; [reflexivity|].
  match goal with
  | |- _ <$> Consumers.collectFilesWithContent ?t _ = _ ∧ _ =>
      destruct (consumers_reach_the_whole_tree Sample.diamond Sample.defaults
                  (Sample.fresh Sample.diamond) "src/r.ts" _ t Hres eq_refl
                  ltac:(vm_compute; reflexivity))
        as (Hlist & Htotal & _)
  end.
  exact (conj (Hlist true) Htotal).
Defined.

(** ** The project root *)

Lemma length_string_of_list_ascii l :
  String.length (string_of_list_ascii l) = List.length l.
Proof. induction l as [|a l IH]; simpl; [done | by rewrite IH]. Qed.

Lemma length_list_ascii_of_string s :
  List.length (list_ascii_of_string s) = String.length s.
Proof. induction s as [|a s IH]; simpl; [done | by rewrite IH]. Qed.

Lemma length_drop_while_rev f l :
  List.length (Path.drop_while_rev f l) ≤ List.length l.
Proof. induction l as [|a l IH]; simpl; [done|]. destruct (f a); simpl; lia. Qed.

Lemma drop_while_rev_head f l a r :
  Path.drop_while_rev f l = a :: r → f a = false.
Proof.
  induction l as [|b l IH]; simpl; [done|].
  destruct (f b) eqn:Hb; [done|]. by intros [= <- <-].
Qed.

(** [path.dirname] of an absolute path other than the root is a shorter
    absolute path, so the walk towards the root ends. *)
Lemma dirname_shorter p :
  Path.isAbsolute p = true → p ≠ "/"%string →
  String.length (Path.dirname p) < String.length p
  ∧ Path.isAbsolute (Path.dirname p) = true.
Proof.
  unfold Path.isAbsolute, Path.dirname.
  destruct p as [|c0 rest]; [done|]. cbn [startsWith list_ascii_of_string].
  rewrite andb_true_r. intros Hc0 Hne. rewrite Ascii.eqb_sym, Hc0.
  apply Ascii.eqb_eq in Hc0 as <-.
  set (r1 := Path.drop_while_rev (λ c, Ascii.eqb c "/") (rev (list_ascii_of_string rest))).
  set (r2 := Path.drop_while_rev (λ c, negb (Ascii.eqb c "/")) r1).
  assert (Hlen1 : List.length r1 ≤ String.length rest).
  { unfold r1. etransitivity; [apply length_drop_while_rev|].
    by rewrite length_rev, length_list_ascii_of_string. }
  assert (Hlen2 : r2 ≠ [] → S (List.length r2) ≤ List.length r1).
  { unfold r2. destruct r1 as [|a r1'] eqn:Hr1; [done|]. intros Hr2.
    apply drop_while_rev_head in Hr1. cbn [Path.drop_while_rev] in *.
    rewrite Hr1 in *. cbn [negb] in *.
    pose proof (length_drop_while_rev (λ c, negb (Ascii.eqb c "/")) r1'). simpl. lia. }
  cbn [String.length].
  destruct r2 as [|x before] eqn:Hr2.
  - split; [|done]. destruct rest; [done|]. simpl. lia.
  - specialize (Hlen2 ltac:(done)). simpl in Hlen2.
    destruct before as [|y before'].
    + split; [simpl in *; lia|done].
    + split; [|done]. simpl. rewrite length_string_of_list_ascii, length_app, length_rev.
      simpl in *. lia.
Qed.

Lemma ancestor_root n : ancestor n "/" = "/"%string.
Proof. induction n as [|n IH]; [done|]. simpl. exact IH. Qed.

Lemma walk_up_nearest (w : world) : ∀ n rounds dir,
  Path.isAbsolute dir = true → String.length dir < rounds →
  (∀ j, j < n → has_indicator w (ancestor j dir) = false) →
  has_indicator w (ancestor n dir) = true →
  ancestor n dir ≠ "/"%string →
  walk_up w rounds dir = Some (ancestor n dir).
Proof.
  induction n as [|n IH]; intros rounds dir Habs Hrounds Hnone Hfound Hnotroot;
    (destruct rounds as [|rounds]; [lia|]); cbn [walk_up].
  all: assert (Hdir : dir ≠ "/"%string)
         by (intros ->; by rewrite ancestor_root in Hnotroot).
  all: destruct (dirname_shorter dir Habs Hdir) as [Hshort Habs1].
  all: rewrite (proj2 (String.eqb_neq _ _)) by (intros Heq; rewrite <- Heq in Hshort; lia).
  - cbn [ancestor] in *. unfold has_indicator in Hfound. by rewrite Hfound.
  - pose proof (Hnone 0 ltac:(lia)) as H0. cbn [ancestor] in H0.
    unfold has_indicator in H0. rewrite H0. cbn [ancestor] in *.
    apply IH; [done|lia| |done|done].
    intros j Hj. apply (Hnone (S j)). lia.
Qed.

(** X14: the project root [analyze] detects.  Walking up from the
    directory of the file, the nearest directory that holds one of the
    indicator files ([package.json], [tsconfig.json], [.git], ...) and
    is not the filesystem root becomes the root directory. *)
Theorem nearest_indicator_is_root (w : world) (st : state) (filePath : string)
    (n : nat) :
  Path.isAbsolute (cwd w) = true →
  (∀ j, j < n →
        has_indicator w
          (ancestor j (Path.dirname (Path.resolve (cwd w) [filePath]))) = false) →
  has_indicator w (ancestor n (Path.dirname (Path.resolve (cwd w) [filePath]))) = true →
  ancestor n (Path.dirname (Path.resolve (cwd w) [filePath])) ≠ "/"%string →
  autoDetectProjectRoot w st filePath
  = set_rootDir (ancestor n (Path.dirname (Path.resolve (cwd w) [filePath]))) st.
Proof.
  intros Hcwd Hnone Hfound Hnotroot. unfold autoDetectProjectRoot.
  destruct (PathFacts.resolve_normal (cwd w) [filePath] Hcwd) as [Habs _].
  set (resolved := Path.resolve (cwd w) [filePath]) in *.
  assert (Hdir : Path.isAbsolute (Path.dirname resolved) = true).
  { destruct (decide (resolved = "/"%string)) as [->|Hne]; [done|].
    by apply dirname_shorter. }
  by rewrite (walk_up_nearest w n _ _ Hdir (Nat.lt_succ_diag_r _) Hnone Hfound Hnotroot).
Qed.

Lemma nearest_indicator_is_root_witness :
  Path.isAbsolute (cwd Sample.diamond) = true
  ∧ has_indicator Sample.diamond "/proj/src" = false
  ∧ autoDetectProjectRoot Sample.diamond (Sample.fresh Sample.diamond) "src/r.ts"
    = set_rootDir "/proj" (Sample.fresh Sample.diamond).
Proof.
  split; [reflexivity|]. split; [reflexivity|].
  apply (nearest_indicator_is_root Sample.diamond (Sample.fresh Sample.diamond)
           "src/r.ts" 1); [reflexivity| |reflexivity|done].
  intros j Hj. assert (j = 0) as -> by lia. reflexivity.
Defined.

(** ** Children and imports *)

Section Labels.
Context (w : world) (c : config).
Context (rec : state → string → nat → option (state * option node)).
Context (relativePath resolvedPath : string) (currentDepth : nat).

Lemma round_label st imp st' r :
  round w c rec relativePath resolvedPath currentDepth st imp st' r →
  ∀ k, r = Some k → n_originalImport k = Some imp.
Proof.
  intros Hround k Hk.
  inversion Hround as [| | |t s1 r1 _ _ _ Hcall]; subst; try by simplify_eq/=.
  destruct r1; by simplify_eq/=.
Qed.

Lemma round_pushes st imp st' r :
  includeExternal c = true →
  (∀ s t s1, rec s t (S currentDepth) ≠ Some (s1, None)) →
  round w c rec relativePath resolvedPath currentDepth st imp st' r →
  is_Some r.
Proof.
  intros Hinc Hrec Hround.
  inversion Hround as [| | |t s1 r1 _ _ _ Hcall]; subst; try done; try congruence.
  destruct r1; [done|]. by apply Hrec in Hcall.
Qed.

Lemma processImports_labels : ∀ imports st deps st' deps',
  processImports w c rec relativePath resolvedPath currentDepth st imports deps
  = Some (st', deps') →
  ∃ new, deps' = deps ++ new
         ∧ sublist (omap n_originalImport new) imports
         ∧ Forall (λ k, is_Some (n_originalImport k)) new
         ∧ (includeExternal c = true →
            (∀ s t s1, rec s t (S currentDepth) ≠ Some (s1, None)) →
            n_originalImport <$> new = Some <$> imports).
Proof.
  induction imports as [|imp imports IH]; intros st deps st' deps'; simpl.
  - intros [= <- <-]. exists []. rewrite app_nil_r. repeat split; constructor.
  - destruct (processImport _ _ _ _ _ _ st imp) as [[st1 r1]|] eqn:Hstep; [|done].
    apply processImport_round in Hstep.
    pose proof (round_label _ _ _ _ Hstep) as Hlabel.
    pose proof (λ Hinc Hrec, round_pushes _ _ _ _ Hinc Hrec Hstep) as Hpush.
    destruct r1 as [k|]; intros (new & -> & Hsub & Hsome & Hall)%IH.
    + specialize (Hlabel k eq_refl).
      exists (k :: new). rewrite <- app_assoc. split; [done|].
      cbn [omap list_omap]. rewrite Hlabel. split; [by constructor|].
      split; [constructor; [by rewrite Hlabel | done]|].
      intros Hinc Hrec. rewrite !fmap_cons, Hlabel. f_equal. by apply Hall.
    + exists new. split; [done|]. split; [by constructor|]. split; [done|].
      intros Hinc Hrec. by destruct (Hpush Hinc Hrec).
Qed.
End Labels.

Lemma extractDependencies_returns_node (w : world) (c : config) fuel st filePath d st' r :
  maxDepth c = None →
  extractDependencies w c fuel st filePath d = Some (st', r) → is_Some r.
Proof.
  intros Hmx. destruct fuel as [|fuel]; [done|]. cbn [extractDependencies].
  unfold exceeds. rewrite Hmx.
  destruct (visited_at_or_above st _ d); [by intros [= <- <-]|].
  destruct (negb (existsSync w _)); [by intros [= <- <-]|].
  destruct (processImports _ _ _ _ _ _ _ _ _) as [[st2 deps]|]; [|done].
  by intros [= <- <-].
Qed.

Lemma parseImports_NoDup (w : world) (content fileName : string) :
  NoDup (parseImports w content fileName).
Proof.
  unfold parseImports. destruct (String.eqb content ""); [constructor|].
  match goal with
  | |- context [fold_left _ ?ls []] =>
      destruct (scan_lines_spec w ls []) as [Hnd _]
  end.
  apply Hnd. constructor.
Qed.

Lemma follows_originalImport (w : world) (c : config) imp n :
  follows_imports w c n → follows_imports w c (with_originalImport imp n).
Proof. done. Qed.

Section Follows.
Context (w : world) (c : config).

Lemma extractDependencies_follows fuel : ∀ st filePath d st' n,
  extractDependencies w c fuel st filePath d = Some (st', Some n) →
  Forall (follows_imports w c) (subtrees n).
Proof.
  induction fuel as [|fuel IH]; intros st filePath d st' n; [done|].
  cbn [extractDependencies].
  destruct (exceeds c d) eqn:Hd; [done|].
  destruct (visited_at_or_above st _ d) eqn:Hvis.
  { intros [= <- <-]. apply subtrees_Forall; [done | constructor]. }
  destruct (negb (existsSync w _)) eqn:Hex.
  { intros [= <- <-]. apply subtrees_Forall; [done | constructor]. }
  destruct (processImports _ _ _ _ _ _ _ _ _) as [[st2 deps]|] eqn:Hloop; [|done].
  intros [= <- <-].
  pose proof (processImports_labels w c _ _ _ _ _ _ _ _ _ Hloop)
    as (new & Hnew & Hsub & Hsome & Hall).
  rewrite app_nil_l in Hnew. subst new.
  apply (processImports_invariant w c _ _ _ _ (λ _ _, True)
           (λ k, Forall (follows_imports w c) (subtrees k)))
    in Hloop as [_ HP]; [|done|done|done|].
  - specialize (HP (Forall_nil_2 _)).
    apply subtrees_Forall; [|exact HP].
    intros _. eexists. split; [reflexivity|].
    cbn [file_node n_importCount n_path n_dependencies]. unfold imports_of.
    split; [done|]. split; [done|]. split; [done|].
    intros Hinc Hmx. apply Hall; [done|].
    intros s t s1 Hcall.
    by destruct (extractDependencies_returns_node w c _ _ _ _ _ _ Hmx Hcall).
  - intros st0 imp st0' k Hround.
    inversion Hround as [| | |t s1 r1 _ _ _ Hcall]; subst.
    + apply subtrees_Forall; [done | constructor].
    + apply subtrees_originalImport; [done|].
      apply subtrees_Forall; [done | constructor].
    + destruct r1 as [n1|]; [|done]. simplify_eq/=.
      pose proof (IH _ _ _ _ _ Hcall) as Hn1.
      apply subtrees_originalImport; [|done].
      apply follows_originalImport.
Qed.
End Follows.

(** X15: the children of a node are labelled with the imports of its
    file.  For every expanded node of a tree [analyze] returned, the
    import count is the number of specifiers [parseImports] finds in
    what [getFileInfo] read; every child carries the specifier it was
    made for, the labels are pairwise different and come in the order
    of the imports, at most one child for an import; and with external
    inclusion on and no depth limit there is exactly one child for
    each import. *)
Theorem children_follow_imports (w : world) (c : config) (st : state)
    (filePath : string) (st' : state) (tree m : node) :
  analyze w c st filePath = Some (st', Returned tree) →
  m ∈ subtrees tree → n_exists m = Some true →
  ∃ p, n_absolutePath m = Some p
       ∧ n_importCount m = Some (List.length (imports_of w c p (n_path m)))
       ∧ sublist (omap n_originalImport (n_dependencies m))
           (imports_of w c p (n_path m))
       ∧ NoDup (omap n_originalImport (n_dependencies m))
       ∧ Forall (λ k, is_Some (n_originalImport k)) (n_dependencies m)
       ∧ (includeExternal c = true → maxDepth c = None →
          n_originalImport <$> n_dependencies m
          = Some <$> imports_of w c p (n_path m)).
Proof.
  unfold analyze, analyze_with.
  destruct (extractDependencies _ _ _ _ _ _) as [[st1 [n|]]|] eqn:Hcall; [|done|done].
  intros [= <- <-] Hm Hex.
  apply extractDependencies_follows in Hcall. rewrite Forall_forall in Hcall.
  destruct (Hcall m Hm Hex) as (p & Hp & Hcount & Hsub & Hsome & Hall).
  exists p. split; [done|]. split; [done|]. split; [done|]. split; [|done].
  eapply sublist_NoDup; [|exact Hsub].
  unfold imports_of. apply parseImports_NoDup.
Qed.

Lemma children_follow_imports_witness :
  ∃ st' tree,
    analyze Sample.diamond Sample.defaults (Sample.fresh Sample.diamond) "src/r.ts"
    = Some (st', Returned tree)
    ∧ n_importCount tree = Some 2
    ∧ omap n_originalImport (n_dependencies tree) = ["./a"; "./c"]%string
    ∧ ∃ p, n_absolutePath tree = Some p
           ∧ sublist (omap n_originalImport (n_dependencies tree))
               (imports_of Sample.diamond Sample.defaults p (n_path tree)).
Proof.
  eexists _, _. split; [vm_compute; reflexivity|].
  split; [reflexivity|]. split; [reflexivity|].
  match goal with
  | |- ∃ p, n_absolutePath ?t = _ ∧ _ =>
      destruct (children_follow_imports Sample.diamond Sample.defaults
                  (Sample.fresh Sample.diamond) "src/r.ts" _ t t
                  ltac:(vm_compute; reflexivity)
                  ltac:(rewrite subtrees_unfold; left)
                  eq_refl)
        as (p & Hp & _ & Hsub & _)
  end.
  exists p. exact (conj Hp Hsub).
Defined.

(** ** The circular-dependency report *)

Lemma flat_map_subtrees {A} (f : node → list A) : ∀ n,
  flat_map f (subtrees n)
  = f n ++ flat_map (λ k, flat_map f (subtrees k)) (n_dependencies n).
Proof.
  intros n. rewrite subtrees_unfold. cbn [flat_map]. f_equal.
  induction (n_dependencies n) as [|k l IH]; [done|].
  cbn [flat_map]. by rewrite flat_map_app, IH.
Qed.

Lemma circular_edges_unfold n :
  circular_edges n
  = edges_from (n_path n) (n_dependencies n)
    ++ flat_map circular_edges (n_dependencies n).
Proof. unfold circular_edges. by rewrite flat_map_subtrees. Qed.

Lemma circular_edges_leaf n : n_dependencies n = [] → circular_edges n = [].
Proof. intros Hleaf. by rewrite circular_edges_unfold, Hleaf. Qed.

Lemma circular_edges_originalImport imp n :
  circular_edges (with_originalImport imp n) = circular_edges n.
Proof. by rewrite !circular_edges_unfold. Qed.

Lemma edges_from_snoc rel ds k :
  edges_from rel (ds ++ [k])
  = edges_from rel ds
    ++ if n_circular k then [(rel +:+ " -> " +:+ n_path k)%string] else [].
Proof.
  unfold edges_from. rewrite filter_app, fmap_app. f_equal.
  rewrite filter_cons, filter_nil.
  destruct (n_circular k); [by rewrite decide_True | by rewrite decide_False].
Qed.

Section CircularReport.
Context (w : world) (c : config).
Hypothesis Hresolved : resolves_to_resolved w c.

Lemma extractDependencies_circular fuel : ∀ st filePath d st' r,
  extractDependencies w c fuel st filePath d = Some (st', r) →
  visited st !! Path.resolve (cwd w) [filePath] = None →
  (∀ x, x ∈ circularDeps st'
        ↔ x ∈ circularDeps st ∨ x ∈ flat_map circular_edges (pushed r))
  ∧ ∀ n, r = Some n → n_circular n = false.
Proof.
  induction fuel as [|fuel IH]; intros st filePath d st' r; [done|].
  cbn [extractDependencies]. intros Hrun Hfresh. revert Hrun.
  destruct (exceeds c d).
  { intros [= <- <-]. split; [|done]. intros x. simpl. rewrite elem_of_nil. tauto. }
  destruct (visited_at_or_above st _ d) eqn:Hvis.
  { unfold visited_at_or_above in Hvis. by rewrite Hfresh in Hvis. }
  set (rp := Path.resolve (cwd w) [filePath]) in *.
  destruct (negb (existsSync w rp)) eqn:Hex.
  { intros [= <- <-]. split; [|by intros ? [= <-]]. intros x.
    cbn [pushed flat_map]. rewrite circular_edges_leaf by done.
    simpl. rewrite elem_of_nil. tauto. }
  destruct (processImports _ _ _ _ _ _ _ _ _) as [[st2 deps]|] eqn:Hloop; [|done].
  intros [= <- <-]. split; [|by intros ? [= <-]].
  set (rel := Path.relative (cwd w) (rootDir st) rp) in *.
  pose (I := λ (s : state) (ds : list node),
               ∀ x, x ∈ circularDeps s
                    ↔ x ∈ circularDeps st
                      ∨ x ∈ edges_from rel ds ++ flat_map circular_edges ds).
  assert (Hround : ∀ s ds imp s' r0,
            I s ds →
            round w c (extractDependencies w c fuel) rel rp d s imp s' r0 →
            I s' (ds ++ pushed r0)).
  { unfold I.
    intros s ds imp s' r0 HI Hround x.
    assert (Hstep : (∀ y, y ∈ circularDeps s'
                          ↔ y ∈ circularDeps s
                            ∨ y ∈ edges_from rel (pushed r0)
                                  ++ flat_map circular_edges (pushed r0))).
    { intros y.
      inversion Hround as [Hnone Hinc| |target Hres Hne Hvisited
                          |target s1 r1 Hres Hne Hunvisited Hcall]; subst.
      - cbn [pushed flat_map]. rewrite circular_edges_leaf by done.
        unfold edges_from. rewrite filter_cons, decide_False by done.
        rewrite filter_nil. simpl. rewrite elem_of_nil. tauto.
      - cbn [pushed flat_map add_unresolved circularDeps]. unfold edges_from.
        rewrite filter_nil. simpl. rewrite elem_of_nil. tauto.
      - cbn [pushed flat_map add_circularDep circularDeps].
        rewrite circular_edges_leaf by done. unfold edges_from.
        rewrite filter_cons, decide_True by done. rewrite filter_nil.
        cbn [fmap list_fmap app with_originalImport circular_node n_path].
        rewrite set_add_elem, list_elem_of_singleton. tauto.
      - assert (Hfresh1 : visited s !! Path.resolve (cwd w) [target] = None)
          by (by rewrite (Hresolved _ _ _ _ Hres)).
        destruct (IH _ _ _ _ _ Hcall Hfresh1) as [Hiff Hnot]. rewrite Hiff.
        destruct r1 as [n1|]; cbn [fmap option_fmap option_map pushed flat_map].
        + rewrite circular_edges_originalImport. unfold edges_from.
          rewrite filter_cons, decide_False, filter_nil;
            [done | cbn [with_originalImport n_circular]; by rewrite (Hnot n1)].
        + unfold edges_from. by rewrite filter_nil. }
    rewrite Hstep, HI. destruct r0 as [k|]; cbn [pushed].
    + rewrite edges_from_snoc, flat_map_snoc.
      unfold edges_from at 2. rewrite filter_cons, filter_nil.
      cbn [flat_map]. rewrite app_nil_r.
      destruct (n_circular k);
        [rewrite decide_True by done | rewrite decide_False by done];
        cbn [fmap list_fmap]; rewrite !elem_of_app; tauto.
    + change (edges_from rel [] ++ flat_map circular_edges []) with (@nil string).
      rewrite !app_nil_r, elem_of_nil. tauto. }
  assert (Hinit : I (mark_visited rp d st) []).
  { unfold I.
    intros x. cbn [mark_visited circularDeps]. unfold edges_from.
    rewrite filter_nil. simpl. rewrite elem_of_nil. tauto. }
  pose proof (processImports_fold w c _ _ _ _ I Hround _ _ _ _ _ Hinit Hloop)
    as Hfinal.
  unfold I in Hfinal.
    intros x. cbn [pushed flat_map register_file circularDeps].
    rewrite app_nil_r, circular_edges_unfold.
    cbn [file_node n_path n_dependencies]. apply Hfinal.
Qed.
End CircularReport.

Lemma ensure_root_circularDeps w st filePath :
  circularDeps (ensure_root w st filePath) = circularDeps st.
Proof.
  unfold ensure_root, autoDetectProjectRoot.
  repeat (case_match; simpl; try done).
Qed.

(** X16: the circular-dependency report.  After a run that starts from
    an unvisited root, with a resolver that returns resolved paths, the
    references the instance has recorded are the ones it had before and
    one reference [parent -> child] for every circular child of a node
    of the tree, and nothing else. *)
Theorem circular_report_matches_tree (w : world) (c : config) (st : state)
    (filePath : string) (st' : state) (tree : node) (x : string) :
  resolves_to_resolved w c →
  visited st !! Path.resolve (cwd w) [filePath] = None →
  analyze w c st filePath = Some (st', Returned tree) →
  x ∈ circularDeps st' ↔ x ∈ circularDeps st ∨ x ∈ circular_edges tree.
Proof.
  intros Hres Hfresh. unfold analyze, analyze_with.
  destruct (extractDependencies _ _ _ _ _ _) as [[st1 [n|]]|] eqn:Hrun; [|done|done].
  intros [= <- <-].
  apply (extractDependencies_circular w c Hres) in Hrun as [Hiff _];
    [|by rewrite ensure_root_visited].
  rewrite Hiff, ensure_root_circularDeps. cbn [pushed flat_map].
  by rewrite app_nil_r.
Qed.

Lemma circular_report_matches_tree_witness :
  resolves_to_resolved Sample.cycle Sample.defaults
  ∧ visited (Sample.fresh Sample.cycle)
      !! Path.resolve (cwd Sample.cycle) ["src/a.ts"%string] = None
  ∧ ∃ st' tree,
      analyze Sample.cycle Sample.defaults (Sample.fresh Sample.cycle) "src/a.ts"
      = Some (st', Returned tree)
      ∧ circular_edges tree = ["src/b.ts -> src/a.ts"%string]
      ∧ ("src/b.ts -> src/a.ts"%string ∈ circularDeps st'
         ↔ "src/b.ts -> src/a.ts"%string ∈ circularDeps (Sample.fresh Sample.cycle)
           ∨ "src/b.ts -> src/a.ts"%string ∈ circular_edges tree).
Proof.
  assert (Hres : resolves_to_resolved Sample.cycle Sample.defaults)
    by (by apply sample_resolved).
  refine (conj Hres (conj eq_refl _)).
  eexists _, _. split; [vm_compute; reflexivity|]. split; [reflexivity|].
  eapply (circular_report_matches_tree Sample.cycle Sample.defaults
            (Sample.fresh Sample.cycle) "src/a.ts" _ _ _ Hres eq_refl).
  vm_compute. reflexivity.
Defined.

(** ** The unresolved imports *)

Section LoopImports.
Context (w : world) (c : config).
Context (rec : state → string → nat → option (state * option node)).
Context (relativePath resolvedPath : string) (currentDepth : nat).

(** Induction over the import loop with an invariant that also sees
    the imports processed so far. *)
Lemma processImports_fold_imports (I : state → list node → list string → Prop) :
  (∀ st deps seen imp st' r,
     I st deps seen →
     round w c rec relativePath resolvedPath currentDepth st imp st' r →
     I st' (deps ++ pushed r) (seen ++ [imp])) →
  ∀ imports st deps seen st' deps',
    I st deps seen →
    processImports w c rec relativePath resolvedPath currentDepth st imports deps
    = Some (st', deps') →
    I st' deps' (seen ++ imports).
Proof.
  intros Hround. induction imports as [|imp imports IH];
    intros st deps seen st' deps' HI; simpl.
  - intros [= <- <-]. by rewrite app_nil_r.
  - destruct (processImport _ _ _ _ _ _ st imp) as [[st1 r1]|] eqn:Hstep; [|done].
    apply processImport_round in Hstep.
    pose proof (Hround _ _ _ _ _ _ HI Hstep) as HI1.
    rewrite (cons_middle imp seen imports), app_assoc.
    destruct r1 as [n|]; simpl in HI1; [|rewrite app_nil_r in HI1]; by apply IH.
Qed.
End LoopImports.

Lemma failed_imports_unfold w c root n :
  failed_imports w c root n
  = failed_here w c root n ++ flat_map (failed_imports w c root) (n_dependencies n).
Proof. unfold failed_imports. by rewrite flat_map_subtrees. Qed.

Lemma failed_imports_originalImport w c root imp n :
  failed_imports w c root (with_originalImport imp n) = failed_imports w c root n.
Proof. by rewrite !failed_imports_unfold. Qed.

Lemma failed_imports_leaf w c root n :
  n_dependencies n = [] → n_exists n ≠ Some true → failed_imports w c root n = [].
Proof.
  intros Hleaf Hex. rewrite failed_imports_unfold, Hleaf. unfold failed_here.
  by destruct (n_exists n) as [[|]|].
Qed.

Section Unresolved.
Context (w : world) (c : config).
Hypothesis Hinternal : includeExternal c = false.

Lemma extractDependencies_unresolved fuel : ∀ st filePath d st' r x,
  extractDependencies w c fuel st filePath d = Some (st', r) →
  x ∈ unresolved st'
  ↔ x ∈ unresolved st ∨ x ∈ flat_map (failed_imports w c (rootDir st)) (pushed r).
Proof.
  induction fuel as [|fuel IH]; intros st filePath d st' r x; [done|].
  cbn [extractDependencies].
  destruct (exceeds c d).
  { intros [= <- <-]. simpl. rewrite elem_of_nil. tauto. }
  destruct (visited_at_or_above st _ d).
  { intros [= <- <-]. cbn [pushed flat_map].
    rewrite failed_imports_leaf by done. simpl. rewrite elem_of_nil. tauto. }
  set (rp := Path.resolve (cwd w) [filePath]) in *.
  destruct (negb (existsSync w rp)).
  { intros [= <- <-]. cbn [pushed flat_map].
    rewrite failed_imports_leaf by done. simpl. rewrite elem_of_nil. tauto. }
  set (rel := Path.relative (cwd w) (rootDir st) rp) in *.
  destruct (processImports _ _ _ _ _ _ _ _ _) as [[st2 deps]|] eqn:Hloop; [|done].
  intros [= <- <-].
  pose (I := λ (s : state) (ds : list node) (seen : list string),
               rootDir s = rootDir st
               ∧ ∀ y, y ∈ unresolved s
                      ↔ y ∈ unresolved st
                        ∨ y ∈ filter (λ imp, truthy (resolveImportPath w c
                                                       (rootDir st) imp rp) = false)
                                seen
                            ++ flat_map (failed_imports w c (rootDir st)) ds).
  assert (Hround : ∀ s ds seen imp s' r0,
            I s ds seen →
            round w c (extractDependencies w c fuel) rel rp d s imp s' r0 →
            I s' (ds ++ pushed r0) (seen ++ [imp])).
  { unfold I. intros s ds seen imp s' r0 [Hroot HI] Hround.
    assert (Hstep : rootDir s' = rootDir s
              ∧ ∀ y, y ∈ unresolved s'
                     ↔ y ∈ unresolved s
                       ∨ y ∈ filter (λ imp, truthy (resolveImportPath w c
                                                      (rootDir st) imp rp) = false)
                               [imp]
                           ++ flat_map (failed_imports w c (rootDir st)) (pushed r0)).
    { rewrite filter_cons, filter_nil.
      inversion Hround as [Hnone Hinc|Hnone Hinc|target Hres Hne Hvisited
                          |target s1 r1 Hres Hne Hunvisited Hcall]; subst.
      - congruence.
      - split; [done|]. intros y. rewrite Hroot in Hnone.
        rewrite decide_True by done.
        cbn [pushed flat_map add_unresolved unresolved app].
        rewrite set_add_elem, list_elem_of_singleton. tauto.
      - split; [done|]. intros y. rewrite Hroot in Hres.
        rewrite decide_False
          by (rewrite Hres; simpl; destruct target; [done | by simpl]).
        cbn [pushed flat_map add_circularDep unresolved app].
        rewrite failed_imports_leaf by done. simpl. rewrite elem_of_nil. tauto.
      - pose proof (extractDependencies_sound w c _ _ _ _ _ _ Hcall)
          as [[_ Hroot1] _].
        split; [done|]. intros y. rewrite (IH _ _ _ _ _ y Hcall), Hroot.
        rewrite Hroot in Hres.
        rewrite decide_False
          by (rewrite Hres; simpl; destruct target; [done | by simpl]).
        destruct r1 as [n1|]; cbn [fmap option_fmap option_map pushed flat_map app];
          [|done].
        by rewrite failed_imports_originalImport. }
    destruct Hstep as [Hroot1 Hstep]. split; [congruence|]. intros y.
    rewrite Hstep, HI, filter_app, flat_map_app, !elem_of_app. tauto. }
  assert (Hinit : I (mark_visited rp d st) [] []).
  { unfold I. split; [done|]. intros y.
    cbn [mark_visited unresolved flat_map]. rewrite filter_nil. simpl.
    rewrite elem_of_nil. tauto. }
  pose proof (processImports_fold_imports w c _ _ _ _ I Hround _ _ _ _ _ _ Hinit Hloop)
    as [_ Hfinal].
  cbn [pushed flat_map register_file unresolved]. rewrite app_nil_r, Hfinal.
  rewrite failed_imports_unfold. unfold failed_here at 1.
  cbn [file_node n_exists n_absolutePath n_path n_dependencies app].
  unfold imports_of. fold rp. done.
Qed.
End Unresolved.

Lemma ensure_root_unresolved w st filePath :
  unresolved (ensure_root w st filePath) = unresolved st.
Proof.
  unfold ensure_root, autoDetectProjectRoot.
  repeat (case_match; simpl; try done).
Qed.

(** X17: the unresolved imports.  With external inclusion off, the
    specifiers the instance has collected after a run are the ones it
    had before and, for every expanded node of the tree, the imports of
    its file that the resolver gives no path for under the root
    directory of the run. *)
Theorem unresolved_are_failed_imports (w : world) (c : config) (st : state)
    (filePath : string) (st' : state) (tree : node) (x : string) :
  includeExternal c = false →
  analyze w c st filePath = Some (st', Returned tree) →
  x ∈ unresolved st'
  ↔ x ∈ unresolved st ∨ x ∈ failed_imports w c (rootDir st') tree.
Proof.
  intros Hinternal. unfold analyze, analyze_with.
  destruct (extractDependencies _ _ _ _ _ _) as [[st1 [n|]]|] eqn:Hrun; [|done|done].
  intros [= <- <-].
  pose proof (extractDependencies_sound w c _ _ _ _ _ _ Hrun) as [[_ Hroot] _].
  rewrite (extractDependencies_unresolved w c Hinternal _ _ _ _ _ _ x Hrun).
  rewrite ensure_root_unresolved, Hroot. cbn [pushed flat_map]. by rewrite app_nil_r.
Qed.

Lemma unresolved_are_failed_imports_witness :
  includeExternal Sample.defaults = false
  ∧ ∃ st' tree,
      analyze Sample.with_packages Sample.defaults (Sample.fresh Sample.with_packages)
        "src/main.ts"
      = Some (st', Returned tree)
      ∧ unresolved st' = ["left-pad"; "ghost"]%string
      ∧ failed_imports Sample.with_packages Sample.defaults (rootDir st') tree
        = ["left-pad"; "ghost"]%string
      ∧ ("ghost"%string ∈ unresolved st'
         ↔ "ghost"%string ∈ unresolved (Sample.fresh Sample.with_packages)
           ∨ "ghost"%string
               ∈ failed_imports Sample.with_packages Sample.defaults (rootDir st') tree).
Proof.
  split; [reflexivity|].
  eexists _, _. split; [vm_compute; reflexivity|].
  split; [reflexivity|]. split; [vm_compute; reflexivity|].
  eapply (unresolved_are_failed_imports Sample.with_packages Sample.defaults
            (Sample.fresh Sample.with_packages) "src/main.ts" _ _ _ eq_refl).
  vm_compute. reflexivity.
Defined.

(** ** What a dependency can be *)

Section Dependencies.
Context (w : world) (c : config).
Hypothesis Hinternal : includeExternal c = false.
Hypothesis Hresolved : resolves_to_resolved w c.

End Dependencies.



(** X19: a configured root directory is kept.  When the instance has a
    root directory that is not empty and not the working directory,
    [analyze] does not run the detection and the traversal never
    changes the root: the instance has the same root afterwards,
    whether a tree is returned or the call throws. *)
Theorem configured_root_is_kept (w : world) (c : config) (st : state)
    (filePath : string) (st' : state) (out : outcome) :
  rootDir st ≠ ""%string → rootDir st ≠ cwd w →
  analyze w c st filePath = Some (st', out) →
  rootDir st' = rootDir st.
Proof.
  intros Hset Hcwd. unfold analyze, analyze_with, ensure_root.
  rewrite (proj2 (String.eqb_neq _ _) Hset), (proj2 (String.eqb_neq _ _) Hcwd).
  cbn [orb].
  destruct (extractDependencies _ _ _ _ _ _) as [[st1 r]|] eqn:Hrun; [|done].
  apply extractDependencies_sound in Hrun as [[_ Hroot] _].
  by destruct r; intros [= <- <-].
Qed.

Lemma configured_root_is_kept_witness :
  rootDir (set_rootDir "/proj/src" (Sample.fresh Sample.diamond)) ≠ ""%string
  ∧ rootDir (set_rootDir "/proj/src" (Sample.fresh Sample.diamond)) ≠ cwd Sample.diamond
  ∧ ∃ st' tree,
      analyze Sample.diamond Sample.defaults
        (set_rootDir "/proj/src" (Sample.fresh Sample.diamond)) "src/r.ts"
      = Some (st', Returned tree)
      ∧ n_path tree = "r.ts"%string
      ∧ rootDir st' = "/proj/src"%string.
Proof.
  assert (Hset : rootDir (set_rootDir "/proj/src" (Sample.fresh Sample.diamond))
                 ≠ ""%string) by discriminate.
  assert (Hcwd : rootDir (set_rootDir "/proj/src" (Sample.fresh Sample.diamond))
                 ≠ cwd Sample.diamond) by discriminate.
  refine (conj Hset (conj Hcwd _)).
  eexists _, _. split; [vm_compute; reflexivity|]. split; [reflexivity|].
  eapply (configured_root_is_kept Sample.diamond Sample.defaults
            (set_rootDir "/proj/src" (Sample.fresh Sample.diamond)) "src/r.ts"
            _ _ Hset Hcwd).
  vm_compute. reflexivity.
Defined.
